(** * indie-map: the per-site record generator ([bigquery/make_web.py])

    A shallow embedding of [load_links], [make_full], [make_base] and
    [make_internal], and the properties of the aggregation, scoring,
    record assembly and view derivation that the specification states.

    Modelling conventions.
    - A Python [dict] (insertion ordered, as every dict of the program is
      iterated, sorted or serialised in that order) is an association list
      with unique keys: [OD.set] overwrites in place or appends.
    - A [defaultdict] is a dict read through [OD.getd] and updated through
      [OD.upd] with the factory's value.
    - A raised exception is [None]; no function of the program catches one,
      so every exception aborts the run.
    - [decimal.Decimal] numbers are modelled by their value in [Q]; the
      context precision ([prec = 3], ROUND_HALF_EVEN) is applied by
      [round_prec] after every arithmetic operation, as the library does.
    - [copy.deepcopy] is the identity: values are immutable here. *)

From Stdlib Require Import ZArith QArith List String Ascii Bool Lia.
From Stdlib Require Import Sorting.Sorted.
Import ListNotations.

Local Open Scope string_scope.
Local Open Scope Z_scope.
#[local] Set Warnings "-register-all".

(** ** Insertion-ordered dictionaries with string keys *)

Module OD.
Section Dict.
Context {V : Type}.

Fixpoint get (k : string) (d : list (string * V)) : option V :=
  match d with
  | [] => None
  | (k', v) :: r => if String.eqb k k' then Some v else get k r
  end.

(** [d[k] = v]: an existing key keeps its position, a new one goes last. *)
Fixpoint set (k : string) (v : V) (d : list (string * V)) : list (string * V) :=
  match d with
  | [] => [(k, v)]
  | (k', v') :: r =>
      if String.eqb k k' then (k, v) :: r else (k', v') :: set k v r
  end.

(** [d.pop(k, None)], the popped value dropped: the key is gone. *)
Definition remove (k : string) (d : list (string * V)) : list (string * V) :=
  filter (fun kv => negb (String.eqb k (fst kv))) d.

Definition mem (k : string) (d : list (string * V)) : bool :=
  match get k d with Some _ => true | None => false end.

(** [d.get(k, dflt)], and the read of a [defaultdict] whose factory
    gives [dflt]. *)
Definition getd (dflt : V) (k : string) (d : list (string * V)) : V :=
  match get k d with Some v => v | None => dflt end.

(** [d[k] = f(d[k])] on a [defaultdict] whose factory gives [dflt]. *)
Definition upd (dflt : V) (k : string) (f : V -> V)
    (d : list (string * V)) : list (string * V) :=
  set k (f (getd dflt k d)) d.

(** [d.update(e)] for a dict [e]: [for k in e: d[k] = e[k]]. *)
Definition update (d e : list (string * V)) : list (string * V) :=
  fold_left (fun acc kv => set (fst kv) (getd (snd kv) (fst kv) e) acc) e d.

(** [d.setdefault(k, v)], the dictionary after the call. *)
Definition setdefault (k : string) (v : V) (d : list (string * V))
    : list (string * V) :=
  if mem k d then d else set k v d.

Definition keys (d : list (string * V)) : list string := map fst d.

End Dict.
End OD.

(** ** Python values *)

(** JSON values as [json.loads] builds them, and [Decimal] scores.  A float
    is kept as the rational value of its literal. *)
Inductive pyval : Type :=
| PNone
| PBool (b : bool)
| PInt (z : Z)
| PFloat (q : Q)
| PDec (q : Q)
| PStr (s : string)
| PList (l : list pyval)
| PDict (d : list (string * pyval)).

Definition Qis_zero (q : Q) : bool := (Qnum q =? 0)%Z.

(** Truth value of an object, as [if x:] and [x or y] test it. *)
Definition truthy (v : pyval) : bool :=
  match v with
  | PNone => false
  | PBool b => b
  | PInt z => negb (z =? 0)
  | PFloat q => negb (Qis_zero q)
  | PDec q => negb (Qis_zero q)
  | PStr s => negb (String.eqb s "")
  | PList l => match l with [] => false | _ => true end
  | PDict d => match d with [] => false | _ => true end
  end.

(** ** Constants *)

Definition MF2_WEIGHTS : list (string * Z) :=
  [ ("in-reply-to", 5); ("invitee", 5); ("quotation-of", 3);
    ("repost-of", 3); ("like-of", 2); ("favorite-of", 2);
    ("bookmark-of", 2); ("other", 1) ].

Definition DIRECTION_WEIGHTS : list (string * Z) :=
  [ ("out", 2); ("in", 1) ].

Definition MAX_BASE_LINKS : nat := 500.

Definition TAGS_NO_SUBDOMAINS : list string := [ "micro.blog"; "withknown.com" ].

Definition SERVERS : list (string * string) :=
  [ ("Known http://withknown.com", "Known");
    ("Known https://withknown.com", "Known") ].

Definition SERVER_TAGS : list string := [ "Known"; "WordPress" ].

(** ** [int()] *)

Definition is_space (c : ascii) : bool :=
  let n := nat_of_ascii c in
  orb (Nat.eqb n 32) (andb (Nat.leb 9 n) (Nat.leb n 13)).

Definition digit_of (c : ascii) : option Z :=
  let n := nat_of_ascii c in
  if andb (Nat.leb 48 n) (Nat.leb n 57) then Some (Z.of_nat (n - 48)) else None.

Fixpoint lstrip (s : string) : string :=
  match s with
  | String c r => if is_space c then lstrip r else s
  | EmptyString => EmptyString
  end.

Fixpoint string_rev_app (s acc : string) : string :=
  match s with
  | EmptyString => acc
  | String c r => string_rev_app r (String c acc)
  end.

Definition string_rev (s : string) : string := string_rev_app s "".

(** [s.strip()] for ASCII white space. *)
Definition strip (s : string) : string :=
  string_rev (lstrip (string_rev (lstrip s))).

(** Digits with single underscores between them, as [int] accepts.
    [prev] tells whether the previous character was a digit. *)
Fixpoint parse_digits (s : string) (acc : Z) (prev : bool) : option Z :=
  match s with
  | EmptyString => if prev then Some acc else None
  | String c r =>
      match digit_of c with
      | Some d => parse_digits r (10 * acc + d) true
      | None =>
          if andb prev (Ascii.eqb c "_"%char) then parse_digits r acc false
          else None
      end
  end.

(** [int(s)] for a string in base 10, on the strings of ASCII characters.
    On a string with another character [int_of_string] gives [None] and is
    no model of [int], which also reads the decimal digits and the blanks
    of the other scripts of Unicode; see [int_modelled]. *)
Definition int_of_string (s : string) : option Z :=
  match strip s with
  | String "-"%char r => option_map Z.opp (parse_digits r 0 false)
  | String "+"%char r => parse_digits r 0 false
  | r => parse_digits r 0 false
  end.

(** Truncation toward zero, [int(x)] on a float or a Decimal. *)
Definition Qtrunc (q : Q) : Z := Z.quot (Qnum q) (Z.pos (Qden q)).

(** [int(v)]; [None] is the [ValueError] or [TypeError]. *)
Definition py_int (v : pyval) : option Z :=
  match v with
  | PInt z => Some z
  | PBool b => Some (if b then 1 else 0)
  | PFloat q => Some (Qtrunc q)
  | PDec q => Some (Qtrunc q)
  | PStr s => int_of_string s
  | PNone | PList _ | PDict _ => None
  end.

Fixpoint is_ascii (s : string) : bool :=
  match s with
  | EmptyString => true
  | String c r => andb (Nat.ltb (nat_of_ascii c) 128) (is_ascii r)
  end.

(** The values on which [py_int] is [int]: every value but a string with
    a character outside ASCII.  On these, [py_int v = None] is a
    [ValueError] or a [TypeError] of [int(v)]. *)
Definition int_modelled (v : pyval) : bool :=
  match v with
  | PStr s => is_ascii s
  | _ => true
  end.

(** ** [load_links]: aggregation of the link events *)

(** [links[DOMAIN][TO_DOMAIN][DIRECTION][MF2] = count] *)
Abbreviation counts_t := (list (string * Z)).
Abbreviation stats_t := (list (string * counts_t)).
Abbreviation edges_t := (list (string * stats_t)).
Abbreviation graph_t := (list (string * edges_t)).

(** One link object once its fields are read. *)
Record link_event := {
  from_domain : string;
  to_domain : string;
  num : Z;
  mf2_class : string
}.

Definition as_str (v : pyval) : option string :=
  match v with PStr s => Some s | _ => None end.

(** [mf2[2:] if mf2.startswith('u-') else mf2] *)
Definition strip_u (mf2 : string) : string :=
  match mf2 with
  | String "u"%char (String "-"%char r) => r
  | _ => mf2
  end.

(** The reads of one loop iteration: [link['from_domain']],
    [link['to_domain']], [int(link['num'])] and
    [link.get('mf2_class', 'other')] with its prefix stripped.  Domains and
    classes are strings. *)
Definition read_link (link : pyval) : option link_event :=
  match link with
  | PDict d =>
      match OD.get "from_domain" d, OD.get "to_domain" d, OD.get "num" d with
      | Some (PStr f), Some (PStr t), Some n =>
          match py_int n, as_str (OD.getd (PStr "other") "mf2_class" d) with
          | Some z, Some c =>
              Some {| from_domain := f; to_domain := t; num := z;
                      mf2_class := strip_u c |}
          | _, _ => None
          end
      | _, _, _ => None
      end
  | _ => None
  end.

(** [links[a][b][dir][mf2] += n] on the nested [defaultdict]s. *)
Definition bump (a b dir mf2 : string) (n : Z) (links : graph_t) : graph_t :=
  OD.upd [] a (OD.upd [] b (OD.upd [] dir (OD.upd 0 mf2 (fun c => c + n)))) links.

Record agg_state := {
  links_of : graph_t;
  from_domains_of : list string;
  out_counts_of : list (string * Z);
  in_counts_of : list (string * Z)
}.

Definition agg_init : agg_state :=
  {| links_of := []; from_domains_of := [];
     out_counts_of := []; in_counts_of := [] |}.

Definition set_add (x : string) (s : list string) : list string :=
  if existsb (String.eqb x) s then s else s ++ [x].

(** The body of the loop of [load_links]. *)
Definition agg_step (st : agg_state) (e : link_event) : agg_state :=
  let f := from_domain e in
  let t := to_domain e in
  let links1 := bump f t "out" (mf2_class e) (num e) (links_of st) in
  let links2 := bump t f "in" (mf2_class e) (num e) links1 in
  {| links_of := links2;
     from_domains_of := set_add f (from_domains_of st);
     out_counts_of := OD.upd 0 f (fun c => c + num e) (out_counts_of st);
     in_counts_of := OD.upd 0 t (fun c => c + num e) (in_counts_of st) |}.

Definition aggregate (events : list link_event) : agg_state :=
  fold_left agg_step events agg_init.

Fixpoint mapM {A B : Type} (f : A -> option B) (l : list A) : option (list B) :=
  match l with
  | [] => Some []
  | x :: r =>
      match f x with
      | None => None
      | Some y =>
          match mapM f r with
          | None => None
          | Some ys => Some (y :: ys)
          end
      end
  end.

Definition load_links (links_in : list pyval) : option agg_state :=
  option_map aggregate (mapM read_link links_in).

(** ** Decimal arithmetic at the context precision *)

Definition PREC : Z := 3.

Fixpoint ndigits_aux (fuel : nat) (n : Z) : Z :=
  match fuel with
  | O => 1
  | S f => if n <? 10 then 1 else 1 + ndigits_aux f (n / 10)
  end.

(** Number of decimal digits of [n > 0]. *)
Definition ndigits (n : Z) : Z := ndigits_aux (Z.to_nat (Z.log2 n)) n.

(** [n / d] rounded to the nearest integer, ties to even ([0 <= n], [0 < d]). *)
Definition round_half_even (n d : Z) : Z :=
  let q := n / d in
  match 2 * (n mod d) ?= d with
  | Lt => q
  | Gt => q + 1
  | Eq => if Z.even q then q else q + 1
  end.

(** [floor (log10 (a / b))] for [0 < a], [0 < b]. *)
Definition adjusted (a b : Z) : Z :=
  let k := ndigits a - ndigits b in
  if 0 <=? k
  then (if b * 10 ^ k <=? a then k else k - 1)
  else (if b <=? a * 10 ^ (- k) then k else k - 1).

(** [a / b] rounded to [PREC] significant digits ([0 < a], [0 < b]). *)
Definition round_pos (a b : Z) : Q :=
  let e := adjusted a b - (PREC - 1) in
  if 0 <=? e
  then inject_Z (round_half_even a (b * 10 ^ e) * 10 ^ e)
  else Qred (Qmake (round_half_even (a * 10 ^ (- e)) b) (Z.to_pos (10 ^ (- e)))).

(** The rounding the context applies to the exact result of an operation. *)
Definition round_prec (q : Q) : Q :=
  let r := Qred q in
  match Qnum r with
  | Z0 => 0%Q
  | Zpos a => round_pos (Zpos a) (Zpos (Qden r))
  | Zneg a => Qopp (round_pos (Zpos a) (Zpos (Qden r)))
  end.

(** [x + y] and [x / y] on Decimals. *)
Definition dec_add (x y : Q) : Q := round_prec (x + y)%Q.
Definition dec_div (x y : Q) : Q := round_prec (x / y)%Q.

(** *** A reference [Decimal.ln]

    [Decimal.ln] is a function of Python's library, correctly rounded at the
    context precision.  The scoring code below takes it as a parameter;
    [dec_ln_ref] computes it for the examples, from rational enclosures of
    [ln x = k ln 2 + 2 atanh ((m - 1) / (m + 1))], [x = m 2^k], refined
    until both ends round to the same Decimal. *)

Fixpoint atanh_terms (n : nat) (t2 pw : Q) (i : Z) (acc : Q) : Q * Q :=
  match n with
  | O => (acc, pw)
  | S n' =>
      atanh_terms n' t2 (Qred (pw * t2)) (i + 1)
        (Qred (acc + pw / inject_Z (2 * i + 1)))
  end.

(** Lower and upper bound of [atanh t] for [0 <= t < 1] from [n] terms. *)
Definition atanh_bounds (n : nat) (t : Q) : Q * Q :=
  let t2 := Qred (t * t) in
  let '(s, pw) := atanh_terms n t2 t 0 0%Q in
  (s, Qred (s + pw / (inject_Z (2 * Z.of_nat n + 1) * (1 - t2)))).

Definition atanh_signed (n : nat) (t : Q) : Q * Q :=
  if Qle_bool 0 t then atanh_bounds n t
  else let '(lo, hi) := atanh_bounds n (- t) in ((- hi)%Q, (- lo)%Q).

Definition Qpow2 (k : Z) : Q :=
  if 0 <=? k then inject_Z (2 ^ k) else Qmake 1 (Z.to_pos (2 ^ (- k))).

Definition ln_bounds (n : nat) (x : Q) : Q * Q :=
  let k := Z.log2 (Qnum x) - Z.log2 (Zpos (Qden x)) in
  let m := Qred (x / Qpow2 k) in
  let '(l2, u2) := atanh_bounds n (1 # 3) in
  let '(lm, um) := atanh_signed n (Qred ((m - 1) / (m + 1))) in
  let kq := inject_Z k in
  if 0 <=? k
  then (Qred (2 * (kq * l2 + lm)), Qred (2 * (kq * u2 + um)))
  else (Qred (2 * (kq * u2 + lm)), Qred (2 * (kq * l2 + um))).

Fixpoint dec_ln_search (fuel n : nat) (x : Q) : Q :=
  match fuel with
  | O => 0%Q
  | S f =>
      let '(lo, hi) := ln_bounds n x in
      let a := round_prec lo in
      let b := round_prec hi in
      if Qeq_bool a b then a else dec_ln_search f (2 * n) x
  end.

(** [x.ln()] for a Decimal [0 < x]. *)
Definition dec_ln_ref (x : Q) : Q := dec_ln_search 8 4 (Qred x).

(** ** Scoring *)

(** An edge after scoring: its two count sub-maps and [stats['score']]. *)
Record scored := {
  stats_of : stats_t;
  score_of : Q
}.

Definition Qltb (x y : Q) : bool := negb (Qle_bool y x).

(** [for mf2, count in counts.items(): score += Decimal(count *
    MF2_WEIGHTS[mf2] * DIRECTION_WEIGHTS[direction])]; a missing key of
    either table raises. *)
Definition score_counts (direction : string) (score : option Q)
    (counts : counts_t) : option Q :=
  fold_left
    (fun acc kv =>
       match acc, OD.get (fst kv) MF2_WEIGHTS, OD.get direction DIRECTION_WEIGHTS with
       | Some s, Some w, Some dw => Some (dec_add s (inject_Z (snd kv * w * dw)))
       | _, _, _ => None
       end)
    counts score.

(** The raw score of an edge; every [+=] rounds to the context precision. *)
Definition raw_score (stats : stats_t) : option Q :=
  fold_left (fun acc dc => score_counts (fst dc) acc (snd dc)) stats (Some 0%Q).

(** [max_score] starts as the [int] 0, here [None], and becomes a Decimal
    with the first score above it. *)
Definition max_step (m : option Q) (s : Q) : option Q :=
  if Qltb (match m with Some x => x | None => 0%Q end) s then Some s else m.

Definition max_score (raws : list Q) : option Q := fold_left max_step raws None.

(** Sorting by score, largest first.  [sorted(..., reverse=True)] is stable:
    items of equal score keep their order.  An item is inserted before
    the items of equal or smaller score that followed it. *)
Fixpoint insert_desc {A : Type} (key : A -> Q) (x : A) (l : list A) : list A :=
  match l with
  | [] => [x]
  | y :: r => if Qltb (key x) (key y) then y :: insert_desc key x r else x :: l
  end.

Definition sorted_desc {A : Type} (key : A -> Q) (l : list A) : list A :=
  fold_right (insert_desc key) [] l.

Section Scoring.
(** [Decimal.ln] at the context precision. *)
Variable dec_ln : Q -> Q.

(** [0 if score <= 1 else 1 if max_score_ln == 0 else
    score.ln() / max_score_ln] *)
Definition normalize (max_score_ln score : Q) : Q :=
  if Qle_bool score 1 then 0%Q
  else if Qeq_bool max_score_ln 0 then 1%Q
  else dec_div (dec_ln score) max_score_ln.

(** The raw scores of the edges of one domain, in the order of its dict. *)
Definition raw_scores (edges : edges_t) : option (list Q) :=
  mapM (fun e => raw_score (snd e)) edges.

(** The body of the scoring loop for one domain.  [max_score.ln()] on
    the [int] 0 raises [AttributeError]. *)
Definition score_domain (edges : edges_t) : option (list (string * scored)) :=
  match raw_scores edges with
  | None => None
  | Some raws =>
      match max_score raws with
      | None => None
      | Some m =>
          let max_score_ln := dec_ln m in
          Some (map (fun es =>
                       (fst (fst es),
                        {| stats_of := snd (fst es);
                           score_of := normalize max_score_ln (snd es) |}))
                    (combine edges raws))
      end
  end.

Definition score_graph (links : graph_t)
    : option (list (string * list (string * scored))) :=
  mapM (fun de => option_map (fun s => (fst de, s)) (score_domain (snd de))) links.
End Scoring.

(** ** Crawl times *)

(** Year, month and day of a day number counted from 1970-01-01. *)
Definition civil_from_days (days : Z) : Z * Z * Z :=
  let z := days + 719468 in
  let era := z / 146097 in
  let doe := z - era * 146097 in
  let yoe := (doe - doe / 1460 + doe / 36524 - doe / 146096) / 365 in
  let doy := doe - (365 * yoe + yoe / 4 - yoe / 100) in
  let mp := (5 * doy + 2) / 153 in
  let d := doy - (153 * mp + 2) / 5 + 1 in
  let m := if mp <? 10 then mp + 3 else mp - 9 in
  ((if m <=? 2 then yoe + era * 400 + 1 else yoe + era * 400), m, d).

Definition digit_char (d : Z) : ascii := ascii_of_nat (48 + Z.to_nat d).

Definition pad2 (n : Z) : string :=
  String (digit_char (n / 10 mod 10)) (String (digit_char (n mod 10)) "").

Definition pad4 (n : Z) : string :=
  String (digit_char (n / 1000 mod 10))
    (String (digit_char (n / 100 mod 10)) (pad2 n)).

(** The [datetime] of the first six fields of [time.gmtime(ts)], printed by
    [isoformat('T')]; [datetime] accepts the years 1 to 9999. *)
Definition iso_of_epoch (ts : Z) : option string :=
  let s := ts mod 86400 in
  let '(y, m, d) := civil_from_days (ts / 86400) in
  if andb (1 <=? y) (y <=? 9999)
  then Some (pad4 y ++ "-" ++ pad2 m ++ "-" ++ pad2 d ++ "T" ++
             pad2 (s / 3600) ++ ":" ++ pad2 (s mod 3600 / 60) ++ ":" ++
             pad2 (s mod 60))
  else None.

(** The lambda [convert] of [make_full], applied to [int(ts)]. *)
Definition convert (ts : pyval) : option pyval :=
  match py_int ts with
  | Some z => option_map PStr (iso_of_epoch z)
  | None => None
  end.

(** ** [make_full]: assembly of the site records *)

Abbreviation dict := (list (string * pyval)).

Definition mem_str (x : string) (l : list string) : bool :=
  existsb (String.eqb x) l.

(** [s.endswith(suffix)] *)
Definition endswith (s suffix : string) : bool :=
  String.prefix (string_rev suffix) (string_rev s).

Fixpoint insert_str (x : string) (l : list string) : list string :=
  match l with
  | [] => [x]
  | y :: r => if String.leb x y then x :: l else y :: insert_str x r
  end.

(** [sorted(s)] of a set of strings. *)
Definition sorted_strs (l : list string) : list string :=
  fold_right insert_str [] l.

(** A site object and its [site['domain']].  Domains are strings. *)
Definition site_domain (site : pyval) : option (string * dict) :=
  match site with
  | PDict d =>
      match OD.get "domain" d with
      | Some (PStr s) => Some (s, d)
      | _ => None
      end
  | _ => None
  end.

(** [all_extra[site['domain']].update(site)] for every site of every extra
    sequence, in order. *)
Definition collect_extra (extras : list (list pyval)) : option (list (string * dict)) :=
  fold_left
    (fun acc site =>
       match acc, site_domain site with
       | Some a, Some (dom, d) => Some (OD.upd [] dom (fun e => OD.update e d) a)
       | _, _ => None
       end)
    (List.concat extras) (Some []).

(** [site.update(all_extra[domain])] *)
Definition merge_extra (all_extra : list (string * dict)) (domain : string)
    (site : dict) : dict :=
  OD.update site (OD.getd [] domain all_extra).

(** The edge as it is stored in the record: the direction sub-maps in
    their order and ['score'], set by [stats['score'] = score]. *)
Definition counts_to_py (c : counts_t) : pyval :=
  PDict (map (fun kv => (fst kv, PInt (snd kv))) c).

Definition stats_to_py (s : scored) : pyval :=
  PDict (OD.set "score" (PDec (score_of s))
           (map (fun dc => (fst dc, counts_to_py (snd dc))) (stats_of s))).

(** The items of [domain_links] sorted by score, largest first.  The keys
    of a dict are distinct, so the [OrderedDict] of the sorted items holds
    them as they are. *)
Definition sorted_links (domain_links : list (string * scored)) : pyval :=
  PDict (map (fun ks => (fst ks, stats_to_py (snd ks)))
             (sorted_desc (fun ks => score_of (snd ks)) domain_links)).

(** [if num_pages: site['num_pages'] = int(num_pages)] *)
Definition coerce_num_pages (site : dict) : option dict :=
  let num_pages := OD.getd PNone "num_pages" site in
  if truthy num_pages
  then option_map (fun z => OD.set "num_pages" (PInt z) site) (py_int num_pages)
  else Some site.

(** [tags.append] of a list of new tags on the object that
    [site.setdefault('tags', [])] returned; only a list has [append]. *)
Definition append_tags (new : list pyval) (site : dict) : option dict :=
  match new, OD.getd (PList []) "tags" site with
  | [], _ => Some site
  | _, PList l => Some (OD.set "tags" (PList (l ++ new)) site)
  | _, _ => None
  end.

(** One generator of the [servers] loop: [gen = SERVERS.get(gen, gen)],
    then [servers = site.setdefault('servers', [])] and the append when
    [gen not in servers].  Generators are strings and [servers] is a list;
    a generator already in [servers] leaves the record as it is. *)
Definition add_server (acc : option dict) (gen : pyval) : option dict :=
  match acc, gen with
  | Some site, PStr g =>
      let g' := OD.getd g g SERVERS in
      match OD.getd (PList []) "servers" site with
      | PList l =>
          if existsb (fun v => match v with PStr s => String.eqb s g' | _ => false end) l
          then Some site
          else Some (OD.set "servers" (PList (l ++ [PStr g'])) site)
      | _ => None
      end
  | _, _ => None
  end.

(** [site.pop(k, [])] as a list. *)
Definition pop_list (k : string) (site : dict) : option (list pyval) :=
  match OD.getd (PList []) k site with
  | PList l => Some l
  | _ => None
  end.

(** The servers of the record that are in [SERVER_TAGS]; a list or dict
    among them cannot be hashed. *)
Fixpoint server_tags (servers : list pyval) : option (list pyval) :=
  match servers with
  | [] => Some []
  | PStr s :: r =>
      option_map (fun t => if mem_str s SERVER_TAGS then PStr s :: t else t)
                 (server_tags r)
  | (PList _ | PDict _) :: _ => None
  | _ :: r => server_tags r
  end.

(** The crawl time block of [make_full]. *)
Definition crawl_times (site : dict) : option dict :=
  let fetch := OD.getd PNone "fetch_time" site in
  let site := OD.remove "fetch_time" site in
  let start := OD.getd PNone "crawl_start" site in
  let end_ := OD.getd PNone "crawl_end" site in
  if andb (truthy start) (truthy end_) then
    match convert start with
    | None => None
    | Some s =>
        let site := OD.set "crawl_start" s site in
        match convert end_ with
        | None => None
        | Some e => Some (OD.set "crawl_end" e site)
        end
    end
  else if truthy fetch then
    Some (OD.set "crawl_end" fetch (OD.set "crawl_start" fetch site))
  else Some site.

Section Assembly.
(** The tag lists read from the [crawl/domains_*.txt] files. *)
Variable TAGS : list (string * list string).
(** [json.loads] of simplejson. *)
Variable json_loads : pyval -> option pyval.
Variable dec_ln : Q -> Q.

(** The tags of [TAGS] a domain gets, in the order of [TAGS]. *)
Definition domain_tags (domain : string) : list pyval :=
  flat_map
    (fun td =>
       if existsb
            (fun tag_domain =>
               orb (String.eqb domain tag_domain)
                   (andb (endswith domain ("." ++ tag_domain))
                         (negb (mem_str tag_domain TAGS_NO_SUBDOMAINS))))
            (snd td)
       then [PStr (fst td)] else [])
    TAGS.

(** The tags block, up to the two endpoint tags. *)
Definition infer_tags (domain : string) (site : dict) : option dict :=
  let site := OD.setdefault "tags" (PList []) site in
  append_tags
    (domain_tags domain
     ++ (if truthy (OD.getd PNone "webmention_endpoints" site)
         then [PStr "webmention"] else [])
     ++ (if truthy (OD.getd PNone "micropub_endpoints" site)
         then [PStr "micropub"] else []))
    site.

(** The servers block and the tags of the servers.  The two generator
    fields are lists when present.  [for server in site.get('servers', [])]
    walks a list, the keys of a dict, or the characters of a string, and
    no single character is a server tag. *)
Definition infer_servers (site : dict) : option dict :=
  match pop_list "rel_generators" site with
  | None => None
  | Some rel =>
      let site := OD.remove "rel_generators" site in
      match pop_list "meta_generators" site with
      | None => None
      | Some meta =>
          let site := OD.remove "meta_generators" site in
          match fold_left add_server (rel ++ meta) (Some site) with
          | None => None
          | Some site =>
              match OD.getd (PList []) "servers" site with
              | PList servers =>
                  match server_tags servers with
                  | Some new => append_tags new site
                  | None => None
                  end
              | PDict d =>
                  match server_tags (map (fun kv => PStr (fst kv)) d) with
                  | Some new => append_tags new site
                  | None => None
                  end
              | PStr _ => Some site
              | _ => None
              end
          end
      end
  end.

(** [json.loads(site.get('hcard', '{}')) or {}] *)
Definition load_hcard (site : dict) : option pyval :=
  match json_loads (OD.getd (PStr "{}") "hcard" site) with
  | Some v => Some (if truthy v then v else PDict [])
  | None => None
  end.

(** The body of the loop over [sites + more_sites]. *)
Definition emit_site (st : agg_state)
    (links : list (string * list (string * scored)))
    (all_extra : list (string * dict)) (site : pyval) : option dict :=
  match site_domain site with
  | None => None
  | Some (domain, site) =>
      let site := merge_extra all_extra domain site in
      let site := OD.remove "mf2" site in
      let site := OD.remove "html" site in
      match coerce_num_pages site with
      | None => None
      | Some site =>
      match infer_tags domain site with
      | None => None
      | Some site =>
      match infer_servers site with
      | None => None
      | Some site =>
      match crawl_times site with
      | None => None
      | Some site =>
      match load_hcard site with
      | None => None
      | Some hcard =>
          Some (OD.update site
                  [ ("hcard", hcard);
                    ("links_out", PInt (OD.getd 0 domain (out_counts_of st)));
                    ("links_in", PInt (OD.getd 0 domain (in_counts_of st)));
                    ("links", sorted_links (OD.getd [] domain links)) ])
      end end end end end
  end.

(** [sorted(from_domains - set(site['domain'] for site in sites))] as
    stub site objects. *)
Definition more_sites (from_domains site_domains : list string) : list pyval :=
  map (fun d => PDict [("domain", PStr d)])
      (sorted_strs (filter (fun d => negb (mem_str d site_domains)) from_domains)).

(** [list(make_full(sites, single_links, *extras))] *)
Definition make_full (sites single_links : list pyval)
    (extras : list (list pyval)) : option (list dict) :=
  match load_links single_links with
  | None => None
  | Some st =>
  match score_graph dec_ln (links_of st) with
  | None => None
  | Some links =>
  match collect_extra extras with
  | None => None
  | Some all_extra =>
  match mapM site_domain sites with
  | None => None
  | Some sds =>
      mapM (emit_site st links all_extra)
           (sites ++ more_sites (from_domains_of st) (map fst sds))
  end end end end.
End Assembly.

(** ** [make_base] and [make_internal] *)

(** The body of the loop of [make_base] on one copied site.  The items of
    a dict have distinct keys, so the [OrderedDict] of the first
    [MAX_BASE_LINKS] items holds them as they are. *)
Definition base_site (site : dict) : option dict :=
  match OD.get "links" site with
  | Some (PDict l) =>
      if Nat.ltb MAX_BASE_LINKS (List.length l)
      then Some (OD.set "links_truncated" (PBool true)
                   (OD.set "links" (PDict (firstn MAX_BASE_LINKS l)) site))
      else Some site
  | Some (PList l) =>
      if Nat.ltb MAX_BASE_LINKS (List.length l) then None else Some site
  | Some (PStr s) =>
      if Nat.ltb MAX_BASE_LINKS (String.length s) then None else Some site
  | _ => None
  end.

Definition make_base (full : list dict) : option (list dict) :=
  mapM base_site full.

(** [site['domain'] in domains] for a set of strings: a list or a dict
    cannot be hashed. *)
Definition in_domains (domains : list string) (site : dict) : option bool :=
  match OD.get "domain" site with
  | Some (PStr s) => Some (mem_str s domains)
  | Some (PList _) | Some (PDict _) | None => None
  | Some _ => Some false
  end.

Fixpoint filterM {A : Type} (f : A -> option bool) (l : list A) : option (list A) :=
  match l with
  | [] => Some []
  | x :: r =>
      match f x with
      | None => None
      | Some b =>
          match filterM f r with
          | None => None
          | Some ys => Some (if b then x :: ys else ys)
          end
      end
  end.

(** The body of the loop of [make_internal] on one kept site. *)
Definition internal_site (domains : list string) (site : dict) : option dict :=
  match OD.getd (PDict []) "links" site with
  | PDict l =>
      Some (OD.set "links"
              (PDict (filter (fun kv => mem_str (fst kv) domains) l)) site)
  | _ => None
  end.

Definition make_internal (full : list dict) (domains : list string)
    : option (list dict) :=
  match filterM (in_domains domains) full with
  | None => None
  | Some internal => mapM (internal_site domains) internal
  end.

(** ** A reference [json.loads]

    [make_full] takes [json.loads] as a parameter; [json_loads_ref] reads
    the JSON grammar (objects, arrays, strings with their escapes, numbers,
    [true], [false], [null]) for the examples.  The non-standard literals
    [NaN] and [Infinity] are not read. *)

Definition code (c : ascii) : nat := nat_of_ascii c.

Definition dquote : ascii := ascii_of_nat 34.

Fixpoint skip_ws (s : string) : string :=
  match s with
  | String c r =>
      if orb (orb (Nat.eqb (code c) 32) (Nat.eqb (code c) 9))
             (orb (Nat.eqb (code c) 10) (Nat.eqb (code c) 13))
      then skip_ws r else s
  | EmptyString => EmptyString
  end.

Definition hex_of (c : ascii) : option Z :=
  let n := code c in
  if andb (Nat.leb 48 n) (Nat.leb n 57) then Some (Z.of_nat (n - 48))
  else if andb (Nat.leb 97 n) (Nat.leb n 102) then Some (Z.of_nat (n - 87))
  else if andb (Nat.leb 65 n) (Nat.leb n 70) then Some (Z.of_nat (n - 55))
  else None.

Definition hex4 (a b c d : ascii) : option Z :=
  match hex_of a, hex_of b, hex_of c, hex_of d with
  | Some x, Some y, Some z, Some w => Some (((x * 16 + y) * 16 + z) * 16 + w)
  | _, _, _, _ => None
  end.

Definition byte_of (z : Z) : ascii := ascii_of_nat (Z.to_nat z).

(** The UTF-8 bytes of a code point. *)
Definition utf8 (cp : Z) : string :=
  if cp <? 128 then String (byte_of cp) ""
  else if cp <? 2048 then
    String (byte_of (192 + cp / 64)) (String (byte_of (128 + cp mod 64)) "")
  else if cp <? 65536 then
    String (byte_of (224 + cp / 4096))
      (String (byte_of (128 + cp / 64 mod 64))
         (String (byte_of (128 + cp mod 64)) ""))
  else
    String (byte_of (240 + cp / 262144))
      (String (byte_of (128 + cp / 4096 mod 64))
         (String (byte_of (128 + cp / 64 mod 64))
            (String (byte_of (128 + cp mod 64)) ""))).

Definition flush (pending : option Z) : string :=
  match pending with Some hi => utf8 hi | None => "" end.

(** The characters of a string literal after its opening quote, and the
    input after the closing quote.  [pending] is a high surrogate read by
    the previous escape. *)
Fixpoint json_string (s : string) (pending : option Z) : option (string * string) :=
  match s with
  | EmptyString => None
  | String c r =>
      if Nat.eqb (code c) 34 then Some (flush pending, r)
      else if Nat.ltb (code c) 32 then None
      else if Nat.eqb (code c) 92 then
        match r with
        | String e r1 =>
            let simple (ch : ascii) :=
              option_map (fun p => (flush pending ++ String ch (fst p), snd p))
                         (json_string r1 None) in
            if Nat.eqb (code e) 34 then simple dquote
            else if Nat.eqb (code e) 92 then simple e
            else if Nat.eqb (code e) 47 then simple e
            else if Nat.eqb (code e) 98 then simple (ascii_of_nat 8)
            else if Nat.eqb (code e) 102 then simple (ascii_of_nat 12)
            else if Nat.eqb (code e) 110 then simple (ascii_of_nat 10)
            else if Nat.eqb (code e) 114 then simple (ascii_of_nat 13)
            else if Nat.eqb (code e) 116 then simple (ascii_of_nat 9)
            else if Nat.eqb (code e) 117 then
              match r1 with
              | String h1 (String h2 (String h3 (String h4 r2))) =>
                  match hex4 h1 h2 h3 h4 with
                  | None => None
                  | Some cp =>
                      match pending with
                      | Some hi =>
                          if andb (56320 <=? cp) (cp <=? 57343) then
                            option_map
                              (fun p => (utf8 (65536 + (hi - 55296) * 1024 + (cp - 56320))
                                         ++ fst p, snd p))
                              (json_string r2 None)
                          else if andb (55296 <=? cp) (cp <=? 56319) then
                            option_map (fun p => (utf8 hi ++ fst p, snd p))
                                       (json_string r2 (Some cp))
                          else
                            option_map (fun p => (utf8 hi ++ utf8 cp ++ fst p, snd p))
                                       (json_string r2 None)
                      | None =>
                          if andb (55296 <=? cp) (cp <=? 56319)
                          then json_string r2 (Some cp)
                          else option_map (fun p => (utf8 cp ++ fst p, snd p))
                                          (json_string r2 None)
                      end
                  end
              | _ => None
              end
            else None
        | EmptyString => None
        end
      else option_map (fun p => (flush pending ++ String c (fst p), snd p))
                      (json_string r None)
  end.

(** The leading decimal digits of the input: their value, their number,
    and the rest. *)
Fixpoint take_digits (s : string) (acc : Z) (n : Z) : Z * Z * string :=
  match s with
  | String c r =>
      match digit_of c with
      | Some d => take_digits r (10 * acc + d) (n + 1)
      | None => (acc, n, s)
      end
  | EmptyString => (acc, n, s)
  end.

Definition pow10Q (e : Z) : Q :=
  if 0 <=? e then inject_Z (10 ^ e) else Qmake 1 (Z.to_pos (10 ^ (- e))).

(** A number literal: an optional minus sign, then 0 or digits that do not
    start with 0, then an optional fraction and an optional exponent.  A
    literal with neither fraction nor exponent is an [int]. *)
Definition json_number (s : string) : option (pyval * string) :=
  let '(neg, s1) :=
    match s with
    | String "-"%char r => (true, r)
    | _ => (false, s)
    end in
  let int_part :=
    match s1 with
    | String "0"%char r => Some (0, r)
    | _ => let '(v, n, r) := take_digits s1 0 0 in
           if n =? 0 then None else Some (v, r)
    end in
  match int_part with
  | None => None
  | Some (ip, s2) =>
      let '(frac, s3) :=
        match s2 with
        | String "."%char r =>
            let '(v, n, r') := take_digits r 0 0 in
            if n =? 0 then (None, s2) else (Some (v, n), r')
        | _ => (None, s2)
        end in
      let exp_of (r : string) (sgn : Z) (dflt : option Z * string) :=
        let '(v, n, r') := take_digits r 0 0 in
        if n =? 0 then dflt else (Some (sgn * v), r') in
      let '(ex, s4) :=
        match s3 with
        | String c r =>
            if orb (Ascii.eqb c "e"%char) (Ascii.eqb c "E"%char) then
              match r with
              | String "+"%char r' => exp_of r' 1 (None, s3)
              | String "-"%char r' => exp_of r' (-1) (None, s3)
              | _ => exp_of r 1 (None, s3)
              end
            else (None, s3)
        | EmptyString => (None, s3)
        end in
      let sign := if neg then (-1) else 1 in
      match frac, ex with
      | None, None => Some (PInt (sign * ip), s4)
      | _, _ =>
          let '(fv, fn) := match frac with Some p => p | None => (0, 0) end in
          let e := match ex with Some e => e | None => 0 end in
          Some (PFloat (Qred (inject_Z (sign * (ip * 10 ^ fn + fv)) * pow10Q (e - fn))), s4)
      end
  end.

Definition expect (lit : string) (v : pyval) (s : string) : option (pyval * string) :=
  if String.prefix lit s
  then Some (v, String.substring (String.length lit) (String.length s - String.length lit) s)
  else None.

Fixpoint json_value (fuel : nat) (s : string) : option (pyval * string) :=
  match fuel with
  | O => None
  | S f =>
      match skip_ws s with
      | String "{"%char r =>
          match skip_ws r with
          | String "}"%char r' => Some (PDict [], r')
          | r1 => json_members f r1 []
          end
      | String "["%char r =>
          match skip_ws r with
          | String "]"%char r' => Some (PList [], r')
          | r1 => json_elements f r1 []
          end
      | String "t"%char _ as s' => expect "true" (PBool true) s'
      | String "f"%char _ as s' => expect "false" (PBool false) s'
      | String "n"%char _ as s' => expect "null" PNone s'
      | String c r as s' =>
          if Nat.eqb (code c) 34
          then option_map (fun p => (PStr (fst p), snd p)) (json_string r None)
          else json_number s'
      | EmptyString => None
      end
  end
with json_members (fuel : nat) (s : string) (acc : dict) : option (pyval * string) :=
  match fuel with
  | O => None
  | S f =>
      match skip_ws s with
      | String c r =>
          if Nat.eqb (code c) 34 then
            match json_string r None with
            | Some (k, r1) =>
                match skip_ws r1 with
                | String ":"%char r2 =>
                    match json_value f r2 with
                    | Some (v, r3) =>
                        match skip_ws r3 with
                        | String ","%char r4 => json_members f r4 (OD.set k v acc)
                        | String "}"%char r4 => Some (PDict (OD.set k v acc), r4)
                        | _ => None
                        end
                    | None => None
                    end
                | _ => None
                end
            | None => None
            end
          else None
      | EmptyString => None
      end
  end
with json_elements (fuel : nat) (s : string) (acc : list pyval) : option (pyval * string) :=
  match fuel with
  | O => None
  | S f =>
      match json_value f s with
      | Some (v, r) =>
          match skip_ws r with
          | String ","%char r' => json_elements f r' (acc ++ [v])
          | String "]"%char r' => Some (PList (acc ++ [v]), r')
          | _ => None
          end
      | None => None
      end
  end.

(** [json.loads(v)]: only a string is parsed, and nothing but white space
    may follow the value. *)
Definition json_loads_ref (v : pyval) : option pyval :=
  match v with
  | PStr s =>
      match json_value (S (String.length s)) s with
      | Some (x, r) => match skip_ws r with EmptyString => Some x | _ => None end
      | None => None
      end
  | _ => None
  end.

(** ** Vocabulary of the properties *)

(** [graph[a][b][dir][c]], 0 where an entry is missing. *)
Definition count (links : graph_t) (a b dir c : string) : Z :=
  OD.getd 0 c (OD.getd [] dir (OD.getd [] b (OD.getd [] a links))).

(** The sum of the class counts of one direction sub-map. *)
Definition sum_counts (counts : counts_t) : Z :=
  fold_right (fun kv acc => snd kv + acc) 0 counts.

(** The sum, over the edges of a domain, of the class counts of the
    direction [dir]. *)
Definition dir_total (dir : string) (edges : edges_t) : Z :=
  fold_right (fun e acc => sum_counts (OD.getd [] dir (snd e)) + acc) 0 edges.

(** Every count of an out sub-map is the count of the mirrored in sub-map. *)
Definition symmetric (links : graph_t) : Prop :=
  forall a b c, count links a b "out" c = count links b a "in" c.

(** The totals of every domain are the sums over its edges. *)
Definition conserved (st : agg_state) : Prop :=
  forall d,
    OD.getd 0 d (out_counts_of st) = dir_total "out" (OD.getd [] d (links_of st))
    /\ OD.getd 0 d (in_counts_of st) = dir_total "in" (OD.getd [] d (links_of st)).

(** The domains linked with [d], in the order in which the events first
    show them: the target of an event from [d], the source of an event
    to [d]. *)
Definition see (d : string) (seen : list string) (e : link_event) : list string :=
  let seen := if String.eqb (from_domain e) d then set_add (to_domain e) seen else seen in
  if String.eqb (to_domain e) d then set_add (from_domain e) seen else seen.

Definition first_seen (d : string) (events : list link_event) : list string :=
  fold_left (see d) events [].

Fixpoint index_of (k : string) (l : list string) : nat :=
  match l with
  | [] => O
  | x :: r => if String.eqb k x then O else S (index_of k r)
  end.

(** The score stored in an entry of a [links] mapping. *)
Definition link_score (v : pyval) : Q :=
  match v with
  | PDict d =>
      match OD.get "score" d with
      | Some (PDec q) => q
      | Some (PInt z) => inject_Z z
      | _ => 0%Q
      end
  | _ => 0%Q
  end.

(** [x] may stand before [y]: its key is larger, or the keys are equal and
    its position is earlier. *)
Definition before {A : Type} (key : A -> Q) (pos : A -> nat) (x y : A) : Prop :=
  (key y < key x)%Q \/ ((key x == key y)%Q /\ (pos x < pos y)%nat).

(** Entry [x] of a [links] mapping stands rightly before entry [y]: its
    score is larger, or the scores are equal and its target comes first in
    [order]. *)
Definition link_before (order : list string) (x y : string * pyval) : Prop :=
  before (fun e => link_score (snd e)) (fun e => index_of (fst e) order) x y.

(** A [links] mapping in descending score order, ties in the order of
    [order]. *)
Definition links_ordered (order : list string) (l : list (string * pyval)) : Prop :=
  StronglySorted (link_before order) l.

(** The fields [make_full] reads, drops or sets; every other field is
    free-form. *)
Definition handled_keys : list string :=
  [ "mf2"; "html"; "num_pages"; "tags"; "rel_generators"; "meta_generators";
    "servers"; "fetch_time"; "crawl_start"; "crawl_end"; "hcard";
    "links_out"; "links_in"; "links" ].

(** Every entry of [all_extra] carries the domain it is stored under. *)
Definition extra_keyed (all_extra : list (string * dict)) : Prop :=
  forall dom v,
    OD.get "domain" (OD.getd [] dom all_extra) = Some v -> v = PStr dom.

(** The [links] mapping of a record is in descending score order, ties in
    the order in which the events first showed the targets for the
    domain of the record. *)
Definition record_ordered (events : list link_event) (rec : dict) : Prop :=
  forall d l,
    OD.get "domain" rec = Some (PStr d) ->
    OD.get "links" rec = Some (PDict l) ->
    links_ordered (first_seen d events) l.

(** The input site and the output record agree on every field that
    [make_full] does not handle. *)
Definition carried (all_extra : list (string * dict)) (site : pyval) (rec : dict)
    : Prop :=
  exists domain d,
    site_domain site = Some (domain, d)
    /\ forall k, ~ In k handled_keys ->
         OD.get k rec = OD.get k (merge_extra all_extra domain d).

(** [site['domain'] in domains] for a record whose domain is a string. *)
Definition domain_in (domains : list string) (rec : dict) : bool :=
  match OD.get "domain" rec with
  | Some (PStr d) => mem_str d domains
  | _ => false
  end.

(** The base record [b] of the full record [rec]. *)
Definition capped (rec b : dict) : Prop :=
  (forall k, k <> "links" -> k <> "links_truncated" -> OD.get k b = OD.get k rec)
  /\ exists l l',
       OD.get "links" rec = Some (PDict l)
       /\ OD.get "links" b = Some (PDict l')
       /\ (List.length l' <= MAX_BASE_LINKS)%nat
       /\ if Nat.ltb MAX_BASE_LINKS (List.length l)
          then l' = firstn MAX_BASE_LINKS l
               /\ OD.get "links_truncated" b = Some (PBool true)
          else l' = l /\ OD.get "links_truncated" b = None.

(** The base record [b] of the full record [rec], as [make_base] builds
    it: below the cap the record is copied with the [links_truncated] it
    has, if any. *)
Definition base_record (rec b : dict) : Prop :=
  (forall k, k <> "links" -> k <> "links_truncated" -> OD.get k b = OD.get k rec)
  /\ exists l l',
       OD.get "links" rec = Some (PDict l)
       /\ OD.get "links" b = Some (PDict l')
       /\ (List.length l' <= MAX_BASE_LINKS)%nat
       /\ if Nat.ltb MAX_BASE_LINKS (List.length l)
          then l' = firstn MAX_BASE_LINKS l
               /\ OD.get "links_truncated" b = Some (PBool true)
          else l' = l
               /\ OD.get "links_truncated" b = OD.get "links_truncated" rec.

(** The internal record [i] of the full record [rec]. *)
Definition restricted (domains : list string) (rec i : dict) : Prop :=
  (forall k, k <> "links" -> OD.get k i = OD.get k rec)
  /\ exists l,
       OD.get "links" rec = Some (PDict l)
       /\ OD.get "links" i
          = Some (PDict (filter (fun kv => mem_str (fst kv) domains) l)).

(** The output record [rec] of the input [site] satisfies [P merged rec],
    [merged] being the site after [site.update(all_extra[domain])]. *)
Definition assembled (all_extra : list (string * dict))
    (P : dict -> dict -> Prop) (site : pyval) (rec : dict) : Prop :=
  exists domain d,
    site_domain site = Some (domain, d)
    /\ P (merge_extra all_extra domain d) rec.

(** What the record holds for [num_pages], given the merged input. *)
Definition num_pages_spec (merged rec : dict) : Prop :=
  let v := OD.getd PNone "num_pages" merged in
  if truthy v
  then exists z, py_int v = Some z /\ OD.get "num_pages" rec = Some (PInt z)
  else OD.get "num_pages" rec = OD.get "num_pages" merged.

(** What the record holds for [hcard], given the merged input. *)
Definition hcard_spec (json_loads : pyval -> option pyval) (merged rec : dict)
    : Prop :=
  exists p,
    json_loads (OD.getd (PStr "{}") "hcard" merged) = Some p
    /\ OD.get "hcard" rec = Some (if truthy p then p else PDict []).

(** What the record holds for the crawl times, given the merged input. *)
Definition crawl_times_spec (merged rec : dict) : Prop :=
  let start := OD.getd PNone "crawl_start" merged in
  let end_ := OD.getd PNone "crawl_end" merged in
  let fetch := OD.getd PNone "fetch_time" merged in
  if andb (truthy start) (truthy end_) then
    exists zs ze s e,
      py_int start = Some zs /\ iso_of_epoch zs = Some s
      /\ py_int end_ = Some ze /\ iso_of_epoch ze = Some e
      /\ OD.get "crawl_start" rec = Some (PStr s)
      /\ OD.get "crawl_end" rec = Some (PStr e)
  else if truthy fetch then
    OD.get "crawl_start" rec = Some fetch /\ OD.get "crawl_end" rec = Some fetch
  else
    OD.get "crawl_start" rec = OD.get "crawl_start" merged
    /\ OD.get "crawl_end" rec = OD.get "crawl_end" merged.

(** ** Example inputs *)

Definition ex_TAGS : list (string * list string) :=
  [ ("tool", ["indieweb.org"]); ("community", ["micro.blog"]) ].

Definition ex_site (d : string) : pyval := PDict [("domain", PStr d)].

Definition ex_link (f t : string) (n : Z) (c : string) : pyval :=
  PDict [ ("from_domain", PStr f); ("to_domain", PStr t);
          ("num", PInt n); ("mf2_class", PStr c) ].

(** The example of the specification: one reply link event. *)
Definition ex_sites : list pyval := [ ex_site "a.com"; ex_site "b.com" ].
Definition ex_links : list pyval := [ ex_link "a.com" "b.com" 3 "in-reply-to" ].

(** Links with tied scores. *)
Definition ex_tied : list pyval :=
  [ ex_link "a.com" "b.com" 50 "other"; ex_link "a.com" "c.com" 5 "u-other";
    ex_link "d.com" "a.com" 100 "other"; ex_link "a.com" "e.com" 5 "other" ].

Definition ex_make_full : list pyval -> list pyval -> list (list pyval)
    -> option (list dict) :=
  make_full ex_TAGS json_loads_ref dec_ln_ref.

(** A record of the full view with 501 links. *)
Definition ex_wide : dict :=
  [ ("domain", PStr "hub.example");
    ("links",
     PDict (map (fun i => (pad4 (Z.of_nat i) ++ ".example",
                           PDict [("score", PDec 1)]))
                (seq 0 501))) ].

(** A full view of three records and a set of internal domains. *)
Definition ex_full3 : list dict :=
  [ [ ("domain", PStr "a.com");
      ("links", PDict [ ("b.com", PDict [("score", PDec 1)]);
                        ("x.org", PDict [("score", PDec (1 # 2))]);
                        ("c.com", PDict [("score", PDec 0)]) ]) ];
    [ ("domain", PStr "x.org"); ("links", PDict []) ];
    [ ("domain", PStr "c.com");
      ("links", PDict [ ("x.org", PDict [("score", PDec 1)]) ]) ] ].

Definition ex_domains : list string := [ "a.com"; "b.com"; "c.com" ].

Definition ex_tied_events : list link_event :=
  Eval vm_compute in
    match mapM read_link ex_tied with Some e => e | None => [] end.

Definition ex_tied_full : list dict :=
  Eval vm_compute in
    match ex_make_full [ex_site "a.com"] ex_tied [] with
    | Some f => f
    | None => []
    end.

(** A site that comes with a [links_truncated] field of its own. *)
Definition ex_flagged : pyval :=
  PDict [ ("domain", PStr "a.com"); ("links_truncated", PBool true) ].

Definition ex_flagged_full : list dict :=
  Eval vm_compute in
    match ex_make_full [ex_flagged] ex_tied [] with
    | Some f => f
    | None => []
    end.

(** A site with crawl times, a fetch time, generators and free-form
    fields, and extra data for its domain. *)
Definition ex_rich : pyval :=
  PDict [ ("domain", PStr "wiki.indieweb.org");
          ("fetch_time", PStr "2017-06-01T00:00:00");
          ("crawl_start", PInt 1500000000);
          ("crawl_end", PInt 1500000060);
          ("num_pages", PStr "12");
          ("mf2", PStr "{}");
          ("rel_generators", PList [PStr "Known https://withknown.com"]);
          ("hcard", PStr "[]");
          ("title", PStr "IndieWeb") ].

Definition ex_extra : list pyval :=
  [ PDict [ ("domain", PStr "wiki.indieweb.org");
            ("title", PStr "IndieWeb wiki");
            ("webmention_endpoints", PList [PStr "https://webmention.io/"]) ] ].

Definition ex_rich_full : list dict :=
  Eval vm_compute in
    match ex_make_full [ex_rich] [] [ex_extra] with
    | Some f => f
    | None => []
    end.

(** A site whose [num_pages] is not a number, and one whose [num_pages] is
    the empty string. *)
Definition ex_bad_pages : pyval :=
  PDict [ ("domain", PStr "a.com"); ("num_pages", PStr "many") ].

Definition ex_empty_pages : pyval :=
  PDict [ ("domain", PStr "a.com"); ("num_pages", PStr "") ].

(** A site whose [hcard] is not JSON. *)
Definition ex_bad_hcard : pyval :=
  PDict [ ("domain", PStr "a.com"); ("hcard", PStr "{") ].

(** A site crawled from the epoch on, and one with a start only. *)
Definition ex_epoch : pyval :=
  PDict [ ("domain", PStr "a.com"); ("crawl_start", PInt 0);
          ("crawl_end", PInt 86400) ].

Definition ex_start_only : pyval :=
  PDict [ ("domain", PStr "a.com"); ("crawl_start", PInt 1500000000) ].

(** A site whose crawl times are past the years of [datetime]. *)
Definition ex_far : pyval :=
  PDict [ ("domain", PStr "a.com"); ("crawl_start", PInt 1500000000);
          ("crawl_end", PInt 253402300800) ].

(** A link event with a count of zero. *)
Definition ex_zero : list pyval := [ ex_link "a.com" "b.com" 0 "other" ].

(** ** Vocabulary of the further properties *)

(** The sum of [num] over the events that satisfy [p]. *)
Definition sum_num (p : link_event -> bool) (events : list link_event) : Z :=
  fold_right (fun e acc => (if p e then num e else 0) + acc) 0 events.

(** The event goes from [a] to [b] with the class [c]. *)
Definition is_link (a b c : string) (e : link_event) : bool :=
  (String.eqb (from_domain e) a && String.eqb (to_domain e) b
   && String.eqb (mf2_class e) c)%bool.

(** A link object as the BigQuery view writes it, with or without a
    class. *)
Definition ex_plain_link (f t : string) (n : Z) : pyval :=
  PDict [ ("from_domain", PStr f); ("to_domain", PStr t); ("num", PInt n) ].

(** Events of one pair of domains in both directions, a prefixed class, a
    missing class and a link of a domain to itself. *)
Definition ex_mixed : list pyval :=
  [ ex_link "a.com" "b.com" 3 "u-like-of"; ex_link "a.com" "b.com" 4 "like-of";
    ex_plain_link "b.com" "a.com" 2; ex_link "a.com" "a.com" 1 "other";
    ex_link "c.com" "a.com" 7 "in-reply-to" ].

Definition ex_mixed_events : list link_event :=
  Eval vm_compute in
    match mapM read_link ex_mixed with Some e => e | None => [] end.

(** [Decimal.ln] is not negative and does not decrease on the raw scores
    above 1 of a domain. *)
Definition ln_sound_on (dec_ln : Q -> Q) (raws : list Q) : Prop :=
  forall s t,
    In s raws -> In t raws -> (1 < s)%Q -> (s <= t)%Q ->
    (0 <= dec_ln s)%Q /\ (dec_ln s <= dec_ln t)%Q.

(** Every count of the sub-map is at least [lo] and its class has a
    weight. *)
Definition counts_ge (lo : Z) (counts : counts_t) : Prop :=
  forall c n, In (c, n) counts -> lo <= n /\ OD.get c MF2_WEIGHTS <> None.

(** The sub-maps of an edge are those of directions that have a weight,
    are not empty and hold counts of at least [lo]. *)
Definition stats_ge (lo : Z) (stats : stats_t) : Prop :=
  forall dir counts,
    In (dir, counts) stats ->
    OD.get dir DIRECTION_WEIGHTS <> None /\ counts <> [] /\ counts_ge lo counts.

Definition edges_ge (lo : Z) (edges : edges_t) : Prop :=
  forall b stats, In (b, stats) edges -> stats <> [] /\ stats_ge lo stats.

Definition graph_ge (lo : Z) (links : graph_t) : Prop :=
  forall a edges, In (a, edges) links -> edges <> [] /\ edges_ge lo edges.

(** The weighted sum of the counts of an edge, without rounding. *)
Definition exact_counts (direction : string) (counts : counts_t) : Z :=
  fold_right
    (fun kv acc =>
       snd kv * OD.getd 0 (fst kv) MF2_WEIGHTS
       * OD.getd 0 direction DIRECTION_WEIGHTS + acc)
    0 counts.

Definition exact_score (stats : stats_t) : Z :=
  fold_right (fun dc acc => exact_counts (fst dc) (snd dc) + acc) 0 stats.

(** The value of the field [k] that the extra records give to a domain:
    that of the last record of the domain that has the field. *)
Definition last_extra (k domain : string) (records : list pyval) : option pyval :=
  fold_left
    (fun acc site =>
       match site_domain site with
       | Some (dom, d) =>
           if String.eqb dom domain
           then match OD.get k d with Some v => Some v | None => acc end
           else acc
       | None => acc
       end)
    records None.

(** The record [rec] of the input [site] has every free-form field from
    the last extra record of its domain that has the field, and from the
    site itself when none has it. *)
Definition overridden (records : list pyval) (site : pyval) (rec : dict) : Prop :=
  exists domain d,
    site_domain site = Some (domain, d)
    /\ forall k, ~ In k handled_keys ->
         OD.get k rec
         = match last_extra k domain records with
           | Some v => Some v
           | None => OD.get k d
           end.

(** Two extra sequences that give the same field to one domain. *)
Definition ex_extras2 : list (list pyval) :=
  [ [ PDict [ ("domain", PStr "a.com"); ("title", PStr "first");
              ("lang", PStr "en") ] ];
    [ PDict [ ("domain", PStr "b.com"); ("title", PStr "other") ];
      PDict [ ("domain", PStr "a.com"); ("title", PStr "second") ] ] ].

Definition ex_titled : pyval :=
  PDict [ ("domain", PStr "a.com"); ("title", PStr "site"); ("note", PStr "kept");
          ("mf2", PStr "{}"); ("html", PStr "<p>");
          ("meta_generators", PList [PStr "WordPress"]) ].

Definition ex_titled_full : list dict :=
  Eval vm_compute in
    match ex_make_full [ex_titled] ex_tied ex_extras2 with
    | Some f => f
    | None => []
    end.

(** The field [k] of an input site after [site.update(all_extra[domain])]:
    the value of the last extra record of the domain that has the field,
    else the value of the site. *)
Definition merged_get (k : string) (records : list pyval) (site : pyval)
    : option pyval :=
  match site_domain site with
  | Some (domain, d) =>
      match last_extra k domain records with
      | Some v => Some v
      | None => OD.get k d
      end
  | None => None
  end.

(** [site['tags']] and [site['servers']] of a record, as lists. *)
Definition tags_of (rec : dict) : list pyval :=
  match OD.get "tags" rec with
  | Some (PList l) => l
  | _ => []
  end.

Definition servers_of (rec : dict) : list pyval :=
  match OD.get "servers" rec with
  | Some (PList l) => l
  | _ => []
  end.

(** The test of the tags loop on a domain and a domain of a tag. *)
Definition tag_matches (domain tag_domain : string) : Prop :=
  domain = tag_domain
  \/ ((exists p, domain = (p ++ "." ++ tag_domain)%string)
      /\ ~ In tag_domain TAGS_NO_SUBDOMAINS).

(** The record [rec] of the input [site] has the tags the tags block gives
    it, after the tags the site came with. *)
Definition tagged (TAGS : list (string * list string)) (records : list pyval)
    (site : pyval) (rec : dict) : Prop :=
  exists domain d,
    site_domain site = Some (domain, d)
    /\ (forall tag domains tag_domain,
          In (tag, domains) TAGS -> In tag_domain domains ->
          tag_matches domain tag_domain -> In (PStr tag) (tags_of rec))
    /\ (forall v, merged_get "webmention_endpoints" records site = Some v ->
                  truthy v = true -> In (PStr "webmention") (tags_of rec))
    /\ (forall v, merged_get "micropub_endpoints" records site = Some v ->
                  truthy v = true -> In (PStr "micropub") (tags_of rec))
    /\ (forall l, merged_get "tags" records site = Some (PList l) ->
                  exists l', tags_of rec = (l ++ l')%list).

(** The record [rec] of the input [site], whose [servers] are a list when
    it has any, has every generator of the site among its servers, under
    the name [SERVERS] gives it, and among its tags when that name is in
    [SERVER_TAGS]. *)
Definition served (records : list pyval) (site : pyval) (rec : dict) : Prop :=
  forall k gens g,
    (forall v, merged_get "servers" records site = Some v -> exists l, v = PList l) ->
    k = "rel_generators" \/ k = "meta_generators" ->
    merged_get k records site = Some (PList gens) ->
    In (PStr g) gens ->
    In (PStr (OD.getd g g SERVERS)) (servers_of rec)
    /\ (mem_str (OD.getd g g SERVERS) SERVER_TAGS = true ->
        In (PStr (OD.getd g g SERVERS)) (tags_of rec)).

(** The three views the script computes from the contents of its input
    files: [sites = inputs[0]], [full] the list of [make_full] on all the
    inputs, [make_base(full)] and [make_internal(full, domains)] with the
    domains of [sites].  The script needs two input files at least.
    Reading the files and writing the views are left out. *)
Definition main_views (TAGS : list (string * list string))
    (json_loads : pyval -> option pyval) (dec_ln : Q -> Q)
    (inputs : list (list pyval)) : option (list dict * list dict * list dict) :=
  match inputs with
  | sites :: single_links :: extras =>
      match make_full TAGS json_loads dec_ln sites single_links extras with
      | None => None
      | Some full =>
          match make_base full with
          | None => None
          | Some base =>
              match mapM site_domain sites with
              | None => None
              | Some sds =>
                  match make_internal full (map fst sds) with
                  | None => None
                  | Some internal => Some (full, base, internal)
                  end
              end
          end
      end
  | _ => None
  end.

(** A link without [to_domain], a record without [domain] and a link of a
    class that has no weight. *)
Definition ex_no_target : dict := [ ("from_domain", PStr "a.com"); ("num", PInt 1) ].

Definition ex_no_domain : dict := [ ("title", PStr "nameless") ].

Definition ex_rsvp : link_event :=
  {| from_domain := "a.com"; to_domain := "b.com"; num := 2; mf2_class := "rsvp" |}.

(** The edges of [a.com] in the links with tied scores, their raw scores
    and their normalized scores. *)
Definition ex_edges : edges_t :=
  Eval vm_compute in OD.getd [] "a.com" (links_of (aggregate ex_tied_events)).

Definition ex_raws : list Q :=
  Eval vm_compute in match raw_scores ex_edges with Some r => r | None => [] end.

Definition ex_scored : list (string * scored) :=
  Eval vm_compute in
    match score_domain dec_ln_ref ex_edges with Some s => s | None => [] end.

Definition ex_stats : stats_t :=
  [ ("out", [ ("other", 50); ("in-reply-to", 7) ]); ("in", [ ("like-of", 3) ]) ].

(** A site without [links] in a hand-made full view. *)
Definition ex_bare : dict := [ ("domain", PStr "a.com"); ("title", PStr "bare") ].

(** A run of the script on one site and the mixed links. *)
Definition ex_inputs : list (list pyval) := [ [ex_site "b.com"]; ex_mixed ].

Definition ex_mixed_full : list dict :=
  Eval vm_compute in
    match ex_make_full [ex_site "b.com"] ex_mixed [] with
    | Some f => f
    | None => []
    end.

(** [rec['links'][b][dir][c]] of a record, 0 where a key is missing. *)
Definition py_count (rec : dict) (b dir c : string) : Z :=
  match OD.get "links" rec with
  | Some (PDict l) =>
      match OD.get b l with
      | Some (PDict stats) =>
          match OD.get dir stats with
          | Some (PDict counts) =>
              match OD.get c counts with
              | Some (PInt n) => n
              | _ => 0
              end
          | _ => 0
          end
      | _ => 0
      end
  | _ => 0
  end.

(** [b in rec['links']] *)
Definition py_linked (rec : dict) (b : string) : Prop :=
  exists l v, OD.get "links" rec = Some (PDict l) /\ OD.get b l = Some v.

(** * Properties *)

(** ** Dictionaries *)

Module ODFacts.
Section Facts.
Context {V : Type}.
Implicit Types (d e : list (string * V)) (k : string) (v : V).

Lemma get_set_eq k v d : OD.get k (OD.set k v d) = Some v.
Proof.
  induction d as [|[k' v'] r IH]; simpl.
  - now rewrite String.eqb_refl.
  - destruct (String.eqb k k') eqn:E; simpl; rewrite ?E, ?String.eqb_refl; auto.
Qed.

Lemma get_set_neq k k' v d : k <> k' -> OD.get k (OD.set k' v d) = OD.get k d.
Proof.
  intros Hne. induction d as [|[k2 v2] r IH]; simpl.
  - apply String.eqb_neq in Hne. now rewrite Hne.
  - destruct (String.eqb k' k2) eqn:E; simpl.
    + apply String.eqb_eq in E. subst k2.
      apply String.eqb_neq in Hne. now rewrite Hne.
    + now rewrite IH.
Qed.

Lemma get_remove_eq k d : OD.get k (OD.remove k d) = None.
Proof.
  unfold OD.remove. induction d as [|[k' v'] r IH]; simpl; auto.
  destruct (String.eqb k k') eqn:E; simpl; rewrite ?E; auto.
Qed.

Lemma get_remove_neq k k' d : k <> k' -> OD.get k (OD.remove k' d) = OD.get k d.
Proof.
  intros Hne. unfold OD.remove. induction d as [|[k2 v2] r IH]; simpl; auto.
  destruct (String.eqb k' k2) eqn:E; simpl.
  - apply String.eqb_eq in E. subst k2.
    apply String.eqb_neq in Hne. now rewrite Hne.
  - now rewrite IH.
Qed.

Lemma getd_set_eq dflt k v d : OD.getd dflt k (OD.set k v d) = v.
Proof. unfold OD.getd. now rewrite get_set_eq. Qed.

Lemma getd_set_neq dflt k k' v d :
  k <> k' -> OD.getd dflt k (OD.set k' v d) = OD.getd dflt k d.
Proof. intros. unfold OD.getd. now rewrite get_set_neq. Qed.

Lemma getd_upd_eq dflt k f d :
  OD.getd dflt k (OD.upd dflt k f d) = f (OD.getd dflt k d).
Proof. unfold OD.upd. apply getd_set_eq. Qed.

Lemma getd_upd_neq dflt k k' f d :
  k <> k' -> OD.getd dflt k (OD.upd dflt k' f d) = OD.getd dflt k d.
Proof. intros. unfold OD.upd. now apply getd_set_neq. Qed.

Lemma getd_upd dflt k k' f d :
  OD.getd dflt k (OD.upd dflt k' f d)
  = if String.eqb k' k then f (OD.getd dflt k d) else OD.getd dflt k d.
Proof.
  destruct (String.eqb_spec k' k) as [->|Hne].
  - apply getd_upd_eq.
  - apply getd_upd_neq. congruence.
Qed.

Lemma get_update k d e :
  OD.get k (OD.update d e)
  = match OD.get k e with Some v => Some v | None => OD.get k d end.
Proof.
  unfold OD.update.
  set (g := fun key (dv : V) => OD.getd dv key e).
  assert (Hg : forall key dv v, OD.get key e = Some v -> g key dv = v).
  { intros key dv v H. unfold g, OD.getd. now rewrite H. }
  assert (Hin : forall key dv, In (key, dv) e -> exists v, OD.get key e = Some v).
  { clear. intros key dv. induction e as [|[k' v'] r IH]; simpl; [tauto|].
    intros [H|H].
    - inversion H; subst. rewrite String.eqb_refl. eauto.
    - destruct (String.eqb key k'); eauto. }
  change (fun acc kv => OD.set (fst kv) (OD.getd (snd kv) (fst kv) e) acc)
    with (fun acc (kv : string * V) => OD.set (fst kv) (g (fst kv) (snd kv)) acc).
  clearbody g.
  assert (H : forall l d0,
             (forall key dv, In (key, dv) l -> In (key, dv) e) ->
             OD.get k (fold_left (fun acc (kv : string * V) =>
                                    OD.set (fst kv) (g (fst kv) (snd kv)) acc) l d0)
             = if existsb (fun kv => String.eqb k (fst kv)) l
               then OD.get k e else OD.get k d0).
  { induction l as [|[k' v'] r IH]; intros d0 Hsub; simpl; auto.
    rewrite IH by (intros; apply Hsub; now right).
    destruct (existsb (fun kv => String.eqb k (fst kv)) r);
      [now rewrite orb_true_r|rewrite orb_false_r].
    destruct (String.eqb_spec k k') as [->|Hne].
    - rewrite get_set_eq.
      destruct (Hin k' v') as [v Hv]; [apply Hsub; now left|].
      rewrite Hv. f_equal. now apply Hg.
    - now apply get_set_neq. }
  rewrite H by auto.
  clear. induction e as [|[k' v'] r IH]; simpl; auto.
  destruct (String.eqb k k'); simpl; auto.
Qed.

(** A weighted sum over the values changes by the weight of the changed
    entry only. *)
Lemma sum_set (w : V -> Z) dflt k v d :
  w dflt = 0 ->
  fold_right (fun kv acc => w (snd kv) + acc) 0 (OD.set k v d)
  = fold_right (fun kv acc => w (snd kv) + acc) 0 d
    - w (OD.getd dflt k d) + w v.
Proof.
  intros Hd. unfold OD.getd.
  induction d as [|[k' v'] r IH]; simpl.
  - lia.
  - destruct (String.eqb k k') eqn:E; simpl; [lia|]. rewrite IH. lia.
Qed.

End Facts.
End ODFacts.

(** ** Aggregation *)

Section Aggregation.
Import ODFacts.

Lemma count_bump a b dir c n links a' b' dir' c' :
  count (bump a b dir c n links) a' b' dir' c'
  = count links a' b' dir' c'
    + (if (String.eqb a a' && String.eqb b b' && String.eqb dir dir'
           && String.eqb c c')%bool then n else 0).
Proof.
  unfold count, bump.
  rewrite getd_upd.
  destruct (String.eqb_spec a a') as [->|]; simpl; [|now rewrite Z.add_0_r].
  rewrite getd_upd.
  destruct (String.eqb_spec b b') as [->|]; simpl; [|now rewrite Z.add_0_r].
  rewrite getd_upd.
  destruct (String.eqb_spec dir dir') as [->|]; simpl; [|now rewrite Z.add_0_r].
  rewrite getd_upd.
  destruct (String.eqb_spec c c') as [->|]; simpl; [|now rewrite Z.add_0_r].
  reflexivity.
Qed.

Lemma count_agg_step st e a b dir c :
  count (links_of (agg_step st e)) a b dir c
  = count (links_of st) a b dir c
    + (if (String.eqb (from_domain e) a && String.eqb (to_domain e) b
           && String.eqb "out" dir && String.eqb (mf2_class e) c)%bool
       then num e else 0)
    + (if (String.eqb (to_domain e) a && String.eqb (from_domain e) b
           && String.eqb "in" dir && String.eqb (mf2_class e) c)%bool
       then num e else 0).
Proof. unfold agg_step; simpl. now rewrite !count_bump. Qed.

Lemma symmetric_step st e :
  symmetric (links_of st) -> symmetric (links_of (agg_step st e)).
Proof.
  intros H a b c. rewrite !count_agg_step, H. simpl.
  rewrite !andb_false_r. simpl.
  destruct (String.eqb (from_domain e) a), (String.eqb (to_domain e) b);
    simpl; lia.
Qed.

Lemma fold_invariant (P : agg_state -> Prop) :
  (forall st e, P st -> P (agg_step st e)) ->
  forall events st, P st -> P (fold_left agg_step events st).
Proof.
  intros Hstep events. induction events as [|e r IH]; intros st H; simpl; auto.
Qed.

Lemma aggregate_symmetric events : symmetric (links_of (aggregate events)).
Proof.
  unfold aggregate.
  apply (fold_invariant (fun st => symmetric (links_of st))).
  - apply symmetric_step.
  - intros a b c. reflexivity.
Qed.
End Aggregation.

Section Conservation.
Import ODFacts.

Lemma sum_counts_upd c n counts :
  sum_counts (OD.upd 0 c (fun x => x + n) counts) = sum_counts counts + n.
Proof.
  unfold sum_counts, OD.upd.
  rewrite (sum_set (fun x => x) 0) by reflexivity. lia.
Qed.

Lemma dir_sum_upd dir dir' c n (stats : stats_t) :
  sum_counts (OD.getd [] dir' (OD.upd [] dir (OD.upd 0 c (fun x => x + n)) stats))
  = sum_counts (OD.getd [] dir' stats)
    + (if String.eqb dir dir' then n else 0).
Proof.
  rewrite getd_upd. destruct (String.eqb dir dir').
  - apply sum_counts_upd.
  - now rewrite Z.add_0_r.
Qed.

Lemma dir_total_upd dir dir' b c n (edges : edges_t) :
  dir_total dir' (OD.upd [] b (OD.upd [] dir (OD.upd 0 c (fun x => x + n))) edges)
  = dir_total dir' edges + (if String.eqb dir dir' then n else 0).
Proof.
  unfold dir_total, OD.upd at 1.
  rewrite (sum_set (fun s => sum_counts (OD.getd [] dir' s)) []) by reflexivity.
  rewrite dir_sum_upd. lia.
Qed.

Lemma dir_total_bump a b dir c n links d dir' :
  dir_total dir' (OD.getd [] d (bump a b dir c n links))
  = dir_total dir' (OD.getd [] d links)
    + (if (String.eqb a d && String.eqb dir dir')%bool then n else 0).
Proof.
  unfold bump. rewrite getd_upd. destruct (String.eqb a d); simpl.
  - apply dir_total_upd.
  - now rewrite Z.add_0_r.
Qed.

Lemma conserved_step st e : conserved st -> conserved (agg_step st e).
Proof.
  intros H d. destruct (H d) as [Ho Hi].
  unfold agg_step; simpl.
  rewrite !dir_total_bump, !getd_upd, <- Ho, <- Hi. simpl.
  rewrite !andb_false_r, !andb_true_r.
  destruct (String.eqb (from_domain e) d), (String.eqb (to_domain e) d);
    split; lia.
Qed.

Lemma aggregate_conserved events : conserved (aggregate events).
Proof.
  unfold aggregate. apply fold_invariant.
  - apply conserved_step.
  - intros d. split; reflexivity.
Qed.
End Conservation.

(** ** Sequences of fallible steps *)

Section MapM.
Context {A B : Type} (f : A -> option B).

Lemma mapM_Forall2 l l' :
  mapM f l = Some l' -> Forall2 (fun x y => f x = Some y) l l'.
Proof.
  revert l'. induction l as [|x r IH]; simpl; intros l' H.
  - inversion H. constructor.
  - destruct (f x) eqn:Ex; [|discriminate].
    destruct (mapM f r) eqn:Er; [|discriminate].
    inversion H; subst. constructor; auto.
Qed.

Lemma mapM_In l l' y :
  mapM f l = Some l' -> In y l' -> exists x, In x l /\ f x = Some y.
Proof.
  intros H. apply mapM_Forall2 in H.
  induction H as [|x y' r r' Hxy _ IH]; simpl; [tauto|].
  intros [->|Hin]; [eauto|]. destruct (IH Hin) as [x' [? ?]]. eauto.
Qed.

Lemma mapM_None l x : In x l -> f x = None -> mapM f l = None.
Proof.
  induction l as [|x' r IH]; simpl; [tauto|].
  intros [->|Hin] Hx.
  - now rewrite Hx.
  - destruct (f x'); auto. now rewrite IH.
Qed.

Lemma mapM_total l :
  (forall x, In x l -> exists y, f x = Some y) -> exists l', mapM f l = Some l'.
Proof.
  induction l as [|x r IH]; simpl; intros H; [eauto|].
  destruct (H x) as [y Hy]; auto. rewrite Hy.
  destruct IH as [l' Hl']; auto. rewrite Hl'. eauto.
Qed.

Lemma mapM_length l l' : mapM f l = Some l' -> List.length l' = List.length l.
Proof.
  intros H. apply mapM_Forall2 in H. symmetry. eapply Forall2_length; eauto.
Qed.
End MapM.

Lemma filterM_spec {A : Type} (f : A -> option bool) (g : A -> bool) l :
  (forall x, In x l -> f x = Some (g x)) -> filterM f l = Some (filter g l).
Proof.
  induction l as [|x r IH]; simpl; intros H; auto.
  rewrite (H x) by auto. rewrite IH by auto. now destruct (g x).
Qed.

(** ** The order of the edges of a domain *)

Section FirstSeen.
Import ODFacts.

Lemma keys_set {V : Type} k (v : V) d :
  OD.keys (OD.set k v d) = set_add k (OD.keys d).
Proof.
  unfold set_add, OD.keys.
  induction d as [|[k' v'] r IH]; simpl; auto.
  destruct (String.eqb k k') eqn:E; simpl.
  - apply String.eqb_eq in E. now subst.
  - rewrite IH. now destruct (existsb (String.eqb k) (map fst r)).
Qed.

Lemma keys_bump a b dir c n links d :
  OD.keys (OD.getd [] d (bump a b dir c n links))
  = if String.eqb a d then set_add b (OD.keys (OD.getd [] d links))
    else OD.keys (OD.getd [] d links).
Proof.
  unfold bump. rewrite getd_upd. destruct (String.eqb a d); auto.
  unfold OD.upd at 1. apply keys_set.
Qed.

Lemma keys_agg_step st e d :
  OD.keys (OD.getd [] d (links_of (agg_step st e)))
  = see d (OD.keys (OD.getd [] d (links_of st))) e.
Proof. unfold agg_step, see; simpl. now rewrite !keys_bump. Qed.

Lemma keys_fold events : forall st d,
  OD.keys (OD.getd [] d (links_of (fold_left agg_step events st)))
  = fold_left (see d) events (OD.keys (OD.getd [] d (links_of st))).
Proof.
  induction events as [|e r IH]; intros st d; simpl; auto.
  now rewrite IH, keys_agg_step.
Qed.

(** The edges of a domain stand in the order in which the events first
    show their other end. *)
Lemma keys_aggregate events d :
  OD.keys (OD.getd [] d (links_of (aggregate events))) = first_seen d events.
Proof. unfold aggregate, first_seen. now rewrite keys_fold. Qed.

Lemma existsb_eqb_In x s : existsb (String.eqb x) s = true <-> In x s.
Proof.
  rewrite existsb_exists. split.
  - intros [y [Hy E]]. apply String.eqb_eq in E. now subst.
  - intros H. exists x. split; auto. apply String.eqb_refl.
Qed.

Lemma NoDup_set_add x s : NoDup s -> NoDup (set_add x s).
Proof.
  intros H. unfold set_add. destruct (existsb (String.eqb x) s) eqn:E; auto.
  apply NoDup_app; auto.
  - repeat constructor. simpl. tauto.
  - intros y Hy [<-|[]]. apply existsb_eqb_In in Hy. congruence.
Qed.

Lemma NoDup_first_seen d events : NoDup (first_seen d events).
Proof.
  unfold first_seen.
  assert (H : forall l seen, NoDup seen -> NoDup (fold_left (see d) l seen)).
  { induction l as [|e r IH]; intros seen Hs; simpl; auto.
    apply IH. unfold see.
    destruct (String.eqb (from_domain e) d), (String.eqb (to_domain e) d);
      auto using NoDup_set_add. }
  apply H. constructor.
Qed.
End FirstSeen.

(** ** The stable sort by descending score *)

Lemma Qltb_lt x y : Qltb x y = true <-> (x < y)%Q.
Proof.
  unfold Qltb. rewrite negb_true_iff. split.
  - intros H. apply Qnot_le_lt. intros Hle.
    apply Qle_bool_iff in Hle. congruence.
  - intros H. destruct (Qle_bool y x) eqn:E; auto.
    apply Qle_bool_iff in E. exfalso. eapply Qlt_not_le; eauto.
Qed.

Lemma Qltb_ge x y : Qltb x y = false <-> (y <= x)%Q.
Proof.
  unfold Qltb. rewrite negb_false_iff. apply Qle_bool_iff.
Qed.

Lemma StronglySorted_impl_In {A : Type} (R R' : A -> A -> Prop) l :
  (forall x y, In x l -> In y l -> R x y -> R' x y) ->
  StronglySorted R l -> StronglySorted R' l.
Proof.
  induction l as [|x r IH]; intros Himp H; constructor;
    apply StronglySorted_inv in H; destruct H as [Hr Hx].
  - apply IH; auto. intros; apply Himp; simpl; auto.
  - rewrite Forall_forall in *. intros y Hy. apply Himp; simpl; auto.
Qed.

Lemma StronglySorted_map {A B : Type} (f : A -> B) (R : B -> B -> Prop) l :
  StronglySorted (fun x y => R (f x) (f y)) l -> StronglySorted R (map f l).
Proof.
  induction 1 as [|x r Hr IH Hx]; simpl; constructor; auto.
  rewrite Forall_forall in *. intros y Hy.
  apply in_map_iff in Hy. destruct Hy as [z [<- Hz]]. auto.
Qed.

Lemma StronglySorted_filter {A : Type} (R : A -> A -> Prop) (p : A -> bool) l :
  StronglySorted R l -> StronglySorted R (filter p l).
Proof.
  induction 1 as [|x r Hr IH Hx]; simpl; [constructor|].
  destruct (p x); auto. constructor; auto.
  rewrite Forall_forall in *. intros y Hy. apply filter_In in Hy. apply Hx, Hy.
Qed.

Lemma StronglySorted_firstn {A : Type} (R : A -> A -> Prop) n l :
  StronglySorted R l -> StronglySorted R (firstn n l).
Proof.
  intros H. revert n. induction H as [|x r Hr IH Hx]; intros [|n]; simpl;
    try constructor; auto.
  rewrite Forall_forall in *. intros y Hy. apply Hx.
  rewrite <- (firstn_skipn n r). apply in_or_app. now left.
Qed.

Section StableSort.
Context {A : Type} (key : A -> Q) (pos : A -> nat).

Lemma insert_desc_In x l z : In z (insert_desc key x l) <-> z = x \/ In z l.
Proof.
  induction l as [|y r IH]; simpl.
  - intuition.
  - destruct (Qltb (key x) (key y)); simpl; rewrite ?IH; intuition.
Qed.

Lemma sorted_desc_In l z : In z (sorted_desc key l) <-> In z l.
Proof.
  induction l as [|x r IH]; simpl; [tauto|].
  rewrite insert_desc_In, IH. intuition.
Qed.

Lemma before_le y z : before key pos y z -> (key z <= key y)%Q.
Proof.
  intros [H|[H _]].
  - now apply Qlt_le_weak.
  - rewrite H. apply Qle_refl.
Qed.

Lemma insert_desc_sorted x l :
  StronglySorted (before key pos) l ->
  (forall y, In y l -> (pos x < pos y)%nat) ->
  StronglySorted (before key pos) (insert_desc key x l).
Proof.
  induction 1 as [|y r Hr IH Hy]; intros Hpos; simpl.
  - repeat constructor.
  - destruct (Qltb (key x) (key y)) eqn:E.
    + apply Qltb_lt in E. constructor.
      * apply IH. intros; apply Hpos; simpl; auto.
      * rewrite Forall_forall in *. intros z Hz.
        apply insert_desc_In in Hz. destruct Hz as [->|Hz]; auto.
        now left.
    + apply Qltb_ge in E. constructor; [constructor; auto|].
      rewrite Forall_forall in *. intros z Hz.
      assert (Hle : (key z <= key x)%Q).
      { destruct Hz as [<-|Hz]; auto.
        eapply Qle_trans; [apply before_le, Hy, Hz|exact E]. }
      apply Qle_lt_or_eq in Hle. destruct Hle as [Hlt|Heq].
      * now left.
      * right. split; [now symmetry|]. now apply Hpos.
Qed.

(** Sorting a list whose items stand in the order of their positions
    yields descending keys, with equal keys in the order of the positions. *)
Lemma sorted_desc_sorted l :
  StronglySorted (fun x y => (pos x < pos y)%nat) l ->
  StronglySorted (before key pos) (sorted_desc key l).
Proof.
  induction 1 as [|x r Hr IH Hx]; simpl; [constructor|].
  apply insert_desc_sorted; auto.
  rewrite Forall_forall in Hx. intros y Hy. apply Hx.
  now apply sorted_desc_In.
Qed.
End StableSort.

Lemma index_of_increasing {V : Type} (l : list (string * V)) :
  NoDup (map fst l) ->
  StronglySorted
    (fun x y => (index_of (fst x) (map fst l) < index_of (fst y) (map fst l))%nat) l.
Proof.
  induction l as [|[k v] r IH]; simpl; intros Hnd; constructor.
  - inversion Hnd as [|? ? Hk Hr]; subst.
    eapply StronglySorted_impl_In; [|apply IH, Hr].
    intros [k1 v1] [k2 v2] H1 H2; simpl.
    assert (k1 <> k) by (intros ->; apply Hk, in_map_iff; exists (k, v1); auto).
    assert (k2 <> k) by (intros ->; apply Hk, in_map_iff; exists (k, v2); auto).
    destruct (String.eqb_spec k1 k), (String.eqb_spec k2 k); try congruence. lia.
  - inversion Hnd as [|? ? Hk Hr]; subst.
    rewrite Forall_forall. intros [k2 v2] H2; simpl.
    rewrite String.eqb_refl.
    destruct (String.eqb_spec k2 k) as [->|]; [|lia].
    exfalso. apply Hk, in_map_iff. exists (k, v2); auto.
Qed.

(** ** Scoring keeps the edges and their order *)

Section ScoringFacts.
Import ODFacts.
Variable dec_ln : Q -> Q.

Lemma map_fst_combine {A B : Type} (l : list A) (l' : list B) :
  List.length l' = List.length l -> map fst (combine l l') = l.
Proof.
  revert l'. induction l as [|x r IH]; intros [|y r']; simpl; intros H;
    try discriminate; auto. f_equal. apply IH. congruence.
Qed.

Lemma score_domain_keys edges sc :
  score_domain dec_ln edges = Some sc -> map fst sc = map fst edges.
Proof.
  unfold score_domain, raw_scores.
  destruct (mapM _ edges) as [raws|] eqn:Er; [|discriminate].
  destruct (max_score raws); [|discriminate].
  intros H. inversion H; subst; clear H.
  rewrite map_map. simpl.
  rewrite <- (map_map fst fst). f_equal.
  apply map_fst_combine. eapply mapM_length; eauto.
Qed.

Lemma score_graph_get links sl d :
  score_graph dec_ln links = Some sl ->
  match OD.get d links with
  | None => OD.get d sl = None
  | Some edges =>
      exists sc, score_domain dec_ln edges = Some sc /\ OD.get d sl = Some sc
  end.
Proof.
  unfold score_graph. revert sl.
  induction links as [|[k edges] r IH]; simpl; intros sl H.
  - inversion H. reflexivity.
  - destruct (score_domain dec_ln edges) as [sc|] eqn:Es; [|discriminate].
    simpl in H.
    destruct (mapM _ r) as [sr|] eqn:Er; [|discriminate].
    inversion H; subst; clear H. simpl.
    destruct (String.eqb d k); [eauto|]. now apply IH.
Qed.

Lemma score_graph_keys links sl d :
  score_graph dec_ln links = Some sl ->
  map fst (OD.getd [] d sl) = OD.keys (OD.getd [] d links).
Proof.
  intros H. apply (score_graph_get _ _ d) in H. unfold OD.getd, OD.keys.
  destruct (OD.get d links) as [edges|].
  - destruct H as [sc [Hs ->]]. eapply score_domain_keys; eauto.
  - rewrite H. reflexivity.
Qed.

Lemma link_score_stats s : link_score (stats_to_py s) = score_of s.
Proof. unfold link_score, stats_to_py. now rewrite get_set_eq. Qed.

Lemma sorted_links_ordered (dl : list (string * scored)) :
  NoDup (map fst dl) ->
  exists l, sorted_links dl = PDict l /\ links_ordered (map fst dl) l.
Proof.
  intros Hnd. unfold sorted_links. eexists. split; [reflexivity|].
  unfold links_ordered, link_before. apply StronglySorted_map.
  eapply StronglySorted_impl_In;
    [|apply (sorted_desc_sorted (fun ks => score_of (snd ks))
               (fun ks => index_of (fst ks) (map fst dl))),
        index_of_increasing, Hnd].
  intros x y _ _ H. unfold before in *. cbn [fst snd] in *.
  now rewrite !link_score_stats.
Qed.
End ScoringFacts.

(** ** The steps of the assembly and the fields they touch *)

Section AssemblyFacts.
Import ODFacts.
Variable TAGS : list (string * list string).
Variable json_loads : pyval -> option pyval.

Lemma get_setdefault_neq {V : Type} k k' (v : V) d :
  k <> k' -> OD.get k (OD.setdefault k' v d) = OD.get k d.
Proof.
  intros H. unfold OD.setdefault. destruct (OD.mem k' d); auto.
  now apply get_set_neq.
Qed.

Lemma coerce_num_pages_get site site' k :
  coerce_num_pages site = Some site' -> k <> "num_pages" ->
  OD.get k site' = OD.get k site.
Proof.
  unfold coerce_num_pages. intros H Hk.
  destruct (truthy _); [|now inversion H].
  destruct (py_int _); [|discriminate]. inversion H; subst.
  now apply get_set_neq.
Qed.

Lemma append_tags_get new site site' k :
  append_tags new site = Some site' -> k <> "tags" ->
  OD.get k site' = OD.get k site.
Proof.
  unfold append_tags. intros H Hk.
  destruct new; [now inversion H|].
  destruct (OD.getd _ _ site); try discriminate.
  inversion H; subst. now apply get_set_neq.
Qed.

Lemma infer_tags_get domain site site' k :
  infer_tags TAGS domain site = Some site' -> k <> "tags" ->
  OD.get k site' = OD.get k site.
Proof.
  unfold infer_tags. intros H Hk.
  erewrite append_tags_get by eauto. now apply get_setdefault_neq.
Qed.

Lemma add_server_get gens : forall acc site' k,
  fold_left add_server gens acc = Some site' -> k <> "servers" ->
  exists site, acc = Some site /\ OD.get k site' = OD.get k site.
Proof.
  induction gens as [|g r IH]; simpl; intros acc site' k H Hk.
  - eauto.
  - destruct (IH _ _ _ H Hk) as [s1 [Hs1 Hg]].
    destruct acc as [site|]; [|discriminate]. exists site. split; auto.
    rewrite Hg. simpl in Hs1.
    destruct g; try discriminate.
    destruct (OD.getd _ _ site); try discriminate.
    destruct (existsb _ _); inversion Hs1; subst; auto.
    now apply get_set_neq.
Qed.

Lemma infer_servers_get site site' k :
  infer_servers site = Some site' ->
  k <> "rel_generators" -> k <> "meta_generators" ->
  k <> "servers" -> k <> "tags" ->
  OD.get k site' = OD.get k site.
Proof.
  unfold infer_servers. intros H H1 H2 H3 H4.
  destruct (pop_list "rel_generators" site) as [rel|]; [|discriminate].
  destruct (pop_list "meta_generators" _) as [meta|]; [|discriminate].
  destruct (fold_left add_server _ _) as [s1|] eqn:Ef; [|discriminate].
  destruct (add_server_get _ _ _ k Ef H3) as [s0 [Hs0 Hg]].
  inversion Hs0; subst; clear Hs0.
  rewrite !get_remove_neq in Hg by auto.
  rewrite <- Hg.
  destruct (OD.getd _ "servers" s1); try discriminate.
  - now inversion H.
  - destruct (server_tags _); [|discriminate]. eapply append_tags_get; eauto.
  - destruct (server_tags _); [|discriminate]. eapply append_tags_get; eauto.
Qed.

Lemma crawl_times_get site site' k :
  crawl_times site = Some site' ->
  k <> "fetch_time" -> k <> "crawl_start" -> k <> "crawl_end" ->
  OD.get k site' = OD.get k site.
Proof.
  unfold crawl_times. intros H H1 H2 H3.
  destruct (andb _ _).
  - destruct (convert _); [|discriminate].
    destruct (convert _); [|discriminate]. inversion H; subst.
    now rewrite !get_set_neq, get_remove_neq by auto.
  - destruct (truthy _); inversion H; subst.
    + now rewrite !get_set_neq, get_remove_neq by auto.
    + now rewrite get_remove_neq by auto.
Qed.

(** The record after the last [site.update]. *)
Lemma get_final_update (site : dict) h lo li ls k :
  OD.get k (OD.update site
              [("hcard", h); ("links_out", lo); ("links_in", li); ("links", ls)])
  = if String.eqb k "hcard" then Some h
    else if String.eqb k "links_out" then Some lo
    else if String.eqb k "links_in" then Some li
    else if String.eqb k "links" then Some ls
    else OD.get k site.
Proof.
  rewrite get_update. simpl.
  destruct (String.eqb k "hcard"); auto.
  destruct (String.eqb k "links_out"); auto.
  destruct (String.eqb k "links_in"); auto.
  destruct (String.eqb k "links"); auto.
Qed.

(** The steps [emit_site] went through when it produced a record. *)
Lemma emit_site_inv st links all_extra site rec :
  emit_site TAGS json_loads st links all_extra site = Some rec ->
  exists domain d d1 d2 d3 d4 h,
    site_domain site = Some (domain, d)
    /\ coerce_num_pages
         (OD.remove "html" (OD.remove "mf2" (merge_extra all_extra domain d)))
       = Some d1
    /\ infer_tags TAGS domain d1 = Some d2
    /\ infer_servers d2 = Some d3
    /\ crawl_times d3 = Some d4
    /\ load_hcard json_loads d4 = Some h
    /\ rec = OD.update d4
               [ ("hcard", h);
                 ("links_out", PInt (OD.getd 0 domain (out_counts_of st)));
                 ("links_in", PInt (OD.getd 0 domain (in_counts_of st)));
                 ("links", sorted_links (OD.getd [] domain links)) ].
Proof.
  unfold emit_site. intros H.
  destruct (site_domain site) as [[domain d]|]; [|discriminate].
  destruct (coerce_num_pages _) as [d1|] eqn:E1; [|discriminate].
  destruct (infer_tags _ _ d1) as [d2|] eqn:E2; [|discriminate].
  destruct (infer_servers d2) as [d3|] eqn:E3; [|discriminate].
  destruct (crawl_times d3) as [d4|] eqn:E4; [|discriminate].
  destruct (load_hcard _ d4) as [h|] eqn:E5; [|discriminate].
  inversion H; subst. exists domain, d, d1, d2, d3, d4, h. tauto.
Qed.
End AssemblyFacts.

(** ** Records of the full view *)

Section FullFacts.
Import ODFacts.
Variable TAGS : list (string * list string).
Variable json_loads : pyval -> option pyval.
Variable dec_ln : Q -> Q.

Lemma site_domain_inv site domain d :
  site_domain site = Some (domain, d) ->
  site = PDict d /\ OD.get "domain" d = Some (PStr domain).
Proof.
  unfold site_domain. destruct site; try discriminate.
  destruct (OD.get "domain" d0) as [[]|] eqn:E; try discriminate.
  intros H. inversion H; subst. auto.
Qed.

Lemma collect_extra_keyed extras all_extra :
  collect_extra extras = Some all_extra -> extra_keyed all_extra.
Proof.
  unfold collect_extra.
  assert (H : forall l acc ae,
             fold_left
               (fun acc site =>
                  match acc, site_domain site with
                  | Some a, Some (dom, d) =>
                      Some (OD.upd [] dom (fun e => OD.update e d) a)
                  | _, _ => None
                  end) l acc = Some ae ->
             exists a0, acc = Some a0 /\ (extra_keyed a0 -> extra_keyed ae)).
  { induction l as [|site r IH]; simpl; intros acc ae H.
    - eauto.
    - destruct (IH _ _ H) as [a1 [Ha1 Himp]].
      destruct acc as [a0|]; [|discriminate].
      destruct (site_domain site) as [[dom d]|] eqn:Es; [|discriminate].
      inversion Ha1; subst; clear Ha1.
      exists a0. split; auto. intros Ha0. apply Himp.
      intros dom' v. rewrite getd_upd.
      destruct (String.eqb_spec dom dom') as [->|Hne]; [|apply Ha0].
      rewrite get_update.
      apply site_domain_inv in Es. destruct Es as [_ Hd]. rewrite Hd.
      congruence. }
  intros Hc. destruct (H _ _ _ Hc) as [a0 [Ha0 Himp]].
  inversion Ha0; subst. apply Himp.
  intros dom v. unfold OD.getd. simpl. discriminate.
Qed.

Lemma merge_domain all_extra domain d :
  extra_keyed all_extra ->
  OD.get "domain" d = Some (PStr domain) ->
  OD.get "domain" (merge_extra all_extra domain d) = Some (PStr domain).
Proof.
  intros Hk Hd. unfold merge_extra. rewrite get_update.
  destruct (OD.get "domain" (OD.getd [] domain all_extra)) eqn:E; auto.
  now rewrite (Hk _ _ E).
Qed.

Lemma not_handled k :
  ~ In k handled_keys ->
  k <> "mf2" /\ k <> "html" /\ k <> "num_pages" /\ k <> "tags"
  /\ k <> "rel_generators" /\ k <> "meta_generators" /\ k <> "servers"
  /\ k <> "fetch_time" /\ k <> "crawl_start" /\ k <> "crawl_end"
  /\ k <> "hcard" /\ k <> "links_out" /\ k <> "links_in" /\ k <> "links".
Proof.
  intros H. repeat split; intros ->; apply H; simpl; tauto.
Qed.

(** A field that [make_full] does not handle reaches the record as the
    merged input has it. *)
Lemma emit_site_frame st links all_extra site rec :
  emit_site TAGS json_loads st links all_extra site = Some rec ->
  exists domain d,
    site_domain site = Some (domain, d)
    /\ forall k, ~ In k handled_keys ->
         OD.get k rec = OD.get k (merge_extra all_extra domain d).
Proof.
  intros H. apply emit_site_inv in H.
  destruct H as (domain & d & d1 & d2 & d3 & d4 & h & Hs & H1 & H2 & H3 & H4 & H5 & ->).
  exists domain, d. split; auto. intros k Hk.
  apply not_handled in Hk.
  destruct Hk as (? & ? & ? & ? & ? & ? & ? & ? & ? & ? & ? & ? & ? & ?).
  rewrite get_final_update.
  repeat match goal with
         | Hne : k <> ?s |- context [String.eqb k ?s] =>
             rewrite (proj2 (String.eqb_neq k s) Hne)
         end.
  rewrite (crawl_times_get _ _ k H4) by auto.
  rewrite (infer_servers_get _ _ k H3) by auto.
  rewrite (infer_tags_get TAGS _ _ _ k H2) by auto.
  rewrite (coerce_num_pages_get _ _ k H1) by auto.
  now rewrite !get_remove_neq by auto.
Qed.

Lemma crawl_times_fetch site site' :
  crawl_times site = Some site' -> OD.get "fetch_time" site' = None.
Proof.
  unfold crawl_times. intros H.
  destruct (andb _ _).
  - destruct (convert _); [|discriminate].
    destruct (convert _); [|discriminate]. inversion H; subst.
    rewrite !get_set_neq by discriminate. apply get_remove_eq.
  - destruct (truthy _); inversion H; subst.
    + rewrite !get_set_neq by discriminate. apply get_remove_eq.
    + apply get_remove_eq.
Qed.

(** The fields of a record of the full view that the properties read. *)
Lemma emit_site_fields st links all_extra site rec :
  extra_keyed all_extra ->
  emit_site TAGS json_loads st links all_extra site = Some rec ->
  exists domain,
    OD.get "domain" rec = Some (PStr domain)
    /\ OD.get "links" rec = Some (sorted_links (OD.getd [] domain links))
    /\ OD.get "links_out" rec = Some (PInt (OD.getd 0 domain (out_counts_of st)))
    /\ OD.get "links_in" rec = Some (PInt (OD.getd 0 domain (in_counts_of st)))
    /\ OD.get "fetch_time" rec = None.
Proof.
  intros Hk H.
  destruct (emit_site_frame _ _ _ _ _ H) as (domain & d & Hs & Hframe).
  exists domain. split.
  { rewrite Hframe by (simpl; intuition discriminate).
    apply merge_domain; auto. now apply site_domain_inv in Hs. }
  apply emit_site_inv in H.
  destruct H as (domain' & d' & d1 & d2 & d3 & d4 & h & Hs' & H1 & H2 & H3 & H4 & H5 & ->).
  rewrite Hs in Hs'. inversion Hs'; subst domain' d'.
  rewrite !get_final_update. simpl.
  repeat split; auto. eapply crawl_times_fetch; eauto.
Qed.

Lemma make_full_inv sites single_links extras full :
  make_full TAGS json_loads dec_ln sites single_links extras = Some full ->
  exists events links all_extra sds,
    mapM read_link single_links = Some events
    /\ score_graph dec_ln (links_of (aggregate events)) = Some links
    /\ collect_extra extras = Some all_extra
    /\ mapM site_domain sites = Some sds
    /\ mapM (emit_site TAGS json_loads (aggregate events) links all_extra)
            (sites ++ more_sites (from_domains_of (aggregate events)) (map fst sds))
       = Some full.
Proof.
  unfold make_full, load_links. intros H.
  destruct (mapM read_link single_links) as [events|]; [|discriminate].
  cbn [option_map] in H.
  destruct (score_graph _ _) as [links|] eqn:E1; [|discriminate].
  destruct (collect_extra extras) as [ae|] eqn:E2; [|discriminate].
  destruct (mapM site_domain sites) as [sds|] eqn:E3; [|discriminate].
  exists events, links, ae, sds. repeat split; auto.
Qed.
End FullFacts.

(** ** Records of the base and internal views *)

Section ViewFacts.
Import ODFacts.

Lemma base_site_get site b k :
  base_site site = Some b -> k <> "links" -> k <> "links_truncated" ->
  OD.get k b = OD.get k site.
Proof.
  unfold base_site. intros H H1 H2.
  destruct (OD.get "links" site) as [[]|]; try discriminate;
    destruct (Nat.ltb _ _); inversion H; subst; auto.
  now rewrite !get_set_neq by auto.
Qed.

(** What [make_base] does to the links of one record. *)
Lemma base_site_links site b l :
  OD.get "links" site = Some (PDict l) ->
  base_site site = Some b ->
  if Nat.ltb MAX_BASE_LINKS (List.length l)
  then OD.get "links" b = Some (PDict (firstn MAX_BASE_LINKS l))
       /\ OD.get "links_truncated" b = Some (PBool true)
  else b = site.
Proof.
  unfold base_site. intros -> H.
  destruct (Nat.ltb _ _); inversion H; subst; auto.
  split.
  - rewrite get_set_neq by discriminate. apply get_set_eq.
  - apply get_set_eq.
Qed.

Lemma base_site_links_inv site b l' :
  base_site site = Some b -> OD.get "links" b = Some (PDict l') ->
  exists l, OD.get "links" site = Some (PDict l).
Proof.
  unfold base_site. intros H Hb.
  destruct (OD.get "links" site) as [[]|] eqn:E; try discriminate; eauto;
    destruct (Nat.ltb _ _); inversion H; subst; congruence.
Qed.

Lemma internal_site_get domains site i k :
  internal_site domains site = Some i -> k <> "links" ->
  OD.get k i = OD.get k site.
Proof.
  unfold internal_site. intros H Hk.
  destruct (OD.getd _ _ site); inversion H; subst.
  now apply get_set_neq.
Qed.

Lemma internal_site_links domains site i :
  internal_site domains site = Some i ->
  exists l,
    OD.getd (PDict []) "links" site = PDict l
    /\ OD.get "links" i
       = Some (PDict (filter (fun kv => mem_str (fst kv) domains) l)).
Proof.
  unfold internal_site. intros H.
  destruct (OD.getd _ _ site) eqn:E; inversion H; subst.
  eexists. split; eauto. apply get_set_eq.
Qed.

Lemma filterM_In {A : Type} (f : A -> option bool) l l' x :
  filterM f l = Some l' -> In x l' -> In x l /\ f x = Some true.
Proof.
  revert l'. induction l as [|y r IH]; simpl; intros l' H Hin.
  - inversion H; subst. destruct Hin.
  - destruct (f y) as [b|] eqn:Ey; [|discriminate].
    destruct (filterM f r) as [ys|]; [|discriminate].
    inversion H; subst; clear H.
    destruct b.
    + destruct Hin as [<-|Hin]; auto. destruct (IH _ eq_refl Hin). auto.
    + destruct (IH _ eq_refl Hin). auto.
Qed.
End ViewFacts.

(** * The properties of the specification *)

Lemma load_links_inv links_in st :
  load_links links_in = Some st ->
  exists events, mapM read_link links_in = Some events /\ st = aggregate events.
Proof.
  unfold load_links. destruct (mapM read_link links_in) as [events|];
    [|discriminate].
  intros H. inversion H. eauto.
Qed.

(** C4. Symmetry: after the aggregation of any sequence of link events,
    for every pair of domains [a], [b] and every class [c], the count
    [graph[a][b].out[c]] equals the count [graph[b][a].in[c]]. *)
Theorem load_links_symmetric (links_in : list pyval) (st : agg_state) :
  load_links links_in = Some st ->
  forall a b c,
    count (links_of st) a b "out" c = count (links_of st) b a "in" c.
Proof.
  intros H. apply load_links_inv in H. destruct H as [events [_ ->]].
  apply aggregate_symmetric.
Qed.

Lemma load_links_symmetric_witness :
  load_links ex_links = Some (aggregate
    [ {| from_domain := "a.com"; to_domain := "b.com"; num := 3;
         mf2_class := "in-reply-to" |} ])
  /\ count (links_of (aggregate
       [ {| from_domain := "a.com"; to_domain := "b.com"; num := 3;
            mf2_class := "in-reply-to" |} ])) "a.com" "b.com" "out" "in-reply-to"
     = count (links_of (aggregate
       [ {| from_domain := "a.com"; to_domain := "b.com"; num := 3;
            mf2_class := "in-reply-to" |} ])) "b.com" "a.com" "in" "in-reply-to".
Proof.
  split; [reflexivity|].
  apply (load_links_symmetric ex_links). reflexivity.
Defined.

(** C5. Conservation: after the aggregation of any sequence of link
    events, for every domain [d], [links_out[d]] is the sum over the edges
    of [d] of their out counts, and [links_in[d]] the sum of their in
    counts. *)
Theorem load_links_conserved (links_in : list pyval) (st : agg_state) :
  load_links links_in = Some st ->
  forall d,
    OD.getd 0 d (out_counts_of st) = dir_total "out" (OD.getd [] d (links_of st))
    /\ OD.getd 0 d (in_counts_of st) = dir_total "in" (OD.getd [] d (links_of st)).
Proof.
  intros H. apply load_links_inv in H. destruct H as [events [_ ->]].
  apply aggregate_conserved.
Qed.

Lemma load_links_conserved_witness :
  exists st,
    load_links ex_tied = Some st
    /\ OD.getd 0 "a.com" (out_counts_of st) = 60
    /\ dir_total "out" (OD.getd [] "a.com" (links_of st)) = 60
    /\ OD.getd 0 "a.com" (in_counts_of st)
       = dir_total "in" (OD.getd [] "a.com" (links_of st)).
Proof.
  eexists. split; [reflexivity|].
  split; [reflexivity|]. split; [reflexivity|].
  apply (load_links_conserved ex_tied). reflexivity.
Defined.

Lemma Forall2_weaken_In {A B : Type} (P Q : A -> B -> Prop) l l' :
  (forall x y, In x l -> P x y -> Q x y) -> Forall2 P l l' -> Forall2 Q l l'.
Proof.
  intros H HF. induction HF as [|x y r r' Hxy _ IH]; constructor.
  - apply H; simpl; auto.
  - apply IH. intros; apply H; simpl; auto.
Qed.

Lemma Forall2_weaken {A B : Type} (P Q : A -> B -> Prop) l l' :
  (forall x y, P x y -> Q x y) -> Forall2 P l l' -> Forall2 Q l l'.
Proof. intros H. apply Forall2_weaken_In. auto. Qed.

Section Views.
Import ODFacts.
Variable TAGS : list (string * list string).
Variable json_loads : pyval -> option pyval.
Variable dec_ln : Q -> Q.

(** Every record of the full view has a string domain and a dict of
    links in the order of the sort. *)
Lemma full_record_ordered sites single_links extras events full rec :
  mapM read_link single_links = Some events ->
  make_full TAGS json_loads dec_ln sites single_links extras = Some full ->
  In rec full ->
  exists d l,
    OD.get "domain" rec = Some (PStr d)
    /\ OD.get "links" rec = Some (PDict l)
    /\ links_ordered (first_seen d events) l.
Proof.
  intros Hev Hfull Hin.
  apply make_full_inv in Hfull.
  destruct Hfull as (events' & links & ae & sds & He & Hs & Hc & _ & Hm).
  rewrite Hev in He. inversion He; subst events'; clear He.
  destruct (mapM_In _ _ _ _ Hm Hin) as [site [_ Hsite]].
  apply emit_site_fields in Hsite; [|eapply collect_extra_keyed; eauto].
  destruct Hsite as (d & Hd & Hl & _).
  assert (Hkeys : map fst (OD.getd [] d links) = first_seen d events).
  { erewrite score_graph_keys by eauto. apply keys_aggregate. }
  destruct (sorted_links_ordered (OD.getd [] d links)) as [l [El Ho]].
  { rewrite Hkeys. apply NoDup_first_seen. }
  exists d, l. rewrite Hl, El, <- Hkeys. auto.
Qed.

Lemma base_site_ordered events rec b :
  record_ordered events rec -> base_site rec = Some b -> record_ordered events b.
Proof.
  intros Hrec Hb d l' Hd Hl'.
  destruct (base_site_links_inv _ _ _ Hb Hl') as [l Hl].
  rewrite (base_site_get _ _ "domain" Hb) in Hd by discriminate.
  pose proof (Hrec d l Hd Hl) as Ho.
  pose proof (base_site_links _ _ _ Hl Hb) as Hcase.
  destruct (Nat.ltb _ _).
  - destruct Hcase as [Hcase _].
    assert (l' = firstn MAX_BASE_LINKS l) by congruence. subst l'.
    now apply StronglySorted_firstn.
  - subst b. congruence.
Qed.

Lemma internal_site_ordered events domains rec i :
  record_ordered events rec -> internal_site domains rec = Some i ->
  record_ordered events i.
Proof.
  intros Hrec Hi d l' Hd Hl'.
  rewrite (internal_site_get _ _ _ "domain" Hi) in Hd by discriminate.
  destruct (internal_site_links _ _ _ Hi) as [l [Hl Hfl]].
  assert (l' = filter (fun kv => mem_str (fst kv) domains) l) by congruence.
  subst l'. apply StronglySorted_filter.
  unfold OD.getd in Hl. destruct (OD.get "links" rec) as [v|] eqn:E.
  - subst v. now apply Hrec.
  - inversion Hl; subst. constructor.
Qed.

(** C6. In every output record of every view (full, base, internal) the
    links mapping is ordered by descending normalized score, and entries
    of equal score stand in the order in which the aggregation first saw
    their target for the domain of the record ([first_seen]), not in an
    order derived from the scores or from the names.  Every record of the
    full view has such a mapping. *)
Theorem links_ordered_in_every_view
    (sites single_links : list pyval) (extras : list (list pyval))
    (events : list link_event) (full : list dict) :
  mapM read_link single_links = Some events ->
  make_full TAGS json_loads dec_ln sites single_links extras = Some full ->
  (forall rec, In rec full ->
     exists d l,
       OD.get "domain" rec = Some (PStr d)
       /\ OD.get "links" rec = Some (PDict l)
       /\ links_ordered (first_seen d events) l)
  /\ (forall base rec,
        make_base full = Some base -> In rec base -> record_ordered events rec)
  /\ (forall domains internal rec,
        make_internal full domains = Some internal -> In rec internal ->
        record_ordered events rec).
Proof.
  intros Hev Hfull.
  assert (Hf : forall rec, In rec full -> record_ordered events rec).
  { intros rec Hin d l Hd Hl.
    destruct (full_record_ordered _ _ _ _ _ _ Hev Hfull Hin) as (d' & l' & Hd' & Hl' & Ho).
    congruence. }
  split; [intros rec Hin; eapply full_record_ordered; eauto|]. split.
  - intros base rec Hb Hin.
    destruct (mapM_In _ _ _ _ Hb Hin) as [r [Hr Hbr]].
    eapply base_site_ordered; eauto.
  - intros domains internal rec Hi Hin. unfold make_internal in Hi.
    destruct (filterM _ full) as [kept|] eqn:Ek; [|discriminate].
    destruct (mapM_In _ _ _ _ Hi Hin) as [r [Hr Hir]].
    destruct (filterM_In _ _ _ _ Ek Hr) as [Hrf _].
    eapply internal_site_ordered; eauto.
Qed.


(** C10. The field [fetch_time] is in no output record of any of the
    three views, whatever the crawl times of the input are, and every
    free-form field, that is every field [make_full] does not handle,
    reaches the record of its site as the input (merged with the extra
    data of the domain) has it. *)
Theorem fetch_time_dropped
    (sites single_links : list pyval) (extras : list (list pyval))
    (full : list dict) :
  make_full TAGS json_loads dec_ln sites single_links extras = Some full ->
  (forall rec, In rec full -> OD.get "fetch_time" rec = None)
  /\ (forall base rec,
        make_base full = Some base -> In rec base ->
        OD.get "fetch_time" rec = None)
  /\ (forall domains internal rec,
        make_internal full domains = Some internal -> In rec internal ->
        OD.get "fetch_time" rec = None)
  /\ exists all_extra stubs,
       collect_extra extras = Some all_extra
       /\ Forall2 (carried all_extra) (sites ++ stubs) full.
Proof.
  intros Hfull. apply make_full_inv in Hfull.
  destruct Hfull as (events & links & ae & sds & He & Hs & Hc & _ & Hm).
  assert (Hf : forall rec, In rec full -> OD.get "fetch_time" rec = None).
  { intros rec Hin.
    destruct (mapM_In _ _ _ _ Hm Hin) as [site [_ Hsite]].
    apply emit_site_fields in Hsite; [|eapply collect_extra_keyed; eauto].
    destruct Hsite as (d & _ & _ & _ & _ & Hft). exact Hft. }
  split; [exact Hf|]. split; [|split].
  - intros base rec Hb Hin.
    destruct (mapM_In _ _ _ _ Hb Hin) as [r [Hr Hbr]].
    rewrite (base_site_get _ _ "fetch_time" Hbr) by discriminate. auto.
  - intros domains internal rec Hi Hin. unfold make_internal in Hi.
    destruct (filterM _ full) as [kept|] eqn:Ek; [|discriminate].
    destruct (mapM_In _ _ _ _ Hi Hin) as [r [Hr Hir]].
    destruct (filterM_In _ _ _ _ Ek Hr) as [Hrf _].
    rewrite (internal_site_get _ _ _ "fetch_time" Hir) by discriminate. auto.
  - exists ae, (more_sites (from_domains_of (aggregate events)) (map fst sds)).
    split; [exact Hc|].
    eapply Forall2_weaken; [|apply mapM_Forall2, Hm].
    intros site rec Hsr. unfold carried. eapply emit_site_frame. exact Hsr.
Qed.

End Views.

(** C2 (amended). Every record of the base view has at most 500 links.
    When the links of the full record are more than 500, the base record
    keeps exactly the first 500 entries and has [links_truncated] set to
    true; otherwise the record is copied as it is: its links are those of
    the full record, and [links_truncated] is in it exactly as it is in the
    full record, absent when it is absent there.  Every other field is
    copied.  The links of the full records are a dict, as those of
    [make_full] are. *)
Theorem make_base_capped (full : list dict) :
  (forall rec, In rec full -> exists l, OD.get "links" rec = Some (PDict l)) ->
  exists base, make_base full = Some base /\ Forall2 base_record full base.
Proof.
  intros Hl. unfold make_base.
  destruct (mapM_total base_site full) as [base Hb].
  { intros rec Hin. destruct (Hl rec Hin) as [l E].
    unfold base_site. rewrite E. destruct (Nat.ltb _ _); eauto. }
  exists base. split; auto.
  eapply Forall2_weaken_In; [|apply mapM_Forall2, Hb].
  intros rec b Hin Hrb. cbv beta in Hrb.
  destruct (Hl rec) as [l E]; auto.
  split.
  - intros k Hk1 Hk2. eapply base_site_get; eauto.
  - pose proof (base_site_links _ _ _ E Hrb) as Hcase.
    exists l. destruct (Nat.ltb MAX_BASE_LINKS (List.length l)) eqn:Elt.
    + destruct Hcase as [Hlb Hflag].
      exists (firstn MAX_BASE_LINKS l). repeat split; auto.
      apply firstn_le_length.
    + subst b. exists l. repeat split; auto.
      now apply Nat.ltb_ge.
Qed.

Lemma make_base_capped_witness :
  (forall rec, In rec (ex_wide :: ex_flagged_full) ->
     exists l, OD.get "links" rec = Some (PDict l))
  /\ exists base,
       make_base (ex_wide :: ex_flagged_full) = Some base
       /\ Forall2 base_record (ex_wide :: ex_flagged_full) base.
Proof.
  assert (H1 : forall rec, In rec (ex_wide :: ex_flagged_full) ->
                 exists l, OD.get "links" rec = Some (PDict l)).
  { intros rec [<-|[<-|[<-|[]]]]; eexists; reflexivity. }
  split; [exact H1|].
  exact (make_base_capped (ex_wide :: ex_flagged_full) H1).
Defined.

(** The claim C2 fails on the code: a site that comes with a
    [links_truncated] field keeps it in the full view, and the base view
    copies the record with it, although its 4 links are within the cap. *)
Lemma make_base_counterexample :
  ex_make_full [ex_flagged] ex_tied [] = Some ex_flagged_full
  /\ exists b r l,
       make_base ex_flagged_full = Some [b; r]
       /\ OD.get "links" b = Some (PDict l)
       /\ List.length l = 4%nat
       /\ OD.get "links_truncated" b = Some (PBool true)
       /\ ~ Forall2 capped ex_flagged_full [b; r].
Proof.
  split; [vm_compute; reflexivity|].
  eexists. eexists. eexists.
  split; [vm_compute; reflexivity|].
  split; [reflexivity|]. split; [reflexivity|]. split; [reflexivity|].
  intros H. inversion H as [|rec b recs bs Hc _]; subst.
  destruct Hc as [_ (l & l' & Hl & _ & _ & Hcase)].
  vm_compute in Hl. inversion Hl; subst l.
  cbn [List.length Nat.ltb Nat.leb MAX_BASE_LINKS] in Hcase.
  change (Nat.ltb MAX_BASE_LINKS 4) with false in Hcase.
  destruct Hcase as [_ Hflag]. vm_compute in Hflag. discriminate.
Qed.

(** The base record of the wide example keeps 500 of its 501 links. *)
Example make_base_wide :
  exists b l,
    make_base [ex_wide] = Some [b]
    /\ OD.get "links" b = Some (PDict l)
    /\ List.length l = 500%nat
    /\ OD.get "links_truncated" b = Some (PBool true).
Proof.
  eexists. eexists. split; [vm_compute; reflexivity|].
  split; [reflexivity|]. split; reflexivity.
Qed.

(** C3. The internal view holds exactly the full records whose domain is
    in the supplied set, in their order; a record outside the set is
    dropped.  The links of a kept record are exactly the entries of the
    links of the full record whose target is in the set, in their order;
    every other field is copied.  The full records are those of
    [make_full]: their domain is a string and their links are a dict. *)
Theorem make_internal_restricts (full : list dict) (domains : list string) :
  (forall rec, In rec full -> exists d, OD.get "domain" rec = Some (PStr d)) ->
  (forall rec, In rec full -> exists l, OD.get "links" rec = Some (PDict l)) ->
  exists internal,
    make_internal full domains = Some internal
    /\ Forall2 (restricted domains) (filter (domain_in domains) full) internal.
Proof.
  intros Hd Hl. unfold make_internal.
  rewrite (filterM_spec (in_domains domains) (domain_in domains)).
  2:{ intros rec Hin. destruct (Hd rec Hin) as [d E].
      unfold in_domains, domain_in. now rewrite E. }
  assert (Hsub : forall rec, In rec (filter (domain_in domains) full) -> In rec full).
  { intros rec Hin. now apply filter_In in Hin. }
  destruct (mapM_total (internal_site domains) (filter (domain_in domains) full))
    as [internal Hi].
  { intros rec Hin. destruct (Hl rec (Hsub rec Hin)) as [l E].
    unfold internal_site, OD.getd. rewrite E. eauto. }
  exists internal. split; auto.
  eapply Forall2_weaken_In; [|apply mapM_Forall2, Hi].
  intros rec i Hin Hri. cbv beta in Hri.
  split.
  - intros k Hk. eapply internal_site_get; eauto.
  - destruct (Hl rec) as [l E]; auto.
    destruct (internal_site_links _ _ _ Hri) as [l0 [Hl0 Hfl]].
    unfold OD.getd in Hl0. rewrite E in Hl0.
    assert (l0 = l) by congruence. subst l0. eauto.
Qed.

Lemma make_internal_restricts_witness :
  (forall rec, In rec ex_full3 -> exists d, OD.get "domain" rec = Some (PStr d))
  /\ (forall rec, In rec ex_full3 -> exists l, OD.get "links" rec = Some (PDict l))
  /\ exists internal,
       make_internal ex_full3 ex_domains = Some internal
       /\ Forall2 (restricted ex_domains)
                  (filter (domain_in ex_domains) ex_full3) internal.
Proof.
  assert (H1 : forall rec, In rec ex_full3 ->
                 exists d, OD.get "domain" rec = Some (PStr d)).
  { intros rec [<-|[<-|[<-|[]]]]; eexists; reflexivity. }
  assert (H2 : forall rec, In rec ex_full3 ->
                 exists l, OD.get "links" rec = Some (PDict l)).
  { intros rec [<-|[<-|[<-|[]]]]; eexists; reflexivity. }
  split; [exact H1|]. split; [exact H2|].
  exact (make_internal_restricts ex_full3 ex_domains H1 H2).
Defined.

(** The internal view of the example: [x.org] and the links to it are
    gone. *)
Example make_internal_example :
  make_internal ex_full3 ex_domains
  = Some [ [ ("domain", PStr "a.com");
             ("links", PDict [ ("b.com", PDict [("score", PDec 1)]);
                               ("c.com", PDict [("score", PDec 0)]) ]) ];
           [ ("domain", PStr "c.com"); ("links", PDict []) ] ].
Proof. reflexivity. Qed.

Lemma links_ordered_in_every_view_witness :
  mapM read_link ex_tied = Some ex_tied_events
  /\ ex_make_full [ex_site "a.com"] ex_tied [] = Some ex_tied_full
  /\ (forall rec, In rec ex_tied_full ->
        exists d l,
          OD.get "domain" rec = Some (PStr d)
          /\ OD.get "links" rec = Some (PDict l)
          /\ links_ordered (first_seen d ex_tied_events) l)
  /\ (forall base rec,
        make_base ex_tied_full = Some base -> In rec base ->
        record_ordered ex_tied_events rec)
  /\ (forall domains internal rec,
        make_internal ex_tied_full domains = Some internal -> In rec internal ->
        record_ordered ex_tied_events rec).
Proof.
  assert (H1 : mapM read_link ex_tied = Some ex_tied_events) by reflexivity.
  assert (H2 : ex_make_full [ex_site "a.com"] ex_tied [] = Some ex_tied_full)
    by (vm_compute; reflexivity).
  split; [exact H1|]. split; [exact H2|].
  exact (links_ordered_in_every_view ex_TAGS json_loads_ref dec_ln_ref
           [ex_site "a.com"] ex_tied [] ex_tied_events ex_tied_full H1 H2).
Defined.

(** The tied links of the example: [b.com] and [d.com] both have score 1
    and [c.com] and [e.com] both 0.499; each pair stands in the order of
    the events. *)
Example tied_links_order :
  map (fun rec =>
         match OD.get "links" rec with
         | Some (PDict l) => map (fun kv => (fst kv, link_score (snd kv))) l
         | _ => []
         end) ex_tied_full
  = [ [ ("b.com", 1%Q); ("d.com", 1%Q); ("c.com", 0.499%Q); ("e.com", 0.499%Q) ];
      [ ("a.com", 1%Q) ] ].
Proof. reflexivity. Qed.

Lemma fetch_time_dropped_witness :
  ex_make_full [ex_rich] [] [ex_extra] = Some ex_rich_full
  /\ (forall rec, In rec ex_rich_full -> OD.get "fetch_time" rec = None)
  /\ (forall base rec,
        make_base ex_rich_full = Some base -> In rec base ->
        OD.get "fetch_time" rec = None)
  /\ (forall domains internal rec,
        make_internal ex_rich_full domains = Some internal -> In rec internal ->
        OD.get "fetch_time" rec = None)
  /\ exists all_extra stubs,
       collect_extra [ex_extra] = Some all_extra
       /\ Forall2 (carried all_extra) ([ex_rich] ++ stubs) ex_rich_full.
Proof.
  assert (H : ex_make_full [ex_rich] [] [ex_extra] = Some ex_rich_full)
    by (vm_compute; reflexivity).
  split; [exact H|].
  exact (fetch_time_dropped ex_TAGS json_loads_ref dec_ln_ref
           [ex_rich] [] [ex_extra] ex_rich_full H).
Defined.

(** The record of the rich example. *)
Example rich_record :
  ex_rich_full
  = [ [ ("domain", PStr "wiki.indieweb.org");
        ("crawl_start", PStr "2017-07-14T02:40:00");
        ("crawl_end", PStr "2017-07-14T02:41:00");
        ("num_pages", PInt 12);
        ("hcard", PDict []);
        ("title", PStr "IndieWeb wiki");
        ("webmention_endpoints", PList [PStr "https://webmention.io/"]);
        ("tags", PList [PStr "tool"; PStr "webmention"; PStr "Known"]);
        ("servers", PList [PStr "Known"]);
        ("links_out", PInt 0); ("links_in", PInt 0); ("links", PDict []) ] ].
Proof. reflexivity. Qed.

(** ** The fields that the assembly converts *)

Section Fields.
Import ODFacts.
Variable TAGS : list (string * list string).
Variable json_loads : pyval -> option pyval.
Variable dec_ln : Q -> Q.

Lemma getd_eq {V : Type} (dflt : V) k d d' :
  OD.get k d' = OD.get k d -> OD.getd dflt k d' = OD.getd dflt k d.
Proof. unfold OD.getd. now intros ->. Qed.

(** The steps before the crawl times leave the fields alone that they do
    not handle. *)
Lemma steps_frame domain (m d1 d2 d3 : dict) k :
  coerce_num_pages (OD.remove "html" (OD.remove "mf2" m)) = Some d1 ->
  infer_tags TAGS domain d1 = Some d2 ->
  infer_servers d2 = Some d3 ->
  k <> "mf2" -> k <> "html" -> k <> "num_pages" -> k <> "tags" ->
  k <> "rel_generators" -> k <> "meta_generators" -> k <> "servers" ->
  OD.get k d3 = OD.get k m.
Proof.
  intros H1 H2 H3 ? ? ? ? ? ? ?.
  rewrite (infer_servers_get _ _ k H3) by auto.
  rewrite (infer_tags_get TAGS _ _ _ k H2) by auto.
  rewrite (coerce_num_pages_get _ _ k H1) by auto.
  now rewrite !get_remove_neq by auto.
Qed.

Lemma emit_site_num_pages st links all_extra site rec :
  emit_site TAGS json_loads st links all_extra site = Some rec ->
  assembled all_extra num_pages_spec site rec.
Proof.
  intros H. apply emit_site_inv in H.
  destruct H as (domain & d & d1 & d2 & d3 & d4 & h & Hs & H1 & H2 & H3 & H4 & H5 & ->).
  exists domain, d. split; auto. unfold num_pages_spec.
  set (m := merge_extra all_extra domain d) in *.
  assert (Hrec : forall (site5 : dict) hc lo li ls,
             OD.get "num_pages"
               (OD.update site5 [("hcard", hc); ("links_out", lo);
                                 ("links_in", li); ("links", ls)])
             = OD.get "num_pages" site5).
  { intros. now rewrite get_final_update. }
  rewrite Hrec.
  rewrite (crawl_times_get _ _ "num_pages" H4) by discriminate.
  rewrite (infer_servers_get _ _ "num_pages" H3) by discriminate.
  rewrite (infer_tags_get TAGS _ _ _ "num_pages" H2) by discriminate.
  unfold coerce_num_pages in H1.
  assert (Hm0 : OD.get "num_pages" (OD.remove "html" (OD.remove "mf2" m))
                = OD.get "num_pages" m)
    by now rewrite !get_remove_neq by discriminate.
  rewrite (getd_eq PNone _ _ _ Hm0) in H1.
  destruct (truthy (OD.getd PNone "num_pages" m)).
  - destruct (py_int _) as [z|]; [|discriminate]. inversion H1; subst.
    exists z. split; auto. apply get_set_eq.
  - inversion H1; subst. exact Hm0.
Qed.

Lemma emit_site_hcard st links all_extra site rec :
  emit_site TAGS json_loads st links all_extra site = Some rec ->
  assembled all_extra (hcard_spec json_loads) site rec.
Proof.
  intros H. apply emit_site_inv in H.
  destruct H as (domain & d & d1 & d2 & d3 & d4 & h & Hs & H1 & H2 & H3 & H4 & H5 & ->).
  exists domain, d. split; auto. unfold hcard_spec.
  set (m := merge_extra all_extra domain d) in *.
  assert (Hh : OD.get "hcard" d4 = OD.get "hcard" m).
  { rewrite (crawl_times_get _ _ "hcard" H4) by discriminate.
    apply (steps_frame domain m d1 d2 d3); auto; discriminate. }
  unfold load_hcard in H5. rewrite (getd_eq _ _ _ _ Hh) in H5.
  destruct (json_loads _) as [p|]; [|discriminate]. inversion H5; subst.
  exists p. split; auto. now rewrite get_final_update.
Qed.

Lemma convert_inv v r :
  convert v = Some r ->
  exists z s, py_int v = Some z /\ iso_of_epoch z = Some s /\ r = PStr s.
Proof.
  unfold convert. destruct (py_int v) as [z|]; [|discriminate].
  destruct (iso_of_epoch z) as [s|] eqn:E; simpl; [|discriminate].
  intros H. inversion H. exists z, s. auto.
Qed.

Lemma emit_site_crawl st links all_extra site rec :
  emit_site TAGS json_loads st links all_extra site = Some rec ->
  assembled all_extra crawl_times_spec site rec.
Proof.
  intros H. apply emit_site_inv in H.
  destruct H as (domain & d & d1 & d2 & d3 & d4 & h & Hs & H1 & H2 & H3 & H4 & H5 & ->).
  exists domain, d. split; auto. unfold crawl_times_spec.
  set (m := merge_extra all_extra domain d) in *.
  assert (Hf : OD.get "fetch_time" d3 = OD.get "fetch_time" m)
    by (apply (steps_frame domain m d1 d2 d3); auto; discriminate).
  assert (Hcs : OD.get "crawl_start" d3 = OD.get "crawl_start" m)
    by (apply (steps_frame domain m d1 d2 d3); auto; discriminate).
  assert (Hce : OD.get "crawl_end" d3 = OD.get "crawl_end" m)
    by (apply (steps_frame domain m d1 d2 d3); auto; discriminate).
  rewrite !get_final_update. simpl.
  unfold crawl_times in H4.
  assert (Hcs' : OD.getd PNone "crawl_start" (OD.remove "fetch_time" d3)
                 = OD.getd PNone "crawl_start" m).
  { apply getd_eq. now rewrite get_remove_neq by discriminate. }
  assert (Hce' : OD.getd PNone "crawl_end" (OD.remove "fetch_time" d3)
                 = OD.getd PNone "crawl_end" m).
  { apply getd_eq. now rewrite get_remove_neq by discriminate. }
  rewrite Hcs', Hce', (getd_eq PNone _ _ _ Hf) in H4.
  destruct (andb _ _).
  - destruct (convert (OD.getd PNone "crawl_start" m)) as [s|] eqn:Es;
      [|discriminate].
    destruct (convert (OD.getd PNone "crawl_end" m)) as [e|] eqn:Ee;
      [|discriminate].
    inversion H4; subst; clear H4.
    apply convert_inv in Es. destruct Es as (zs & ss & Hzs & Hss & ->).
    apply convert_inv in Ee. destruct Ee as (ze & se & Hze & Hse & ->).
    exists zs, ze, ss, se. repeat split; auto.
    + rewrite get_set_neq by discriminate. apply get_set_eq.
    + apply get_set_eq.
  - destruct (truthy (OD.getd PNone "fetch_time" m)); inversion H4; subst.
    + split.
      * rewrite get_set_neq by discriminate. apply get_set_eq.
      * apply get_set_eq.
    + now rewrite !get_remove_neq by discriminate.
Qed.

(** A site whose record cannot be built aborts the run. *)
Lemma make_full_abort sites single_links extras site :
  In site sites ->
  (forall st links all_extra,
     collect_extra extras = Some all_extra ->
     emit_site TAGS json_loads st links all_extra site = None) ->
  make_full TAGS json_loads dec_ln sites single_links extras = None.
Proof.
  intros Hin Hnone. unfold make_full.
  destruct (load_links single_links) as [st|]; auto.
  destruct (score_graph _ _) as [links|]; auto.
  destruct (collect_extra extras) as [ae|] eqn:Ec; auto.
  destruct (mapM site_domain sites) as [sds|]; auto.
  eapply mapM_None; [apply in_or_app; left; exact Hin|]. now apply Hnone.
Qed.

Lemma emit_site_abort_num_pages st links all_extra site domain d :
  site_domain site = Some (domain, d) ->
  truthy (OD.getd PNone "num_pages" (merge_extra all_extra domain d)) = true ->
  py_int (OD.getd PNone "num_pages" (merge_extra all_extra domain d)) = None ->
  emit_site TAGS json_loads st links all_extra site = None.
Proof.
  intros Hs Ht Hi. unfold emit_site. rewrite Hs.
  set (m := merge_extra all_extra domain d) in *.
  assert (Hm0 : OD.get "num_pages" (OD.remove "html" (OD.remove "mf2" m))
                = OD.get "num_pages" m)
    by now rewrite !get_remove_neq by discriminate.
  unfold coerce_num_pages. rewrite (getd_eq PNone _ _ _ Hm0), Ht, Hi.
  reflexivity.
Qed.

Lemma emit_site_abort_hcard st links all_extra site domain d :
  site_domain site = Some (domain, d) ->
  json_loads (OD.getd (PStr "{}") "hcard" (merge_extra all_extra domain d)) = None ->
  emit_site TAGS json_loads st links all_extra site = None.
Proof.
  intros Hs Hj. unfold emit_site. rewrite Hs.
  set (m := merge_extra all_extra domain d) in *.
  destruct (coerce_num_pages _) as [d1|] eqn:E1; auto.
  destruct (infer_tags _ _ d1) as [d2|] eqn:E2; auto.
  destruct (infer_servers d2) as [d3|] eqn:E3; auto.
  destruct (crawl_times d3) as [d4|] eqn:E4; auto.
  assert (Hh : OD.get "hcard" d4 = OD.get "hcard" m).
  { rewrite (crawl_times_get _ _ "hcard" E4) by discriminate.
    apply (steps_frame domain m d1 d2 d3); auto; discriminate. }
  unfold load_hcard. now rewrite (getd_eq _ _ _ _ Hh), Hj.
Qed.

Lemma emit_site_abort_crawl st links all_extra site domain d :
  site_domain site = Some (domain, d) ->
  truthy (OD.getd PNone "crawl_start" (merge_extra all_extra domain d)) = true ->
  truthy (OD.getd PNone "crawl_end" (merge_extra all_extra domain d)) = true ->
  convert (OD.getd PNone "crawl_start" (merge_extra all_extra domain d)) = None
  \/ convert (OD.getd PNone "crawl_end" (merge_extra all_extra domain d)) = None ->
  emit_site TAGS json_loads st links all_extra site = None.
Proof.
  intros Hs Hts Hte Hc. unfold emit_site. rewrite Hs.
  set (m := merge_extra all_extra domain d) in *.
  destruct (coerce_num_pages _) as [d1|] eqn:E1; auto.
  destruct (infer_tags _ _ d1) as [d2|] eqn:E2; auto.
  destruct (infer_servers d2) as [d3|] eqn:E3; auto.
  assert (Hcs : OD.getd PNone "crawl_start" (OD.remove "fetch_time" d3)
                = OD.getd PNone "crawl_start" m).
  { apply getd_eq. rewrite get_remove_neq by discriminate.
    apply (steps_frame domain m d1 d2 d3); auto; discriminate. }
  assert (Hce : OD.getd PNone "crawl_end" (OD.remove "fetch_time" d3)
                = OD.getd PNone "crawl_end" m).
  { apply getd_eq. rewrite get_remove_neq by discriminate.
    apply (steps_frame domain m d1 d2 d3); auto; discriminate. }
  unfold crawl_times. rewrite Hcs, Hce, Hts, Hte. simpl.
  destruct Hc as [Hc|Hc]; rewrite Hc; [reflexivity|].
  destruct (convert (OD.getd PNone "crawl_start" m)); reflexivity.
Qed.

End Fields.

(** ** Normalized scores *)

Section Normalized.
Variable dec_ln : Q -> Q.

Lemma round_prec_proper x y : (x == y)%Q -> round_prec x = round_prec y.
Proof. intros H. unfold round_prec. now rewrite (Qred_complete _ _ H). Qed.

Lemma dec_div_equal x y : (x == y)%Q -> ~ (y == 0)%Q -> dec_div x y = 1%Q.
Proof.
  intros Hxy Hy. unfold dec_div.
  rewrite (round_prec_proper (x / y) 1); [reflexivity|].
  rewrite Hxy. now apply Qmult_inv_r.
Qed.

(** The running maximum of the scoring loop. *)
Lemma max_score_fold raws : forall acc m,
  match acc with Some a => (0 < a)%Q | None => True end ->
  fold_left max_step raws acc = Some m ->
  (0 < m)%Q
  /\ (forall s, In s raws -> (s <= m)%Q)
  /\ (forall a, acc = Some a -> (a <= m)%Q)
  /\ (In m raws \/ acc = Some m).
Proof.
  induction raws as [|s r IH]; simpl; intros acc m Hacc H.
  - subst acc. repeat split; auto.
    + intros s [].
    + intros a Ha. inversion Ha. apply Qle_refl.
  - unfold max_step in H at 2.
    destruct (Qltb (match acc with Some x => x | None => 0%Q end) s) eqn:E.
    + apply Qltb_lt in E.
      assert (Hs : (0 < s)%Q).
      { destruct acc as [a|]; auto. eapply Qlt_trans; eauto. }
      destruct (IH (Some s) m Hs H) as (Hm & Hall & Hge & Hin).
      pose proof (Hge s eq_refl) as Hsm.
      repeat split; auto.
      * intros x [<-|Hx]; auto.
      * intros a ->. eapply Qle_trans; [apply Qlt_le_weak, E|exact Hsm].
      * destruct Hin as [Hin|Hin]; auto. inversion Hin; subst. auto.
    + apply Qltb_ge in E.
      destruct (IH acc m Hacc H) as (Hm & Hall & Hge & Hin).
      repeat split; auto.
      * intros x [<-|Hx]; auto.
        destruct acc as [a|].
        -- eapply Qle_trans; [exact E|]. now apply Hge.
        -- eapply Qle_trans; [exact E|]. now apply Qlt_le_weak.
      * destruct Hin as [Hin|Hin]; auto.
Qed.

(** [max_score] is positive, is one of the raw scores and bounds them. *)
Lemma max_score_spec raws m :
  max_score raws = Some m ->
  (0 < m)%Q /\ In m raws /\ forall s, In s raws -> (s <= m)%Q.
Proof.
  intros H. destruct (max_score_fold raws None m I H) as (Hm & Hall & _ & Hin).
  repeat split; auto. destruct Hin as [Hin|Hin]; [auto|discriminate].
Qed.

Lemma normalize_low m s : (s <= m)%Q -> (m <= 1)%Q -> normalize dec_ln (dec_ln m) s = 0%Q.
Proof.
  intros Hs Hm. unfold normalize.
  assert (H : Qle_bool s 1 = true) by (apply Qle_bool_iff; eapply Qle_trans; eauto).
  now rewrite H.
Qed.

Lemma normalize_top m s :
  (forall x y, (x == y)%Q -> (dec_ln x == dec_ln y)%Q) ->
  ~ (dec_ln m == 0)%Q ->
  (1 < m)%Q -> (s == m)%Q ->
  normalize dec_ln (dec_ln m) s = 1%Q.
Proof.
  intros Hproper Hln Hm Hs. unfold normalize.
  assert (H1 : Qle_bool s 1 = false).
  { destruct (Qle_bool s 1) eqn:E; auto. apply Qle_bool_iff in E.
    exfalso. apply (Qlt_not_le _ _ Hm). now rewrite <- Hs. }
  assert (H2 : Qeq_bool (dec_ln m) 0 = false).
  { destruct (Qeq_bool (dec_ln m) 0) eqn:E; auto.
    apply Qeq_bool_iff in E. contradiction. }
  rewrite H1, H2. apply dec_div_equal; auto.
Qed.

(** The scores of the edges of one domain.  When scoring returns, the
    maximum [m] of the raw scores is positive; if it is at most 1 every
    edge gets 0, otherwise every edge whose raw score is [m] gets 1,
    given that [Decimal.ln] is a function of the value of its argument and
    is not 0 at [m]. *)
Lemma score_domain_dominant edges sc :
  score_domain dec_ln edges = Some sc ->
  exists raws m,
    raw_scores edges = Some raws
    /\ max_score raws = Some m
    /\ map fst sc = map fst edges
    /\ Forall2
         (fun s ks =>
            ((m <= 1)%Q -> score_of (snd ks) = 0%Q)
            /\ ((forall x y, (x == y)%Q -> (dec_ln x == dec_ln y)%Q) ->
                ~ (dec_ln m == 0)%Q ->
                (1 < m)%Q -> (s == m)%Q -> score_of (snd ks) = 1%Q))
         raws sc.
Proof.
  intros H. pose proof (score_domain_keys dec_ln _ _ H) as Hkeys.
  unfold score_domain in H.
  destruct (raw_scores edges) as [raws|] eqn:Er; [|discriminate].
  destruct (max_score raws) as [m|] eqn:Em; [|discriminate].
  inversion H; subst; clear H.
  exists raws, m. repeat split; auto.
  destruct (max_score_spec _ _ Em) as (_ & _ & Hle).
  assert (Hlen : List.length raws = List.length edges)
    by (eapply mapM_length; eauto).
  clear Er Em Hkeys. revert edges Hlen.
  induction raws as [|s r IH]; intros [|e edges] Hlen; simpl in *;
    try discriminate; constructor.
  - simpl. split.
    + intros Hm. apply normalize_low; auto.
    + intros Hp Hln Hm Hs. now apply normalize_top.
  - apply IH; auto.
Qed.

End Normalized.

(** The reference logarithm is a function of the value of its argument. *)
Lemma dec_ln_ref_proper x y : (x == y)%Q -> (dec_ln_ref x == dec_ln_ref y)%Q.
Proof.
  intros H. unfold dec_ln_ref. rewrite (Qred_complete _ _ H). reflexivity.
Qed.

(** The scores of the edges of [a.com] in the example with ties: the
    raw scores are 100, 10, 100 and 10, in the order of the events. *)
Example tied_scores :
  option_map (map (fun ks => (fst ks, score_of (snd ks))))
    (score_domain dec_ln_ref
       (OD.getd [] "a.com" (links_of (aggregate ex_tied_events))))
  = Some [ ("b.com", 1%Q); ("c.com", 0.499%Q); ("d.com", 1%Q); ("e.com", 0.499%Q) ].
Proof. vm_compute. reflexivity. Qed.

(** The example of the specification: the reply edge has raw score
    [3 * 5 * 2 = 30] on the side of [a.com] and [3 * 5 * 1 = 15] on the
    side of [b.com]; both are the only edge of their domain and get 1. *)
Example spec_example_raw :
  option_map (map (fun de => (fst de, raw_scores (snd de))))
             (option_map links_of (load_links ex_links))
  = Some [ ("a.com", Some [30%Q]); ("b.com", Some [15%Q]) ].
Proof. reflexivity. Qed.

Example spec_example_full :
  ex_make_full ex_sites ex_links []
  = Some
      [ [ ("domain", PStr "a.com"); ("tags", PList []); ("hcard", PDict []);
          ("links_out", PInt 3); ("links_in", PInt 0);
          ("links",
           PDict [ ("b.com",
                    PDict [ ("out", PDict [("in-reply-to", PInt 3)]);
                            ("score", PDec 1) ]) ]) ];
        [ ("domain", PStr "b.com"); ("tags", PList []); ("hcard", PDict []);
          ("links_out", PInt 0); ("links_in", PInt 3);
          ("links",
           PDict [ ("a.com",
                    PDict [ ("in", PDict [("in-reply-to", PInt 3)]);
                            ("score", PDec 1) ]) ]) ] ].
Proof. vm_compute. reflexivity. Qed.

(** Raw scores are rounded to three digits at every addition. *)
Example raw_score_rounds :
  raw_score [ ("out", [ ("other", 617); ("like-of", 3) ]) ] = Some 1240%Q.
Proof. reflexivity. Qed.

(** * The claims on scoring and on the converted fields *)

Section Claims.
Variable TAGS : list (string * list string).
Variable json_loads : pyval -> option pyval.
Variable dec_ln : Q -> Q.

(** C1, at the input on which the code departs from it.  A domain whose
    edges all have raw score 0 has a maximum raw score of at most 1, so
    every edge should get the normalized score 0; [max_score] is then
    still the [int] 0, [max_score.ln()] raises and no record is written.
    For a positive maximum the claim holds, see [score_domain_dominant]. *)
Theorem zero_count_scoring_aborts :
  raw_scores (OD.getd [] "a.com" (links_of (aggregate
    [ {| from_domain := "a.com"; to_domain := "b.com"; num := 0;
         mf2_class := "other" |} ]))) = Some [0%Q]
  /\ make_full TAGS json_loads dec_ln [ex_site "a.com"] ex_zero [] = None.
Proof. split; reflexivity. Qed.

(** Every record that [make_full] yields satisfies what each record of
    the loop body satisfies. *)
Lemma make_full_assembled (P : dict -> dict -> Prop)
    sites single_links extras full :
  (forall st links all_extra site rec,
     emit_site TAGS json_loads st links all_extra site = Some rec ->
     assembled all_extra P site rec) ->
  make_full TAGS json_loads dec_ln sites single_links extras = Some full ->
  exists all_extra stubs,
    collect_extra extras = Some all_extra
    /\ Forall2 (assembled all_extra P) (sites ++ stubs) full.
Proof.
  intros HP Hfull. apply make_full_inv in Hfull.
  destruct Hfull as (events & links & ae & sds & He & Hs & Hc & _ & Hm).
  exists ae, (more_sites (from_domains_of (aggregate events)) (map fst sds)).
  split; auto.
  eapply Forall2_weaken; [|apply mapM_Forall2, Hm].
  intros site rec Hsr. eapply HP. exact Hsr.
Qed.

(** C7 (amended). For every input site record, merged with the extra
    data of its domain: if [crawl_start] and [crawl_end] are both present
    and true values (not 0, not empty), the record holds for each the
    ISO-8601 UTC timestamp, at second precision, of its integer value, and
    a value that [int] or [datetime] refuses aborts the run; otherwise, if
    [fetch_time] is present and a true value, the record holds it for both;
    otherwise both fields are in the record as they are in the input,
    absent when they are absent there.  The abort is stated for the values
    on which [py_int] is [int], see [int_modelled]. *)
Theorem crawl_times_normalized
    (sites single_links : list pyval) (extras : list (list pyval)) :
  (forall full,
     make_full TAGS json_loads dec_ln sites single_links extras = Some full ->
     exists all_extra stubs,
       collect_extra extras = Some all_extra
       /\ Forall2 (assembled all_extra crawl_times_spec) (sites ++ stubs) full)
  /\ (forall site domain d all_extra,
        In site sites -> site_domain site = Some (domain, d) ->
        collect_extra extras = Some all_extra ->
        truthy (OD.getd PNone "crawl_start" (merge_extra all_extra domain d)) = true ->
        truthy (OD.getd PNone "crawl_end" (merge_extra all_extra domain d)) = true ->
        (int_modelled
           (OD.getd PNone "crawl_start" (merge_extra all_extra domain d)) = true
         /\ convert (OD.getd PNone "crawl_start" (merge_extra all_extra domain d))
            = None)
        \/ (int_modelled
              (OD.getd PNone "crawl_end" (merge_extra all_extra domain d)) = true
            /\ convert (OD.getd PNone "crawl_end" (merge_extra all_extra domain d))
               = None) ->
        make_full TAGS json_loads dec_ln sites single_links extras = None).
Proof.
  split.
  - intros full. apply make_full_assembled. apply emit_site_crawl.
  - intros site domain d ae Hin Hs Hc Hts Hte Hcv.
    apply (make_full_abort _ _ _ _ _ _ site Hin).
    intros st links ae' Hc'. rewrite Hc in Hc'. inversion Hc'; subst ae'.
    eapply emit_site_abort_crawl; eauto.
    destruct Hcv as [[_ Hcv]|[_ Hcv]]; [left|right]; exact Hcv.
Qed.

(** C8 (amended). For every input site record, merged with the extra
    data of its domain: the record holds for [hcard] the value that
    [json.loads] reads from the field, or the empty object when that value
    is a false one; a record without [hcard] gets the empty object; and an
    [hcard] that [json.loads] refuses, a malformed string among them, is not
    recovered from: the run aborts. *)
Theorem hcard_parsed_or_abort
    (sites single_links : list pyval) (extras : list (list pyval)) :
  json_loads (PStr "{}") = Some (PDict []) ->
  (forall full,
     make_full TAGS json_loads dec_ln sites single_links extras = Some full ->
     exists all_extra stubs,
       collect_extra extras = Some all_extra
       /\ Forall2
            (assembled all_extra
               (fun merged rec =>
                  hcard_spec json_loads merged rec
                  /\ (OD.get "hcard" merged = None ->
                      OD.get "hcard" rec = Some (PDict []))))
            (sites ++ stubs) full)
  /\ (forall site domain d all_extra,
        In site sites -> site_domain site = Some (domain, d) ->
        collect_extra extras = Some all_extra ->
        json_loads (OD.getd (PStr "{}") "hcard" (merge_extra all_extra domain d))
        = None ->
        make_full TAGS json_loads dec_ln sites single_links extras = None).
Proof.
  intros Hempty. split.
  - intros full. apply make_full_assembled.
    intros st links ae site rec H.
    destruct (emit_site_hcard _ _ _ _ _ _ _ H) as (domain & d & Hs & Hspec).
    exists domain, d. split; auto. split; auto.
    intros Habs. destruct Hspec as (p & Hp & Hrec).
    unfold OD.getd in Hp. rewrite Habs, Hempty in Hp.
    inversion Hp; subst p. exact Hrec.
  - intros site domain d ae Hin Hs Hc Hj.
    apply (make_full_abort _ _ _ _ _ _ site Hin).
    intros st links ae' Hc'. rewrite Hc in Hc'. inversion Hc'; subst ae'.
    eapply emit_site_abort_hcard; eauto.
Qed.

(** C9 (amended). For every input site record, merged with the extra
    data of its domain: when [num_pages] is present and a true value, the
    record holds [int(num_pages)]; when it is absent or a false value (0,
    the empty string, null) the field is in the record as it is in the
    input; and a true value that [int] refuses is not passed through: the
    run aborts.  The abort is stated for the values on which [py_int] is
    [int], see [int_modelled]. *)
Theorem num_pages_coerced_or_abort
    (sites single_links : list pyval) (extras : list (list pyval)) :
  (forall full,
     make_full TAGS json_loads dec_ln sites single_links extras = Some full ->
     exists all_extra stubs,
       collect_extra extras = Some all_extra
       /\ Forall2 (assembled all_extra num_pages_spec) (sites ++ stubs) full)
  /\ (forall site domain d all_extra,
        In site sites -> site_domain site = Some (domain, d) ->
        collect_extra extras = Some all_extra ->
        truthy (OD.getd PNone "num_pages" (merge_extra all_extra domain d)) = true ->
        int_modelled
          (OD.getd PNone "num_pages" (merge_extra all_extra domain d)) = true ->
        py_int (OD.getd PNone "num_pages" (merge_extra all_extra domain d)) = None ->
        make_full TAGS json_loads dec_ln sites single_links extras = None).
Proof.
  split.
  - intros full. apply make_full_assembled. apply emit_site_num_pages.
  - intros site domain d ae Hin Hs Hc Ht _ Hi.
    apply (make_full_abort _ _ _ _ _ _ site Hin).
    intros st links ae' Hc'. rewrite Hc in Hc'. inversion Hc'; subst ae'.
    eapply emit_site_abort_num_pages; eauto.
Qed.

End Claims.

(** ** The amended claims at the examples *)

Lemma crawl_times_normalized_witness :
  (ex_make_full [ex_rich] [] [ex_extra] = Some ex_rich_full
   /\ exists all_extra stubs,
        collect_extra [ex_extra] = Some all_extra
        /\ Forall2 (assembled all_extra crawl_times_spec)
                   ([ex_rich] ++ stubs) ex_rich_full)
  /\ ex_make_full [ex_far] [] [] = None.
Proof.
  split.
  - assert (H : ex_make_full [ex_rich] [] [ex_extra] = Some ex_rich_full)
      by (vm_compute; reflexivity).
    split; [exact H|].
    exact (proj1 (crawl_times_normalized ex_TAGS json_loads_ref dec_ln_ref
                    [ex_rich] [] [ex_extra]) ex_rich_full H).
  - apply (proj2 (crawl_times_normalized ex_TAGS json_loads_ref dec_ln_ref
                    [ex_far] [] [])
             ex_far "a.com"
             [ ("domain", PStr "a.com"); ("crawl_start", PInt 1500000000);
               ("crawl_end", PInt 253402300800) ] []).
    + simpl. auto.
    + reflexivity.
    + reflexivity.
    + reflexivity.
    + reflexivity.
    + right. split; reflexivity.
Defined.

(** The claim C7 fails on the code: crawl times from the epoch on are
    present, yet the record keeps the two integers, and a lone
    [crawl_start] without [fetch_time] stays in the record. *)
Lemma crawl_times_counterexample :
  ex_make_full [ex_epoch] [] []
  = Some [ [ ("domain", PStr "a.com"); ("crawl_start", PInt 0);
             ("crawl_end", PInt 86400); ("tags", PList []);
             ("hcard", PDict []); ("links_out", PInt 0);
             ("links_in", PInt 0); ("links", PDict []) ] ]
  /\ iso_of_epoch 0 = Some "1970-01-01T00:00:00"
  /\ ex_make_full [ex_start_only] [] []
     = Some [ [ ("domain", PStr "a.com"); ("crawl_start", PInt 1500000000);
                ("tags", PList []); ("hcard", PDict []);
                ("links_out", PInt 0); ("links_in", PInt 0);
                ("links", PDict []) ] ].
Proof. repeat split; vm_compute; reflexivity. Qed.

Lemma hcard_parsed_or_abort_witness :
  json_loads_ref (PStr "{}") = Some (PDict [])
  /\ (ex_make_full [ex_rich] [] [ex_extra] = Some ex_rich_full
      /\ exists all_extra stubs,
           collect_extra [ex_extra] = Some all_extra
           /\ Forall2
                (assembled all_extra
                   (fun merged rec =>
                      hcard_spec json_loads_ref merged rec
                      /\ (OD.get "hcard" merged = None ->
                          OD.get "hcard" rec = Some (PDict []))))
                ([ex_rich] ++ stubs) ex_rich_full)
  /\ ex_make_full [ex_bad_hcard] [] [] = None.
Proof.
  assert (H0 : json_loads_ref (PStr "{}") = Some (PDict [])) by reflexivity.
  split; [exact H0|]. split.
  - assert (H : ex_make_full [ex_rich] [] [ex_extra] = Some ex_rich_full)
      by (vm_compute; reflexivity).
    split; [exact H|].
    exact (proj1 (hcard_parsed_or_abort ex_TAGS json_loads_ref dec_ln_ref
                    [ex_rich] [] [ex_extra] H0) ex_rich_full H).
  - apply (proj2 (hcard_parsed_or_abort ex_TAGS json_loads_ref dec_ln_ref
                    [ex_bad_hcard] [] [] H0)
             ex_bad_hcard "a.com"
             [ ("domain", PStr "a.com"); ("hcard", PStr "{") ] []).
    + simpl. auto.
    + reflexivity.
    + reflexivity.
    + reflexivity.
Defined.

(** The claim C8 fails on the code: the run of a site whose [hcard] is
    the malformed string of one brace yields no record at all. *)
Lemma hcard_counterexample :
  json_loads_ref (PStr "{") = None
  /\ ex_make_full [ex_bad_hcard] [] [] = None.
Proof. split; reflexivity. Qed.

Lemma num_pages_coerced_or_abort_witness :
  (ex_make_full [ex_rich] [] [ex_extra] = Some ex_rich_full
   /\ exists all_extra stubs,
        collect_extra [ex_extra] = Some all_extra
        /\ Forall2 (assembled all_extra num_pages_spec)
                   ([ex_rich] ++ stubs) ex_rich_full)
  /\ ex_make_full [ex_bad_pages] [] [] = None.
Proof.
  split.
  - assert (H : ex_make_full [ex_rich] [] [ex_extra] = Some ex_rich_full)
      by (vm_compute; reflexivity).
    split; [exact H|].
    exact (proj1 (num_pages_coerced_or_abort ex_TAGS json_loads_ref dec_ln_ref
                    [ex_rich] [] [ex_extra]) ex_rich_full H).
  - apply (proj2 (num_pages_coerced_or_abort ex_TAGS json_loads_ref dec_ln_ref
                    [ex_bad_pages] [] [])
             ex_bad_pages "a.com"
             [ ("domain", PStr "a.com"); ("num_pages", PStr "many") ] []).
    + simpl. auto.
    + reflexivity.
    + reflexivity.
    + reflexivity.
    + reflexivity.
    + reflexivity.
Defined.

(** The claim C9 fails on the code: the run of a site whose [num_pages]
    is not a number yields no record at all, and a [num_pages] that is
    present as the empty string is not coerced to an integer. *)
Lemma num_pages_counterexample :
  py_int (PStr "many") = None
  /\ ex_make_full [ex_bad_pages] [] [] = None
  /\ ex_make_full [ex_empty_pages] [] []
     = Some [ [ ("domain", PStr "a.com"); ("num_pages", PStr "");
                ("tags", PList []); ("hcard", PDict []);
                ("links_out", PInt 0); ("links_in", PInt 0);
                ("links", PDict []) ] ].
Proof. repeat split; vm_compute; reflexivity. Qed.

(** ** The shape of the records of the full view *)

Section FullShape.
Import ODFacts.
Variable TAGS : list (string * list string).
Variable json_loads : pyval -> option pyval.
Variable dec_ln : Q -> Q.

(** Every record of the full view has a string domain and a dict of
    links, as [make_base] and [make_internal] expect. *)
Lemma full_records_shape sites single_links extras full rec :
  make_full TAGS json_loads dec_ln sites single_links extras = Some full ->
  In rec full ->
  (exists d, OD.get "domain" rec = Some (PStr d))
  /\ (exists l, OD.get "links" rec = Some (PDict l)).
Proof.
  intros Hfull Hin. apply make_full_inv in Hfull.
  destruct Hfull as (events & links & ae & sds & He & Hs & Hc & _ & Hm).
  destruct (mapM_In _ _ _ _ Hm Hin) as [site [_ Hsite]].
  apply emit_site_fields in Hsite; [|eapply collect_extra_keyed; eauto].
  destruct Hsite as (d & Hd & Hl & _).
  split; [eauto|]. rewrite Hl. unfold sorted_links. eauto.
Qed.

(** The totals of a record are the sums over the aggregated edges of its
    domain. *)
Lemma full_record_totals sites single_links extras events full rec :
  mapM read_link single_links = Some events ->
  make_full TAGS json_loads dec_ln sites single_links extras = Some full ->
  In rec full ->
  exists d,
    OD.get "domain" rec = Some (PStr d)
    /\ OD.get "links_out" rec
       = Some (PInt (dir_total "out" (OD.getd [] d (links_of (aggregate events)))))
    /\ OD.get "links_in" rec
       = Some (PInt (dir_total "in" (OD.getd [] d (links_of (aggregate events))))).
Proof.
  intros Hev Hfull Hin. apply make_full_inv in Hfull.
  destruct Hfull as (events' & links & ae & sds & He & Hs & Hc & _ & Hm).
  rewrite Hev in He. inversion He; subst events'; clear He.
  destruct (mapM_In _ _ _ _ Hm Hin) as [site [_ Hsite]].
  apply emit_site_fields in Hsite; [|eapply collect_extra_keyed; eauto].
  destruct Hsite as (d & Hd & _ & Ho & Hi & _).
  destruct (aggregate_conserved events d) as [Eo Ei].
  exists d. rewrite Ho, Hi, Eo, Ei. auto.
Qed.

(** A field of the extra data of a domain comes from an extra record. *)
Lemma collect_extra_get extras all_extra dom k v :
  collect_extra extras = Some all_extra ->
  OD.get k (OD.getd [] dom all_extra) = Some v ->
  exists site d,
    In site (List.concat extras) /\ site = PDict d /\ OD.get k d = Some v.
Proof.
  unfold collect_extra.
  assert (H : forall l acc ae,
             fold_left
               (fun acc site =>
                  match acc, site_domain site with
                  | Some a, Some (dom, d) =>
                      Some (OD.upd [] dom (fun e => OD.update e d) a)
                  | _, _ => None
                  end) l acc = Some ae ->
             OD.get k (OD.getd [] dom ae) = Some v ->
             exists a0, acc = Some a0
               /\ (OD.get k (OD.getd [] dom a0) = Some v
                   \/ exists site d, In site l /\ site = PDict d /\ OD.get k d = Some v)).
  { induction l as [|site r IH]; simpl; intros acc ae H Hv.
    - eauto.
    - destruct (IH _ _ H Hv) as [a1 [Ha1 Hcase]].
      destruct acc as [a0|]; [|discriminate].
      destruct (site_domain site) as [[dom' d]|] eqn:Es; [|discriminate].
      inversion Ha1; subst; clear Ha1.
      exists a0. split; auto.
      destruct Hcase as [Hg|(s & d0 & Hin & Hs & Hd)];
        [|right; exists s, d0; auto].
      rewrite getd_upd in Hg.
      destruct (String.eqb dom' dom); auto.
      rewrite get_update in Hg.
      destruct (OD.get k d) eqn:Ek; auto.
      right. exists site, d. apply site_domain_inv in Es.
      destruct Es as [-> _]. split; auto. split; congruence. }
  intros Hc Hv. destruct (H _ _ _ Hc Hv) as [a0 [Ha0 Hcase]].
  inversion Ha0; subst.
  destruct Hcase as [Hg|Hg]; auto. discriminate.
Qed.

Lemma in_more_sites site from_domains site_domains :
  In site (more_sites from_domains site_domains) ->
  exists d, site = PDict [("domain", PStr d)].
Proof.
  unfold more_sites. intros H. apply in_map_iff in H.
  destruct H as [d [<- _]]. eauto.
Qed.

(** A free-form field that no input record has is in no record of the
    full view; [links_truncated] is such a field. *)
Lemma full_records_lack sites single_links extras full k :
  ~ In k handled_keys -> k <> "domain" ->
  (forall d, In (PDict d) sites -> OD.get k d = None) ->
  (forall d, In (PDict d) (List.concat extras) -> OD.get k d = None) ->
  make_full TAGS json_loads dec_ln sites single_links extras = Some full ->
  forall rec, In rec full -> OD.get k rec = None.
Proof.
  intros Hk Hkd Hsites Hextras Hfull rec Hin. apply make_full_inv in Hfull.
  destruct Hfull as (events & links & ae & sds & He & Hs & Hc & _ & Hm).
  destruct (mapM_In _ _ _ _ Hm Hin) as [site [Hsite Hemit]].
  destruct (emit_site_frame _ _ _ _ _ _ _ Hemit) as (domain & d & Hsd & Hframe).
  rewrite (Hframe k Hk). unfold merge_extra. rewrite get_update.
  destruct (OD.get k (OD.getd [] domain ae)) as [v|] eqn:Ev.
  - destruct (collect_extra_get _ _ _ _ _ Hc Ev) as (s & d0 & Hs0 & -> & Hd0).
    rewrite (Hextras d0 Hs0) in Hd0. discriminate.
  - apply site_domain_inv in Hsd. destruct Hsd as [-> _].
    apply in_app_or in Hsite. destruct Hsite as [Hsite|Hsite]; auto.
    apply in_more_sites in Hsite. destruct Hsite as [d' Hd'].
    inversion Hd'; subst. simpl.
    apply String.eqb_neq in Hkd. now rewrite Hkd.
Qed.

End FullShape.

(** * Further properties of the aggregation *)

Section AggregationMore.
Import ODFacts.

Lemma sum_num_cons p e events :
  sum_num p (e :: events) = (if p e then num e else 0) + sum_num p events.
Proof. reflexivity. Qed.

Lemma count_fold events : forall st a b dir c,
  count (links_of (fold_left agg_step events st)) a b dir c
  = count (links_of st) a b dir c
    + sum_num (fun e => (is_link a b c e && String.eqb "out" dir)%bool) events
    + sum_num (fun e => (is_link b a c e && String.eqb "in" dir)%bool) events.
Proof.
  induction events as [|e r IH]; intros st a b dir c; cbn [fold_left].
  - unfold sum_num; simpl. now rewrite !Z.add_0_r.
  - rewrite IH, count_agg_step, !sum_num_cons. unfold is_link.
    destruct (String.eqb (from_domain e) a), (String.eqb (to_domain e) b),
      (String.eqb (from_domain e) b), (String.eqb (to_domain e) a),
      (String.eqb (mf2_class e) c), (String.eqb "out" dir),
      (String.eqb "in" dir); cbn [andb]; lia.
Qed.

Lemma sum_num_ext p q events :
  (forall e, p e = q e) -> sum_num p events = sum_num q events.
Proof.
  intros H. induction events as [|e r IH]; simpl; auto. now rewrite H, IH.
Qed.

Lemma sum_num_false events : sum_num (fun _ => false) events = 0.
Proof. induction events as [|e r IH]; simpl; auto. Qed.

Lemma totals_fold events : forall st d,
  OD.getd 0 d (out_counts_of (fold_left agg_step events st))
  = OD.getd 0 d (out_counts_of st)
    + sum_num (fun e => String.eqb (from_domain e) d) events
  /\ OD.getd 0 d (in_counts_of (fold_left agg_step events st))
     = OD.getd 0 d (in_counts_of st)
       + sum_num (fun e => String.eqb (to_domain e) d) events.
Proof.
  induction events as [|e r IH]; intros st d; cbn [fold_left].
  - unfold sum_num; simpl. now rewrite !Z.add_0_r.
  - destruct (IH (agg_step st e) d) as [Ho Hi]. rewrite Ho, Hi, !sum_num_cons.
    unfold agg_step; cbn [out_counts_of in_counts_of]. rewrite !getd_upd.
    destruct (String.eqb (from_domain e) d), (String.eqb (to_domain e) d);
      split; lia.
Qed.

(** X1. The aggregation computes sums: the out count of the edge from [a]
    to [b] for a class is the sum of [num] over the events from [a] to [b]
    with that class, its in count the sum over the events from [b] to [a],
    and the totals of a domain are the sums over the events from it and
    to it. *)
Theorem aggregate_sums (events : list link_event) (a b c : string) :
  count (links_of (aggregate events)) a b "out" c = sum_num (is_link a b c) events
  /\ count (links_of (aggregate events)) a b "in" c = sum_num (is_link b a c) events
  /\ OD.getd 0 a (out_counts_of (aggregate events))
     = sum_num (fun e => String.eqb (from_domain e) a) events
  /\ OD.getd 0 a (in_counts_of (aggregate events))
     = sum_num (fun e => String.eqb (to_domain e) a) events.
Proof.
  unfold aggregate. rewrite !count_fold.
  destruct (totals_fold events agg_init a) as [Ho Hi]. rewrite Ho, Hi.
  rewrite (sum_num_ext (fun e => (is_link a b c e && String.eqb "out" "out")%bool)
             (is_link a b c)) by (intros; apply andb_true_r).
  rewrite (sum_num_ext (fun e => (is_link b a c e && String.eqb "in" "out")%bool)
             (fun _ => false)) by (intros; apply andb_false_r).
  rewrite (sum_num_ext (fun e => (is_link a b c e && String.eqb "out" "in")%bool)
             (fun _ => false)) by (intros; apply andb_false_r).
  rewrite (sum_num_ext (fun e => (is_link b a c e && String.eqb "in" "in")%bool)
             (is_link b a c)) by (intros; apply andb_true_r).
  rewrite sum_num_false.
  change (count (links_of agg_init) a b "out" c) with 0.
  change (count (links_of agg_init) a b "in" c) with 0.
  change (OD.getd 0 a (out_counts_of agg_init)) with 0.
  change (OD.getd 0 a (in_counts_of agg_init)) with 0.
  repeat split; lia.
Qed.

Lemma from_domains_fold events : forall st,
  from_domains_of (fold_left agg_step events st)
  = fold_left (fun s e => set_add (from_domain e) s) events (from_domains_of st).
Proof.
  induction events as [|e r IH]; intros st; cbn [fold_left]; auto.
Qed.

Lemma In_set_add x y s : In y (set_add x s) <-> y = x \/ In y s.
Proof.
  unfold set_add. destruct (existsb (String.eqb x) s) eqn:E.
  - apply existsb_eqb_In in E. split; auto. intros [->|H]; auto.
  - rewrite in_app_iff. simpl. intuition.
Qed.

Lemma set_add_fold (l : list link_event) : forall s,
  NoDup s ->
  NoDup (fold_left (fun s e => set_add (from_domain e) s) l s)
  /\ forall d,
       In d (fold_left (fun s e => set_add (from_domain e) s) l s)
       <-> In d s \/ exists e, In e l /\ from_domain e = d.
Proof.
  induction l as [|e r IH]; intros s Hs; simpl.
  - split; auto. intros d. split; auto.
    intros [H|[e [[] _]]]; auto.
  - destruct (IH (set_add (from_domain e) s) (NoDup_set_add _ _ Hs)) as [Hn Hi].
    split; auto. intros d. rewrite Hi, In_set_add. split.
    + intros [[->|H]|[e' [He' Hd]]]; eauto.
    + intros [H|[e' [[->|He'] Hd]]]; eauto.
Qed.

(** X2. [from_domains] is the set of the source domains of the events:
    it holds a domain if and only if some event comes from it, and holds
    it once. *)
Theorem from_domains_spec (events : list link_event) :
  NoDup (from_domains_of (aggregate events))
  /\ forall d,
       In d (from_domains_of (aggregate events))
       <-> exists e, In e events /\ from_domain e = d.
Proof.
  unfold aggregate. rewrite from_domains_fold. simpl.
  destruct (set_add_fold events [] (NoDup_nil _)) as [Hn Hi]. split; auto.
  intros d. rewrite Hi. simpl. intuition.
Qed.

End AggregationMore.

(** * Inputs that abort the run *)

Section Aborts.
Import ODFacts.
Variable TAGS : list (string * list string).
Variable json_loads : pyval -> option pyval.
Variable dec_ln : Q -> Q.

Lemma read_link_missing d :
  OD.get "from_domain" d = None \/ OD.get "to_domain" d = None
  \/ OD.get "num" d = None ->
  read_link (PDict d) = None.
Proof.
  unfold read_link. intros [H|[H|H]]; rewrite H.
  - reflexivity.
  - destruct (OD.get "from_domain" d) as [[]|]; reflexivity.
  - destruct (OD.get "from_domain" d) as [[]|]; try reflexivity;
      destruct (OD.get "to_domain" d) as [[]|]; reflexivity.
Qed.

(** X3. A link object without [from_domain], [to_domain] or [num] raises a
    [KeyError] in [load_links]: no links are loaded and [make_full] yields no
    record, wherever the object stands among the links. *)
Theorem link_missing_field_aborts
    (sites single_links : list pyval) (extras : list (list pyval)) (d : dict) :
  In (PDict d) single_links ->
  OD.get "from_domain" d = None \/ OD.get "to_domain" d = None
  \/ OD.get "num" d = None ->
  load_links single_links = None
  /\ make_full TAGS json_loads dec_ln sites single_links extras = None.
Proof.
  intros Hin Hmiss.
  assert (H : load_links single_links = None).
  { unfold load_links.
    rewrite (mapM_None read_link _ _ Hin (read_link_missing d Hmiss)).
    reflexivity. }
  split; auto. unfold make_full. now rewrite H.
Qed.

Lemma collect_extra_none l : forall acc site,
  In site l -> site_domain site = None ->
  fold_left
    (fun acc site =>
       match acc, site_domain site with
       | Some a, Some (dom, d) => Some (OD.upd [] dom (fun e => OD.update e d) a)
       | _, _ => None
       end) l acc = None.
Proof.
  assert (Hnone : forall l',
             fold_left
               (fun acc site =>
                  match acc, site_domain site with
                  | Some a, Some (dom, d) =>
                      Some (OD.upd [] dom (fun e => OD.update e d) a)
                  | _, _ => None
                  end) l' None = None).
  { induction l' as [|s r IH]; simpl; auto. }
  induction l as [|s r IH]; simpl; intros acc site Hin Hs; [tauto|].
  destruct Hin as [->|Hin].
  - rewrite Hs. destruct acc; apply Hnone.
  - now apply IH with (site := site).
Qed.

(** X4. A site object without [domain], in the site list or in any of the
    extra sequences, raises a [KeyError]: [make_full] yields no record. *)
Theorem record_without_domain_aborts
    (sites single_links : list pyval) (extras : list (list pyval)) (d : dict) :
  In (PDict d) sites \/ In (PDict d) (List.concat extras) ->
  OD.get "domain" d = None ->
  make_full TAGS json_loads dec_ln sites single_links extras = None.
Proof.
  intros Hin Hd.
  assert (Hs : site_domain (PDict d) = None)
    by (unfold site_domain; now rewrite Hd).
  unfold make_full.
  destruct (load_links single_links) as [st|]; auto.
  destruct (score_graph _ _) as [links|]; auto.
  destruct Hin as [Hin|Hin].
  - destruct (collect_extra extras); auto.
    now rewrite (mapM_None site_domain _ _ Hin Hs).
  - unfold collect_extra. now rewrite (collect_extra_none _ _ _ Hin Hs).
Qed.

Lemma get_In {V : Type} k (v : V) d : OD.get k d = Some v -> In (k, v) d.
Proof.
  induction d as [|[k' v'] r IH]; simpl; [discriminate|].
  destruct (String.eqb_spec k k') as [->|].
  - intros H. inversion H. auto.
  - auto.
Qed.

(** The class [c] has a count on the [dir] side of the edge from [a] to
    [b]. *)
Lemma bump_has a b dir c n links a' b' dir' c' :
  (a' = a /\ b' = b /\ dir' = dir /\ c' = c)
  \/ OD.get c' (OD.getd [] dir' (OD.getd [] b' (OD.getd [] a' links))) <> None ->
  OD.get c' (OD.getd [] dir' (OD.getd [] b' (OD.getd [] a' (bump a b dir c n links))))
  <> None.
Proof.
  intros H. unfold bump.
  rewrite getd_upd. destruct (String.eqb_spec a a') as [<-|Ha];
    [|destruct H as [[? _]|H]; [congruence|exact H]].
  rewrite getd_upd. destruct (String.eqb_spec b b') as [<-|Hb];
    [|destruct H as [(_ & ? & _)|H]; [congruence|exact H]].
  rewrite getd_upd. destruct (String.eqb_spec dir dir') as [<-|Hd];
    [|destruct H as [(_ & _ & ? & _)|H]; [congruence|exact H]].
  unfold OD.upd. destruct (String.eqb_spec c' c) as [->|Hc].
  - rewrite get_set_eq. discriminate.
  - rewrite get_set_neq by auto.
    destruct H as [(_ & _ & _ & ?)|H]; [congruence|exact H].
Qed.

Lemma aggregate_has events e :
  In e events ->
  OD.get (mf2_class e)
    (OD.getd [] "out" (OD.getd [] (to_domain e)
       (OD.getd [] (from_domain e) (links_of (aggregate events))))) <> None.
Proof.
  unfold aggregate.
  assert (H : forall l st,
             In e l
             \/ OD.get (mf2_class e)
                  (OD.getd [] "out" (OD.getd [] (to_domain e)
                     (OD.getd [] (from_domain e) (links_of st)))) <> None ->
             OD.get (mf2_class e)
               (OD.getd [] "out" (OD.getd [] (to_domain e)
                  (OD.getd [] (from_domain e)
                     (links_of (fold_left agg_step l st))))) <> None).
  { induction l as [|x r IH]; intros st Hcase; cbn [fold_left].
    - destruct Hcase as [[]|H]; exact H.
    - apply IH. destruct Hcase as [[->|Hin]|Hhas]; auto; right;
        unfold agg_step; cbn [links_of]; apply bump_has; right;
        apply bump_has; auto. }
  intros Hin. apply H. auto.
Qed.

Lemma score_counts_none dir counts : score_counts dir None counts = None.
Proof.
  unfold score_counts. induction counts as [|kv r IH]; simpl; auto.
Qed.

Lemma score_counts_unknown dir counts c n : forall acc,
  In (c, n) counts -> OD.get c MF2_WEIGHTS = None ->
  score_counts dir acc counts = None.
Proof.
  unfold score_counts.
  induction counts as [|kv r IH]; simpl; intros acc Hin Hc; [tauto|].
  destruct Hin as [->|Hin].
  - simpl. rewrite Hc.
    destruct acc; apply (score_counts_none dir r).
  - now apply IH.
Qed.

Lemma raw_score_unknown stats dir counts c n :
  In (dir, counts) stats -> In (c, n) counts -> OD.get c MF2_WEIGHTS = None ->
  raw_score stats = None.
Proof.
  unfold raw_score. intros Hin Hc Hw.
  assert (Hnone : forall l,
             fold_left (fun acc dc => score_counts (fst dc) acc (snd dc)) l None
             = None).
  { induction l as [|x r IH]; simpl; auto. now rewrite score_counts_none. }
  generalize (Some 0%Q).
  induction stats as [|x r IH]; simpl; intros acc; [destruct Hin|].
  destruct Hin as [->|Hin].
  - simpl. rewrite (score_counts_unknown dir counts c n acc Hc Hw). apply Hnone.
  - now apply IH.
Qed.

(** X5. A link event whose class, once a leading [u-] is stripped, is not
    a key of [MF2_WEIGHTS] raises a [KeyError] in the scoring loop: the
    scoring of the graph fails and [make_full] yields no record. *)
Theorem unknown_class_aborts
    (sites single_links : list pyval) (extras : list (list pyval))
    (events : list link_event) (e : link_event) :
  mapM read_link single_links = Some events ->
  In e events ->
  OD.get (mf2_class e) MF2_WEIGHTS = None ->
  score_graph dec_ln (links_of (aggregate events)) = None
  /\ make_full TAGS json_loads dec_ln sites single_links extras = None.
Proof.
  intros Hev Hin Hw.
  assert (Hs : score_graph dec_ln (links_of (aggregate events)) = None).
  { pose proof (aggregate_has events e Hin) as Hhas.
    set (links := links_of (aggregate events)) in *.
    destruct (OD.get (from_domain e) links) as [edges|] eqn:Ee;
      [|unfold OD.getd in Hhas; rewrite Ee in Hhas; simpl in Hhas; congruence].
    unfold OD.getd in Hhas at 3. rewrite Ee in Hhas.
    destruct (OD.get (to_domain e) edges) as [stats|] eqn:Es;
      [|unfold OD.getd in Hhas; rewrite Es in Hhas; simpl in Hhas; congruence].
    unfold OD.getd in Hhas at 2. rewrite Es in Hhas.
    destruct (OD.get "out" stats) as [counts|] eqn:Ec;
      [|unfold OD.getd in Hhas; rewrite Ec in Hhas; simpl in Hhas; congruence].
    unfold OD.getd in Hhas. rewrite Ec in Hhas.
    destruct (OD.get (mf2_class e) counts) as [n|] eqn:En; [|congruence].
    unfold score_graph.
    apply (mapM_None _ _ (from_domain e, edges)); [now apply get_In|].
    cbn [fst snd]. unfold score_domain, raw_scores.
    rewrite (mapM_None _ edges (to_domain e, stats)); auto.
    - now apply get_In.
    - cbn [snd]. eapply raw_score_unknown; eauto using get_In. }
  split; auto. unfold make_full, load_links. rewrite Hev. cbn [option_map].
  now rewrite Hs.
Qed.

End Aborts.

(** * Decimal arithmetic at three digits *)

Section Rounding.

Lemma ndigits_aux_spec fuel : forall n,
  0 < n -> n < 2 ^ (Z.of_nat fuel + 1) ->
  1 <= ndigits_aux fuel n
  /\ 10 ^ (ndigits_aux fuel n - 1) <= n < 10 ^ (ndigits_aux fuel n).
Proof.
  induction fuel as [|f IH]; intros n Hn Hlt.
  - change (2 ^ (Z.of_nat 0 + 1)) with 2 in Hlt.
    assert (n = 1) by lia. subst n. cbn. lia.
  - cbn [ndigits_aux]. destruct (Z.ltb_spec n 10) as [H10|H10].
    + change (10 ^ (1 - 1)) with 1. change (10 ^ 1) with 10. lia.
    + assert (Hq : 0 < n / 10) by (apply Z.div_str_pos; lia).
      assert (Hq2 : n / 10 < 2 ^ (Z.of_nat f + 1)).
      { apply Z.div_lt_upper_bound; [lia|].
        replace (Z.of_nat (S f) + 1) with (Z.succ (Z.of_nat f + 1)) in Hlt by lia.
        rewrite Z.pow_succ_r in Hlt by lia. lia. }
      destruct (IH _ Hq Hq2) as [H1 [Hlo Hhi]].
      set (d := ndigits_aux f (n / 10)) in *.
      split; [lia|].
      replace (1 + d - 1) with (Z.succ (d - 1)) by lia.
      replace (1 + d) with (Z.succ d) by lia.
      rewrite !Z.pow_succ_r by lia.
      pose proof (Z.div_mod n 10). pose proof (Z.mod_pos_bound n 10). lia.
Qed.

(** [ndigits n] is the number of decimal digits of [n]. *)
Lemma ndigits_spec n :
  0 < n -> 1 <= ndigits n /\ 10 ^ (ndigits n - 1) <= n < 10 ^ (ndigits n).
Proof.
  intros Hn. unfold ndigits. apply ndigits_aux_spec; auto.
  rewrite Z2Nat.id by apply Z.log2_nonneg.
  pose proof (Z.log2_spec n Hn). replace (Z.log2 n + 1) with (Z.succ (Z.log2 n)) by lia.
  lia.
Qed.

Lemma pow10_pos x : 0 <= x -> 0 < 10 ^ x.
Proof. intros. apply Z.pow_pos_nonneg; lia. Qed.

Lemma pow10_split x y : 0 <= x -> 0 <= y -> 10 ^ (x + y) = 10 ^ x * 10 ^ y.
Proof. intros. apply Z.pow_add_r; auto. Qed.

(** [adjusted a b] is the exponent of the leading digit of [a / b]. *)
Lemma adjusted_spec a b :
  0 < a -> 0 < b ->
  (0 <= adjusted a b ->
   b * 10 ^ adjusted a b <= a < b * 10 ^ (adjusted a b + 1))
  /\ (adjusted a b < 0 ->
      b <= a * 10 ^ (- adjusted a b) < 10 * b).
Proof.
  intros Ha Hb.
  destruct (ndigits_spec a Ha) as [Ha1 [Halo Hahi]].
  destruct (ndigits_spec b Hb) as [Hb1 [Hblo Hbhi]].
  unfold adjusted.
  set (da := ndigits a) in *. set (db := ndigits b) in *.
  destruct (Z.leb_spec 0 (da - db)) as [Hk|Hk].
  - destruct (Z.leb_spec (b * 10 ^ (da - db)) a) as [Ht|Ht].
    + split; [intros _|lia]. split; auto.
      assert (E : 10 ^ da = 10 ^ (db - 1) * 10 ^ (da - db + 1)).
      { rewrite <- pow10_split by lia. f_equal. lia. }
      pose proof (pow10_pos (da - db + 1)). nia.
    + destruct (Z.eq_dec (da - db) 0) as [E0|E0].
      * rewrite E0 in *. change (10 ^ 0) with 1 in Ht.
        split; [intros; lia|intros _].
        change (- (0 - 1)) with 1. change (10 ^ 1) with 10.
        assert (E : 10 ^ db = 10 * 10 ^ (da - 1)).
        { replace db with (Z.succ (da - 1)) at 1 by lia.
          rewrite Z.pow_succ_r by lia. reflexivity. }
        lia.
      * split; [intros _|lia].
        replace (da - db - 1 + 1) with (da - db) by lia. split; [|lia].
        assert (E : 10 ^ (da - 1) = 10 ^ db * 10 ^ (da - db - 1)).
        { rewrite <- pow10_split by lia. f_equal. lia. }
        pose proof (pow10_pos (da - db - 1)). nia.
  - destruct (Z.leb_spec b (a * 10 ^ (- (da - db)))) as [Ht|Ht].
    + split; [lia|intros _]. split; auto.
      assert (E : 10 ^ db = 10 ^ da * 10 ^ (- (da - db))).
      { rewrite <- pow10_split by lia. f_equal. lia. }
      assert (E2 : 10 ^ db = 10 * 10 ^ (db - 1)).
      { replace db with (Z.succ (db - 1)) at 1 by lia.
        rewrite Z.pow_succ_r by lia. reflexivity. }
      pose proof (pow10_pos (- (da - db))). nia.
    + split; [lia|intros _].
      replace (- (da - db - 1)) with (Z.succ (- (da - db))) by lia.
      rewrite Z.pow_succ_r by lia. split; [|lia].
      assert (E : 10 ^ db = 10 ^ (da - 1) * (10 * 10 ^ (- (da - db)))).
      { rewrite <- Z.pow_succ_r by lia. rewrite <- pow10_split by lia.
        f_equal. lia. }
      pose proof (pow10_pos (- (da - db))). nia.
Qed.

Lemma round_half_even_lower n d : 0 < d -> n / d <= round_half_even n d.
Proof.
  intros Hd. unfold round_half_even.
  destruct (2 * (n mod d) ?= d); [destruct (Z.even (n / d))| |]; lia.
Qed.

Lemma round_half_even_upper n d N :
  0 < d -> 0 <= n -> n <= N * d -> round_half_even n d <= N.
Proof.
  intros Hd Hn Hle. unfold round_half_even.
  assert (Hq : n / d <= N) by (apply Z.div_le_upper_bound; lia).
  pose proof (Z.div_mod n d ltac:(lia)) as Hdm.
  pose proof (Z.mod_pos_bound n d Hd) as Hm.
  destruct (Z.eq_dec (n / d) N) as [E|E].
  - assert (n mod d = 0) by nia.
    replace (2 * (n mod d) ?= d) with Lt; [lia|].
    symmetry. apply Z.compare_lt_iff. lia.
  - destruct (2 * (n mod d) ?= d); [destruct (Z.even (n / d))| |]; lia.
Qed.

Lemma inject_Z_pos z : 0 < z -> (0 < inject_Z z)%Q.
Proof. intros H. unfold Qlt, inject_Z; simpl. lia. Qed.

Lemma Qmake_pos z p : 0 < z -> (0 < z # p)%Q.
Proof. intros H. unfold Qlt; simpl. lia. Qed.

Lemma Qmake_le_1 z N : 0 < N -> z <= N -> (z # Z.to_pos N <= 1)%Q.
Proof. intros HN H. unfold Qle; simpl. rewrite Z2Pos.id by auto. lia. Qed.

(** Rounding a positive number gives a positive number. *)
Lemma round_pos_positive a b : 0 < a -> 0 < b -> (0 < round_pos a b)%Q.
Proof.
  intros Ha Hb. destruct (adjusted_spec a b Ha Hb) as [Hnn Hneg].
  unfold round_pos, PREC. set (E := adjusted a b) in *.
  destruct (Z.leb_spec 0 (E - (3 - 1))) as [He|He].
  - destruct (Hnn ltac:(lia)) as [Hlo _].
    assert (Ep : 10 ^ E = 10 ^ (E - (3 - 1)) * 100).
    { change 100 with (10 ^ 2). rewrite <- pow10_split by lia. f_equal. lia. }
    pose proof (pow10_pos (E - (3 - 1)) He) as Hp.
    assert (Hq : 100 <= a / (b * 10 ^ (E - (3 - 1)))).
    { apply Z.div_le_lower_bound; nia. }
    pose proof (round_half_even_lower a (b * 10 ^ (E - (3 - 1))) ltac:(nia)).
    apply inject_Z_pos. apply Z.mul_pos_pos; lia.
  - rewrite Qred_correct.
    assert (Hp : 0 < 10 ^ (- (E - (3 - 1)))) by (apply pow10_pos; lia).
    assert (Hq : 1 <= a * 10 ^ (- (E - (3 - 1))) / b).
    { apply Z.div_le_lower_bound; [lia|].
      destruct (Z.leb_spec 0 E) as [HE|HE].
      - destruct (Hnn HE) as [Hlo _].
        pose proof (pow10_pos E HE). nia.
      - destruct (Hneg HE) as [Hlo _].
        assert (Ep : 10 ^ (- (E - (3 - 1))) = 10 ^ (- E) * 100).
        { change 100 with (10 ^ 2). rewrite <- pow10_split by lia.
          f_equal. lia. }
        pose proof (pow10_pos (- E) ltac:(lia)). nia. }
    pose proof (round_half_even_lower (a * 10 ^ (- (E - (3 - 1)))) b Hb).
    apply Qmake_pos. lia.
Qed.

(** Rounding a number of at most 1 gives at most 1. *)
Lemma round_pos_le_1 a b : 0 < a -> a <= b -> (round_pos a b <= 1)%Q.
Proof.
  intros Ha Hab. destruct (adjusted_spec a b Ha ltac:(lia)) as [Hnn Hneg].
  unfold round_pos, PREC. set (E := adjusted a b) in *.
  assert (HE : E <= 0).
  { destruct (Z.leb_spec E 0) as [|HE]; auto.
    destruct (Hnn ltac:(lia)) as [Hlo _].
    assert (10 <= 10 ^ E).
    { replace E with (Z.succ (E - 1)) by lia. rewrite Z.pow_succ_r by lia.
      pose proof (pow10_pos (E - 1) ltac:(lia)). lia. }
    nia. }
  destruct (Z.leb_spec 0 (E - (3 - 1))) as [He|He]; [lia|].
  rewrite Qred_correct.
  assert (Hp : 0 < 10 ^ (- (E - (3 - 1)))) by (apply pow10_pos; lia).
  pose proof (round_half_even_upper (a * 10 ^ (- (E - (3 - 1)))) b
                (10 ^ (- (E - (3 - 1)))) ltac:(lia) ltac:(nia) ltac:(nia)) as Hc.
  now apply Qmake_le_1.
Qed.

Lemma Qred_num_den q : (Qnum (Qred q) # Qden (Qred q) == q)%Q.
Proof. rewrite <- (Qred_correct q) at 3. now destruct (Qred q). Qed.

(** The rounding of the context keeps a positive number positive. *)
Lemma round_prec_positive q : (0 < q)%Q -> (0 < round_prec q)%Q.
Proof.
  intros Hq. unfold round_prec.
  pose proof (Qred_num_den q) as Hr. rewrite <- Hr in Hq.
  destruct (Qnum (Qred q)) as [|a|a].
  - unfold Qlt in Hq; simpl in Hq. lia.
  - apply round_pos_positive; lia.
  - unfold Qlt in Hq; simpl in Hq. lia.
Qed.

(** The rounding of the context keeps a number of the unit interval in
    it. *)
Lemma round_prec_unit q :
  (0 <= q)%Q -> (q <= 1)%Q -> (0 <= round_prec q)%Q /\ (round_prec q <= 1)%Q.
Proof.
  intros H0 H1. unfold round_prec.
  pose proof (Qred_num_den q) as Hr. rewrite <- Hr in H0, H1.
  destruct (Qnum (Qred q)) as [|a|a].
  - split; [apply Qle_refl|discriminate].
  - split.
    + apply Qlt_le_weak, round_pos_positive; lia.
    + apply round_pos_le_1; [lia|]. unfold Qle in H1; simpl in H1. lia.
  - unfold Qle in H0; simpl in H0. lia.
Qed.

End Rounding.

(** * Further properties of the scoring *)

Section ScoringMore.
Import ODFacts.
Variable dec_ln : Q -> Q.

Lemma score_domain_inv edges sc :
  score_domain dec_ln edges = Some sc ->
  exists raws m,
    raw_scores edges = Some raws /\ max_score raws = Some m
    /\ sc = map (fun es =>
                   (fst (fst es),
                    {| stats_of := snd (fst es);
                       score_of := normalize dec_ln (dec_ln m) (snd es) |}))
                (combine edges raws).
Proof.
  unfold score_domain. intros H.
  destruct (raw_scores edges) as [raws|]; [|discriminate].
  destruct (max_score raws) as [m|] eqn:Em; [|discriminate].
  inversion H. eauto.
Qed.

Lemma normalize_unit m s :
  (1 < s -> 0 <= dec_ln s /\ dec_ln s <= dec_ln m)%Q ->
  (0 <= normalize dec_ln (dec_ln m) s)%Q
  /\ (normalize dec_ln (dec_ln m) s <= 1)%Q.
Proof.
  intros Hln. unfold normalize.
  destruct (Qle_bool s 1) eqn:E1; [split; discriminate|].
  destruct (Qeq_bool (dec_ln m) 0) eqn:E2; [split; discriminate|].
  assert (Hs : (1 < s)%Q).
  { apply Qnot_le_lt. intros H. apply Qle_bool_iff in H. congruence. }
  destruct (Hln Hs) as [H0 Hle].
  apply Qeq_bool_neq in E2.
  assert (Hm : (0 < dec_ln m)%Q).
  { apply Qle_lt_or_eq in H0. destruct H0 as [H0|H0].
    - eapply Qlt_le_trans; eauto.
    - apply Qle_lt_or_eq in Hle. destruct Hle as [Hle|Hle].
      + now rewrite <- H0 in Hle.
      + exfalso. apply E2. now rewrite <- Hle, <- H0. }
  unfold dec_div. apply round_prec_unit.
  - apply Qle_shift_div_l; auto. now rewrite Qmult_0_l.
  - apply Qle_shift_div_r; auto. now rewrite Qmult_1_l.
Qed.

(** X6. Every normalized score that the scoring loop gives to the edges
    of a domain lies between 0 and 1, provided [Decimal.ln] is not
    negative and does not decrease on the raw scores above 1 of that
    domain. *)
Theorem scores_in_unit_interval (edges : edges_t) (raws : list Q)
    (sc : list (string * scored)) :
  raw_scores edges = Some raws ->
  score_domain dec_ln edges = Some sc ->
  ln_sound_on dec_ln raws ->
  forall ks, In ks sc -> (0 <= score_of (snd ks))%Q /\ (score_of (snd ks) <= 1)%Q.
Proof.
  intros Hr Hs Hln ks Hin.
  destruct (score_domain_inv _ _ Hs) as (raws' & m & Hr' & Hm & ->).
  rewrite Hr in Hr'. inversion Hr'; subst raws'; clear Hr'.
  destruct (max_score_spec _ _ Hm) as (_ & Hmin & Hmax).
  apply in_map_iff in Hin. destruct Hin as [[e s] [<- Hes]].
  apply in_combine_r in Hes. cbn [fst snd score_of].
  apply normalize_unit. intros H1. apply Hln; auto.
Qed.

Lemma weight_positive c w : OD.get c MF2_WEIGHTS = Some w -> 0 < w.
Proof.
  intros H. apply get_In in H. simpl in H.
  repeat (destruct H as [H|H]; [inversion H; lia|]). destruct H.
Qed.

Lemma direction_weight_positive dir w :
  OD.get dir DIRECTION_WEIGHTS = Some w -> 0 < w.
Proof.
  intros H. apply get_In in H. simpl in H.
  repeat (destruct H as [H|H]; [inversion H; lia|]). destruct H.
Qed.

Lemma dec_add_positive s t : (0 <= s)%Q -> (0 < t)%Q -> (0 < dec_add s t)%Q.
Proof.
  intros Hs Ht. unfold dec_add. apply round_prec_positive.
  apply Qlt_le_trans with (y := (0 + t)%Q).
  - now rewrite Qplus_0_l.
  - apply Qplus_le_compat; [auto|apply Qle_refl].
Qed.

Lemma score_counts_positive dir counts : forall s,
  OD.get dir DIRECTION_WEIGHTS <> None -> counts_ge 1 counts -> (0 <= s)%Q ->
  exists s',
    score_counts dir (Some s) counts = Some s'
    /\ (0 <= s')%Q /\ ((0 < s)%Q \/ counts <> [] -> (0 < s')%Q).
Proof.
  unfold score_counts.
  induction counts as [|[c n] r IH]; intros s Hd Hc Hs; cbn [fold_left].
  - exists s. repeat split; auto. intros [H|H]; [auto|congruence].
  - destruct (Hc c n (or_introl eq_refl)) as [Hn Hw]. cbn [fst snd].
    destruct (OD.get c MF2_WEIGHTS) as [w|] eqn:Ew; [|congruence].
    destruct (OD.get dir DIRECTION_WEIGHTS) as [dw|] eqn:Edw; [|congruence].
    pose proof (weight_positive _ _ Ew) as Hwp.
    pose proof (direction_weight_positive _ _ Edw) as Hdp.
    assert (Hp : (0 < dec_add s (inject_Z (n * w * dw)))%Q).
    { apply dec_add_positive; auto. apply inject_Z_pos.
      apply Z.mul_pos_pos; [apply Z.mul_pos_pos|]; lia. }
    destruct (IH (dec_add s (inject_Z (n * w * dw)))) as (s' & Hs' & H0 & Hpos).
    + discriminate.
    + intros c' n' Hin. apply Hc. now right.
    + now apply Qlt_le_weak.
    + exists s'. repeat split; auto.
Qed.

Lemma raw_score_positive stats :
  stats <> [] -> stats_ge 1 stats ->
  exists s, raw_score stats = Some s /\ (0 < s)%Q.
Proof.
  unfold raw_score. intros Hne Hok.
  assert (H : forall l s,
             stats_ge 1 l -> (0 <= s)%Q ->
             exists s',
               fold_left (fun acc dc => score_counts (fst dc) acc (snd dc)) l (Some s)
               = Some s'
               /\ (0 <= s')%Q /\ ((0 < s)%Q \/ l <> [] -> (0 < s')%Q)).
  { induction l as [|[dir counts] r IH]; intros s Hl Hs; cbn [fold_left].
    - exists s. repeat split; auto. intros [H|H]; [auto|congruence].
    - destruct (Hl dir counts (or_introl eq_refl)) as (Hd & Hcne & Hc).
      destruct (score_counts_positive dir counts s Hd Hc Hs) as (s1 & E1 & H0 & Hp).
      cbn [fst snd]. rewrite E1.
      destruct (IH s1) as (s' & Es' & H0' & Hp'); auto.
      + intros d' c' Hin. apply Hl. now right.
      + exists s'. split; [exact Es'|]. split; [exact H0'|].
        intros _. apply Hp'. left. apply Hp. now right. }
  destruct (H stats 0%Q Hok (Qle_refl 0)) as (s & Es & _ & Hp).
  exists s. split; auto.
Qed.

Lemma max_score_some raws :
  raws <> [] -> (forall s, In s raws -> (0 < s)%Q) ->
  exists m, max_score raws = Some m.
Proof.
  unfold max_score. intros Hne Hpos.
  assert (H : forall l x, exists m, fold_left max_step l (Some x) = Some m).
  { induction l as [|s r IH]; intros x; cbn [fold_left]; eauto.
    unfold max_step at 2. destruct (Qltb x s); apply IH. }
  destruct raws as [|s r]; [congruence|]. cbn [fold_left].
  unfold max_step at 2. cbn.
  replace (Qltb 0 s) with true; [apply H|].
  symmetry. apply Qltb_lt. apply Hpos. now left.
Qed.

Lemma score_domain_some edges :
  edges <> [] -> edges_ge 1 edges ->
  exists sc, score_domain dec_ln edges = Some sc.
Proof.
  intros Hne Hok. unfold score_domain, raw_scores.
  destruct (mapM_total (fun e : string * stats_t => raw_score (snd e)) edges)
    as [raws Hr].
  { intros [b stats] Hin. destruct (Hok b stats Hin) as [Hs Hg].
    destruct (raw_score_positive stats Hs Hg) as [s [E _]]. eauto. }
  rewrite Hr.
  destruct (max_score_some raws) as [m Hm].
  - destruct edges; [congruence|]. apply mapM_length in Hr.
    destruct raws; [discriminate|congruence].
  - intros s Hin. destruct (mapM_In _ _ _ _ Hr Hin) as [[b stats] [Hin' E]].
    destruct (Hok b stats Hin') as [Hs Hg].
    destruct (raw_score_positive stats Hs Hg) as [s' [E' Hp]].
    cbn [snd] in E. congruence.
  - rewrite Hm. eauto.
Qed.

Lemma In_set {V : Type} k (x : V) d k' v :
  In (k', v) (OD.set k x d) -> (k' = k /\ v = x) \/ In (k', v) d.
Proof.
  induction d as [|[k2 v2] r IH]; simpl.
  - intros [H|[]]. inversion H. auto.
  - destruct (String.eqb k k2).
    + intros [H|H]; [inversion H|]; auto.
    + intros [H|H]; auto. destruct (IH H); auto.
Qed.

Lemma set_nonempty {V : Type} k (x : V) d : OD.set k x d <> [].
Proof. destruct d as [|[k2 v2] r]; simpl; [|destruct (String.eqb k k2)]; discriminate. Qed.

Lemma getd_cases {V : Type} (dflt : V) k d :
  OD.getd dflt k d = dflt \/ In (k, OD.getd dflt k d) d.
Proof.
  unfold OD.getd. destruct (OD.get k d) eqn:E; auto. right. now apply get_In.
Qed.

Lemma bump_ge a b dir c n links :
  0 < n -> OD.get c MF2_WEIGHTS <> None -> OD.get dir DIRECTION_WEIGHTS <> None ->
  graph_ge 1 links -> graph_ge 1 (bump a b dir c n links).
Proof.
  intros Hn Hc Hd Hg a' edges Hin. unfold bump, OD.upd in Hin.
  apply In_set in Hin. destruct Hin as [[-> ->]|Hin]; [|exact (Hg _ _ Hin)].
  split; [apply set_nonempty|].
  assert (He : edges_ge 1 (OD.getd [] a links)).
  { destruct (getd_cases ([] : edges_t) a links) as [E|E].
    - rewrite E. intros ? ? [].
    - apply (Hg _ _ E). }
  intros b' stats Hin. apply In_set in Hin.
  destruct Hin as [[-> ->]|Hin]; [|exact (He _ _ Hin)].
  split; [apply set_nonempty|].
  assert (Hs : stats_ge 1 (OD.getd [] b (OD.getd [] a links))).
  { destruct (getd_cases ([] : stats_t) b (OD.getd [] a links)) as [E|E].
    - rewrite E. intros ? ? [].
    - apply (He _ _ E). }
  intros dir' counts Hin. apply In_set in Hin.
  destruct Hin as [[-> ->]|Hin]; [|exact (Hs _ _ Hin)].
  split; [auto|]. split; [apply set_nonempty|].
  assert (Hcs : counts_ge 1 (OD.getd [] dir (OD.getd [] b (OD.getd [] a links)))).
  { destruct (getd_cases ([] : counts_t) dir (OD.getd [] b (OD.getd [] a links)))
      as [E|E].
    - rewrite E. intros ? ? [].
    - apply (Hs _ _ E). }
  intros c' n' Hin. apply In_set in Hin.
  destruct Hin as [[-> ->]|Hin]; [|exact (Hcs _ _ Hin)].
  split; auto.
  destruct (getd_cases 0 c (OD.getd [] dir (OD.getd [] b (OD.getd [] a links))))
    as [E|E].
  - rewrite E. lia.
  - destruct (Hcs _ _ E). lia.
Qed.

Lemma aggregate_ge events :
  (forall e, In e events ->
     0 < num e /\ OD.get (mf2_class e) MF2_WEIGHTS <> None) ->
  graph_ge 1 (links_of (aggregate events)).
Proof.
  unfold aggregate. intros Hev.
  assert (H : forall l st,
             (forall e, In e l ->
                0 < num e /\ OD.get (mf2_class e) MF2_WEIGHTS <> None) ->
             graph_ge 1 (links_of st) ->
             graph_ge 1 (links_of (fold_left agg_step l st))).
  { induction l as [|e r IH]; intros st Hl Hst; cbn [fold_left]; auto.
    apply IH; [intros; apply Hl; now right|].
    destruct (Hl e (or_introl eq_refl)) as [Hn Hc].
    unfold agg_step; cbn [links_of].
    apply bump_ge; auto; [discriminate|].
    apply bump_ge; auto. discriminate. }
  apply H; auto. intros ? ? [].
Qed.

(** X7. When every link event has a count of at least 1 and a class of
    [MF2_WEIGHTS], the scoring loop raises nothing: every edge has a
    positive raw score, so [max_score] is a Decimal when its logarithm is
    taken, and the whole graph is scored.  The bound of [Decimal] on
    exponents, far above any count that can be read, is not modelled. *)
Theorem scoring_succeeds (events : list link_event) :
  (forall e, In e events ->
     0 < num e /\ OD.get (mf2_class e) MF2_WEIGHTS <> None) ->
  exists links, score_graph dec_ln (links_of (aggregate events)) = Some links.
Proof.
  intros Hev. pose proof (aggregate_ge events Hev) as Hg.
  unfold score_graph. apply mapM_total.
  intros [a edges] Hin. destruct (Hg a edges Hin) as [Hne He].
  destruct (score_domain_some edges Hne He) as [sc Hsc].
  cbn [fst snd]. rewrite Hsc. cbn. eauto.
Qed.

End ScoringMore.

Section ExactScores.

Lemma round_prec_small n :
  0 <= n < 1000 -> (round_prec (inject_Z n) == inject_Z n)%Q.
Proof.
  intros Hn.
  assert (H : forallb
                (fun k => Qeq_bool (round_prec (inject_Z (Z.of_nat k)))
                                   (inject_Z (Z.of_nat k)))
                (seq 0 1000) = true) by (vm_compute; reflexivity).
  rewrite forallb_forall in H. specialize (H (Z.to_nat n)).
  rewrite Z2Nat.id in H by lia. apply Qeq_bool_iff, H, in_seq. lia.
Qed.

Lemma dec_add_exact x s t :
  (x == inject_Z s)%Q -> 0 <= s + t < 1000 ->
  (dec_add x (inject_Z t) == inject_Z (s + t))%Q.
Proof.
  intros Hx Hst. unfold dec_add.
  rewrite (round_prec_proper _ (inject_Z (s + t))).
  - now apply round_prec_small.
  - rewrite Hx, inject_Z_plus. reflexivity.
Qed.

Lemma getd_weight_nonneg c : 0 <= OD.getd 0 c MF2_WEIGHTS.
Proof.
  unfold OD.getd. destruct (OD.get c MF2_WEIGHTS) eqn:E; [|lia].
  apply weight_positive in E. lia.
Qed.

Lemma getd_direction_nonneg dir : 0 <= OD.getd 0 dir DIRECTION_WEIGHTS.
Proof.
  unfold OD.getd. destruct (OD.get dir DIRECTION_WEIGHTS) eqn:E; [|lia].
  apply direction_weight_positive in E. lia.
Qed.

Lemma exact_counts_nonneg dir counts :
  counts_ge 0 counts -> 0 <= exact_counts dir counts.
Proof.
  unfold exact_counts. induction counts as [|[c n] r IH]; intros Hc; simpl; [lia|].
  destruct (Hc c n (or_introl eq_refl)) as [Hn _].
  assert (0 <= fold_right
                 (fun kv acc =>
                    snd kv * OD.getd 0 (fst kv) MF2_WEIGHTS
                    * OD.getd 0 dir DIRECTION_WEIGHTS + acc) 0 r)
    by (apply IH; intros c' n' Hin; apply Hc; now right).
  pose proof (getd_weight_nonneg c). pose proof (getd_direction_nonneg dir).
  assert (0 <= n * OD.getd 0 c MF2_WEIGHTS * OD.getd 0 dir DIRECTION_WEIGHTS)
    by (apply Z.mul_nonneg_nonneg; [apply Z.mul_nonneg_nonneg|]; lia).
  lia.
Qed.

Lemma exact_score_nonneg stats : stats_ge 0 stats -> 0 <= exact_score stats.
Proof.
  unfold exact_score. induction stats as [|[dir counts] r IH]; intros Hs; simpl; [lia|].
  destruct (Hs dir counts (or_introl eq_refl)) as (_ & _ & Hc).
  pose proof (exact_counts_nonneg dir counts Hc).
  assert (0 <= fold_right (fun dc acc => exact_counts (fst dc) (snd dc) + acc) 0 r)
    by (apply IH; intros d' c' Hin; apply Hs; now right).
  lia.
Qed.

Lemma score_counts_exact dir counts : forall x s,
  OD.get dir DIRECTION_WEIGHTS <> None -> counts_ge 0 counts ->
  (x == inject_Z s)%Q -> 0 <= s -> s + exact_counts dir counts < 1000 ->
  exists x',
    score_counts dir (Some x) counts = Some x'
    /\ (x' == inject_Z (s + exact_counts dir counts))%Q.
Proof.
  induction counts as [|[c n] r IH]; intros x s Hd Hc Hx Hs Hlt.
  - exists x. split; [reflexivity|]. unfold exact_counts; simpl.
    now rewrite Z.add_0_r.
  - destruct (Hc c n (or_introl eq_refl)) as [Hn Hw].
    assert (Hr : counts_ge 0 r) by (intros c' n' Hin; apply Hc; now right).
    pose proof (exact_counts_nonneg dir r Hr) as Hnn.
    unfold score_counts; cbn [fold_left fst snd].
    destruct (OD.get c MF2_WEIGHTS) as [w|] eqn:Ew; [|congruence].
    destruct (OD.get dir DIRECTION_WEIGHTS) as [dw|] eqn:Edw; [|congruence].
    pose proof (weight_positive _ _ Ew) as Hwp.
    pose proof (direction_weight_positive _ _ Edw) as Hdp.
    assert (Ee : exact_counts dir ((c, n) :: r) = n * w * dw + exact_counts dir r).
    { unfold exact_counts; simpl. unfold OD.getd. now rewrite Ew, Edw. }
    rewrite Ee in *.
    assert (Ht : 0 <= n * w * dw)
      by (apply Z.mul_nonneg_nonneg; [apply Z.mul_nonneg_nonneg|]; lia).
    assert (Hd' : Some dw <> None) by discriminate.
    destruct (IH (dec_add x (inject_Z (n * w * dw))) (s + n * w * dw) Hd' Hr
                (dec_add_exact x s (n * w * dw) Hx ltac:(lia))
                ltac:(lia) ltac:(lia))
      as (x' & Ex' & Hx').
    exists x'. split.
    + unfold score_counts in Ex'. rewrite Edw in Ex'. exact Ex'.
    + rewrite Hx', Z.add_assoc. reflexivity.
Qed.

(** X8. Raw scores below 1000 are exact: for an edge whose counts are not
    negative and whose classes and directions have weights, if the
    weighted sum of the counts is less than 1000 then the raw score is
    that sum; the three digits of the context only round larger scores. *)
Theorem raw_score_exact (stats : stats_t) :
  stats_ge 0 stats ->
  exact_score stats < 1000 ->
  exists s, raw_score stats = Some s /\ (s == inject_Z (exact_score stats))%Q.
Proof.
  unfold raw_score. intros Hs Hlt.
  assert (H : forall l x s,
             stats_ge 0 l -> (x == inject_Z s)%Q -> 0 <= s ->
             s + exact_score l < 1000 ->
             exists x',
               fold_left (fun acc dc => score_counts (fst dc) acc (snd dc)) l (Some x)
               = Some x'
               /\ (x' == inject_Z (s + exact_score l))%Q).
  { induction l as [|[dir counts] r IH]; intros x s Hl Hx H0 Hb.
    - exists x. split; [reflexivity|]. unfold exact_score; simpl.
      now rewrite Z.add_0_r.
    - destruct (Hl dir counts (or_introl eq_refl)) as (Hd & _ & Hc).
      assert (Hr : stats_ge 0 r) by (intros d' c' Hin; apply Hl; now right).
      pose proof (exact_score_nonneg r Hr) as Hnn.
      pose proof (exact_counts_nonneg dir counts Hc) as Hcn.
      assert (Ee : exact_score ((dir, counts) :: r)
                   = exact_counts dir counts + exact_score r) by reflexivity.
      rewrite Ee in *.
      destruct (score_counts_exact dir counts x s Hd Hc Hx H0 ltac:(lia))
        as (x1 & E1 & Hx1).
      cbn [fold_left fst snd]. rewrite E1.
      destruct (IH x1 (s + exact_counts dir counts) Hr Hx1 ltac:(lia) ltac:(lia))
        as (x' & Ex' & Hx').
      exists x'. split; auto. rewrite Hx', Z.add_assoc. reflexivity. }
  destruct (H stats 0%Q 0 Hs (Qeq_refl _) ltac:(lia) ltac:(lia)) as (x' & E & Hx').
  exists x'. split; auto.
Qed.

End ExactScores.

(** * Further properties of the views *)

Section ViewsMore.
Import ODFacts.

Lemma mapM_id {A : Type} (f : A -> option A) l :
  (forall x, In x l -> f x = Some x) -> mapM f l = Some l.
Proof.
  induction l as [|x r IH]; simpl; intros H; auto.
  rewrite (H x) by auto. now rewrite IH by auto.
Qed.

Lemma base_site_dict site l :
  OD.get "links" site = Some (PDict l) ->
  base_site site
  = if Nat.ltb MAX_BASE_LINKS (List.length l)
    then Some (OD.set "links_truncated" (PBool true)
                 (OD.set "links" (PDict (firstn MAX_BASE_LINKS l)) site))
    else Some site.
Proof. unfold base_site. now intros ->. Qed.

Lemma base_site_fixed site b : base_site site = Some b -> base_site b = Some b.
Proof.
  intros H. unfold base_site in H.
  destruct (OD.get "links" site) as [[| | | | |s|l|l]|] eqn:E; try discriminate.
  - destruct (Nat.ltb _ _) eqn:El; inversion H; subst.
    unfold base_site. now rewrite E, El.
  - destruct (Nat.ltb _ _) eqn:El; inversion H; subst.
    unfold base_site. now rewrite E, El.
  - destruct (Nat.ltb MAX_BASE_LINKS (List.length l)) eqn:El;
      inversion H; subst; clear H.
    + assert (Hlen : Nat.ltb MAX_BASE_LINKS
                       (List.length (firstn MAX_BASE_LINKS l)) = false).
      { apply Nat.ltb_ge. apply firstn_le_length. }
      rewrite (base_site_dict _ (firstn MAX_BASE_LINKS l)).
      * now rewrite Hlen.
      * rewrite get_set_neq by discriminate. apply get_set_eq.
    + unfold base_site. now rewrite E, El.
Qed.

(** X9. [make_base] applied to a base view changes nothing: the links of
    its records are already within the cap. *)
Theorem make_base_idempotent (full base : list dict) :
  make_base full = Some base -> make_base base = Some base.
Proof.
  unfold make_base. intros H. apply mapM_id.
  intros b Hin. destruct (mapM_In _ _ _ _ H Hin) as [site [_ Hb]].
  eapply base_site_fixed; eauto.
Qed.

Lemma set_set {V : Type} k (v w : V) d : OD.set k w (OD.set k v d) = OD.set k w d.
Proof.
  induction d as [|[k' v'] r IH]; simpl.
  - now rewrite String.eqb_refl.
  - destruct (String.eqb k k') eqn:E; simpl; rewrite ?E, ?String.eqb_refl; auto.
    now rewrite IH.
Qed.

Lemma filter_filter {A : Type} (p : A -> bool) l : filter p (filter p l) = filter p l.
Proof.
  induction l as [|x r IH]; simpl; auto.
  destruct (p x) eqn:E; simpl; rewrite ?E, IH; auto.
Qed.

Lemma internal_site_fixed domains site i :
  internal_site domains site = Some i -> internal_site domains i = Some i.
Proof.
  unfold internal_site. intros H.
  destruct (OD.getd (PDict []) "links" site) as [| | | | | | |l]; try discriminate.
  inversion H; subst; clear H.
  rewrite getd_set_eq, filter_filter, set_set. reflexivity.
Qed.

(** X10. [make_internal] applied to an internal view with the same set of
    domains changes nothing: every record is kept and its links are
    already restricted. *)
Theorem make_internal_idempotent (full internal : list dict) (domains : list string) :
  make_internal full domains = Some internal ->
  make_internal internal domains = Some internal.
Proof.
  unfold make_internal. intros H.
  destruct (filterM (in_domains domains) full) as [kept|] eqn:Ek; [|discriminate].
  assert (Hin : forall i, In i internal ->
                  in_domains domains i = Some true
                  /\ internal_site domains i = Some i).
  { intros i Hi. destruct (mapM_In _ _ _ _ H Hi) as [site [Hs Hsi]].
    destruct (filterM_In _ _ _ _ Ek Hs) as [_ Hd]. split.
    - unfold in_domains in *.
      now rewrite (internal_site_get _ _ _ "domain" Hsi) by discriminate.
    - eapply internal_site_fixed; eauto. }
  rewrite (filterM_spec (in_domains domains) (fun _ => true)).
  - replace (filter (fun _ : dict => true) internal) with internal.
    + apply mapM_id. intros i Hi. apply Hin, Hi.
    + clear. induction internal as [|x r IH]; simpl; congruence.
  - intros i Hi. apply Hin, Hi.
Qed.

(** X11. A record without [links]: [make_base] raises a [KeyError] on it
    and yields no view, while [make_internal] reads it through
    [site.get('links', {})] and gives it an empty links mapping when its
    domain is in the set. *)
Theorem views_on_missing_links (full : list dict) (domains : list string)
    (site : dict) (d : string) :
  In site full ->
  OD.get "links" site = None ->
  OD.get "domain" site = Some (PStr d) ->
  make_base full = None
  /\ internal_site domains site = Some (OD.set "links" (PDict []) site)
  /\ forall internal,
       make_internal full domains = Some internal ->
       mem_str d domains = true ->
       In (OD.set "links" (PDict []) site) internal.
Proof.
  intros Hin Hl Hd.
  assert (Hi : internal_site domains site = Some (OD.set "links" (PDict []) site)).
  { unfold internal_site, OD.getd. now rewrite Hl. }
  split; [|split; [exact Hi|]].
  - unfold make_base. apply (mapM_None _ _ site Hin).
    unfold base_site. now rewrite Hl.
  - intros internal H Hm. unfold make_internal in H.
    destruct (filterM (in_domains domains) full) as [kept|] eqn:Ek; [|discriminate].
    assert (Hk : In site kept).
    { clear H Hi. revert kept Ek.
      induction full as [|x r IH]; intros kept Ek; [destruct Hin|].
      simpl in Ek.
      destruct (in_domains domains x) as [bx|] eqn:Ex; [|discriminate].
      destruct (filterM (in_domains domains) r) as [ys|] eqn:Er; [|discriminate].
      inversion Ek; subst; clear Ek.
      destruct Hin as [->|Hin].
      - unfold in_domains in Ex. rewrite Hd, Hm in Ex. inversion Ex. now left.
      - specialize (IH Hin ys eq_refl). destruct bx; [right|]; auto. }
    clear Ek. revert internal H.
    induction kept as [|x r IH]; intros internal H; [destruct Hk|].
    simpl in H.
    destruct (internal_site domains x) as [y|] eqn:Ey; [|discriminate].
    destruct (mapM (internal_site domains) r) as [ys|] eqn:Er; [|discriminate].
    inversion H; subst; clear H.
    destruct Hk as [->|Hk].
    + left. congruence.
    + right. now apply IH.
Qed.

End ViewsMore.

(** * Further properties of the assembly *)

Section AssemblyMore.
Import ODFacts.
Variable TAGS : list (string * list string).
Variable json_loads : pyval -> option pyval.
Variable dec_ln : Q -> Q.

Lemma insert_str_In x l y : In y (insert_str x l) <-> y = x \/ In y l.
Proof.
  induction l as [|z r IH]; simpl.
  - intuition.
  - destruct (String.leb x z); simpl; rewrite ?IH; intuition.
Qed.

Lemma sorted_strs_In l y : In y (sorted_strs l) <-> In y l.
Proof.
  induction l as [|x r IH]; simpl; [tauto|].
  rewrite insert_str_In, IH. intuition.
Qed.

Lemma insert_str_NoDup x l : NoDup l -> ~ In x l -> NoDup (insert_str x l).
Proof.
  induction l as [|z r IH]; simpl; intros Hn Hx.
  - repeat constructor. tauto.
  - destruct (String.leb x z).
    + constructor; auto.
    + inversion Hn; subst. constructor.
      * rewrite insert_str_In. intros [->|H]; tauto.
      * apply IH; auto.
Qed.

Lemma sorted_strs_NoDup l : NoDup l -> NoDup (sorted_strs l).
Proof.
  induction 1 as [|x r Hx Hr IH]; simpl; [constructor|].
  apply insert_str_NoDup; auto. now rewrite sorted_strs_In.
Qed.

Lemma insert_str_sorted x l :
  Sorted (fun a b => String.leb a b = true) l ->
  Sorted (fun a b => String.leb a b = true) (insert_str x l).
Proof.
  induction 1 as [|z r Hr IH Hz]; simpl.
  - repeat constructor.
  - destruct (String.leb x z) eqn:E.
    + repeat constructor; auto.
    + constructor; auto.
      assert (Hzx : String.leb z x = true)
        by (destruct (String.leb_total x z); congruence).
      destruct r as [|w r']; simpl.
      * repeat constructor. exact Hzx.
      * destruct (String.leb x w); constructor; auto.
        now inversion Hz.
Qed.

Lemma sorted_strs_sorted l :
  Sorted (fun a b => String.leb a b = true) (sorted_strs l).
Proof.
  induction l as [|x r IH]; simpl; [constructor|]. now apply insert_str_sorted.
Qed.

Lemma emit_site_domain st links all_extra site rec :
  extra_keyed all_extra ->
  emit_site TAGS json_loads st links all_extra site = Some rec ->
  exists domain d,
    site_domain site = Some (domain, d)
    /\ OD.get "domain" rec = Some (PStr domain).
Proof.
  intros Hk H.
  destruct (emit_site_frame _ _ _ _ _ _ _ H) as (domain & d & Hs & Hframe).
  exists domain, d. split; auto.
  rewrite Hframe by (simpl; intuition discriminate).
  apply merge_domain; auto. now apply site_domain_inv in Hs.
Qed.

Lemma domains_of_records (l : list pyval) (full : list dict) sdl :
  Forall2 (fun site rec =>
             exists domain d,
               site_domain site = Some (domain, d)
               /\ OD.get "domain" rec = Some (PStr domain)) l full ->
  mapM site_domain l = Some sdl ->
  map (OD.get "domain") full = map (fun d => Some (PStr d)) (map fst sdl).
Proof.
  intros HF. revert sdl.
  induction HF as [|site rec r r' (domain & d & Hs & Hd) _ IH]; intros sdl Hm;
    simpl in Hm.
  - inversion Hm. reflexivity.
  - rewrite Hs in Hm.
    destruct (mapM site_domain r) as [sr|]; [|discriminate].
    inversion Hm; subst. simpl. rewrite Hd, (IH sr eq_refl). reflexivity.
Qed.

Lemma mapM_app {A B : Type} (f : A -> option B) l1 l2 r1 r2 :
  mapM f l1 = Some r1 -> mapM f l2 = Some r2 -> mapM f (l1 ++ l2)%list = Some (r1 ++ r2)%list.
Proof.
  revert r1. induction l1 as [|x r IH]; simpl; intros r1 H1 H2.
  - inversion H1. exact H2.
  - destruct (f x); [|discriminate].
    destruct (mapM f r) as [ys|]; [|discriminate].
    inversion H1; subst. now rewrite (IH ys eq_refl H2).
Qed.

Lemma mapM_more_sites from_domains site_domains :
  mapM site_domain (more_sites from_domains site_domains)
  = Some (map (fun d => (d, [("domain", PStr d)]))
              (sorted_strs (filter (fun d => negb (mem_str d site_domains))
                                   from_domains))).
Proof.
  unfold more_sites.
  induction (sorted_strs _) as [|d r IH]; simpl; auto. now rewrite IH.
Qed.

Lemma full_domain_list sites single_links extras events sds full :
  mapM read_link single_links = Some events ->
  mapM site_domain sites = Some sds ->
  make_full TAGS json_loads dec_ln sites single_links extras = Some full ->
  map (OD.get "domain") full
  = map (fun d => Some (PStr d))
        (map fst sds
         ++ sorted_strs (filter (fun d => negb (mem_str d (map fst sds)))
                                (from_domains_of (aggregate events))))%list.
Proof.
  intros Hev Hsd Hfull. apply make_full_inv in Hfull.
  destruct Hfull as (events' & links & ae & sds' & He & Hs & Hc & Hsd' & Hm).
  rewrite Hev in He. inversion He; subst events'; clear He.
  rewrite Hsd in Hsd'. inversion Hsd'; subst sds'; clear Hsd'.
  pose proof (mapM_app _ _ _ _ _ Hsd
                (mapM_more_sites (from_domains_of (aggregate events))
                   (map fst sds))) as Happ.
  erewrite domains_of_records; [|
    eapply Forall2_weaken; [|apply mapM_Forall2, Hm];
    intros site rec Hsr; eapply emit_site_domain;
    [eapply collect_extra_keyed; eauto|exact Hsr] | exact Happ].
  rewrite !map_app, !map_map. reflexivity.
Qed.

Lemma stubs_spec events (site_domains : list string) d :
  In d (sorted_strs (filter (fun d => negb (mem_str d site_domains))
                            (from_domains_of (aggregate events))))
  <-> (exists e, In e events /\ from_domain e = d) /\ ~ In d site_domains.
Proof.
  destruct (set_add_fold events [] (NoDup_nil _)) as [_ Hfrom].
  rewrite sorted_strs_In, filter_In. unfold aggregate.
  rewrite from_domains_fold. simpl. rewrite Hfrom.
  rewrite negb_true_iff. unfold mem_str. simpl.
  split; intros [H1 H2]; split.
  - destruct H1 as [[]|H1]; exact H1.
  - intros Hin. apply existsb_eqb_In in Hin. congruence.
  - right. exact H1.
  - destruct (existsb (String.eqb d) site_domains) eqn:E; auto.
    apply existsb_eqb_In in E. contradiction.
Qed.

(** X12. The records of the full view stand for the input sites, one
    each and in their order, followed by one stub record for every source
    domain of the links that no site has, in ascending order of the
    domains and without repetition. *)
Theorem full_domains
    (sites single_links : list pyval) (extras : list (list pyval))
    (events : list link_event) (sds : list (string * dict)) (full : list dict) :
  mapM read_link single_links = Some events ->
  mapM site_domain sites = Some sds ->
  make_full TAGS json_loads dec_ln sites single_links extras = Some full ->
  exists stubs,
    map (OD.get "domain") full
    = map (fun d => Some (PStr d)) (map fst sds ++ stubs)%list
    /\ Sorted (fun a b => String.leb a b = true) stubs
    /\ NoDup stubs
    /\ forall d,
         In d stubs
         <-> (exists e, In e events /\ from_domain e = d) /\ ~ In d (map fst sds).
Proof.
  intros Hev Hsd Hfull.
  exists (sorted_strs (filter (fun d => negb (mem_str d (map fst sds)))
                              (from_domains_of (aggregate events)))).
  split; [|split; [|split]].
  - eapply full_domain_list; eauto.
  - apply sorted_strs_sorted.
  - apply sorted_strs_NoDup, NoDup_filter.
    unfold aggregate. rewrite from_domains_fold. simpl.
    apply set_add_fold. constructor.
  - apply stubs_spec.
Qed.

Lemma infer_servers_drops site site' :
  infer_servers site = Some site' ->
  OD.get "rel_generators" site' = None /\ OD.get "meta_generators" site' = None.
Proof.
  unfold infer_servers. intros H.
  destruct (pop_list "rel_generators" site) as [rel|]; [|discriminate].
  destruct (pop_list "meta_generators" _) as [meta|]; [|discriminate].
  destruct (fold_left add_server _ _) as [s1|] eqn:Ef; [|discriminate].
  assert (H1 : OD.get "rel_generators" s1 = None
               /\ OD.get "meta_generators" s1 = None).
  { split.
    - destruct (add_server_get _ _ _ "rel_generators" Ef ltac:(discriminate))
        as [s0 [Hs0 ->]].
      inversion Hs0; subst.
      rewrite get_remove_neq by discriminate. apply get_remove_eq.
    - destruct (add_server_get _ _ _ "meta_generators" Ef ltac:(discriminate))
        as [s0 [Hs0 ->]].
      inversion Hs0; subst. apply get_remove_eq. }
  assert (Happ : forall new s2,
             append_tags new s1 = Some s2 ->
             OD.get "rel_generators" s2 = None
             /\ OD.get "meta_generators" s2 = None).
  { intros new s2 Ha.
    rewrite (append_tags_get _ _ _ "rel_generators" Ha) by discriminate.
    rewrite (append_tags_get _ _ _ "meta_generators" Ha) by discriminate.
    exact H1. }
  destruct (OD.getd _ "servers" s1); try discriminate.
  - inversion H; subst. exact H1.
  - destruct (server_tags _); [|discriminate]. eapply Happ; eauto.
  - destruct (server_tags _); [|discriminate]. eapply Happ; eauto.
Qed.

(** X13. The fields [mf2], [html], [rel_generators] and [meta_generators]
    of the input are in no record of the full view. *)
Theorem transient_fields_dropped
    (sites single_links : list pyval) (extras : list (list pyval))
    (full : list dict) (rec : dict) :
  make_full TAGS json_loads dec_ln sites single_links extras = Some full ->
  In rec full ->
  OD.get "mf2" rec = None /\ OD.get "html" rec = None
  /\ OD.get "rel_generators" rec = None /\ OD.get "meta_generators" rec = None.
Proof.
  intros Hfull Hin. apply make_full_inv in Hfull.
  destruct Hfull as (events & links & ae & sds & He & Hs & Hc & _ & Hm).
  destruct (mapM_In _ _ _ _ Hm Hin) as [site [_ Hsite]].
  apply emit_site_inv in Hsite.
  destruct Hsite as (domain & d & d1 & d2 & d3 & d4 & h & Hsd & H1 & H2 & H3 & H4 & H5 & ->).
  destruct (infer_servers_drops _ _ H3) as [Hrel Hmeta].
  rewrite !get_final_update. simpl.
  rewrite !(crawl_times_get _ _ _ H4) by discriminate.
  rewrite Hrel, Hmeta.
  rewrite !(infer_servers_get _ _ _ H3) by discriminate.
  rewrite !(infer_tags_get TAGS _ _ _ _ H2) by discriminate.
  rewrite !(coerce_num_pages_get _ _ _ H1) by discriminate.
  repeat split.
  - rewrite get_remove_neq by discriminate. apply get_remove_eq.
  - apply get_remove_eq.
Qed.

Lemma collect_extra_last extras all_extra k domain :
  collect_extra extras = Some all_extra ->
  OD.get k (OD.getd [] domain all_extra) = last_extra k domain (List.concat extras).
Proof.
  unfold collect_extra, last_extra.
  assert (H : forall l acc a0 ae,
             fold_left
               (fun acc site =>
                  match acc, site_domain site with
                  | Some a, Some (dom, d) =>
                      Some (OD.upd [] dom (fun e => OD.update e d) a)
                  | _, _ => None
                  end) l (Some a0) = Some ae ->
             OD.get k (OD.getd [] domain a0) = acc ->
             OD.get k (OD.getd [] domain ae)
             = fold_left
                 (fun acc site =>
                    match site_domain site with
                    | Some (dom, d) =>
                        if String.eqb dom domain
                        then match OD.get k d with Some v => Some v | None => acc end
                        else acc
                    | None => acc
                    end) l acc).
  { induction l as [|site r IH]; intros acc a0 ae H Ha; cbn [fold_left] in *.
    - inversion H; subst. reflexivity.
    - destruct (site_domain site) as [[dom d]|] eqn:Es.
      + eapply IH; [exact H|].
        rewrite getd_upd. destruct (String.eqb dom domain); auto.
        rewrite get_update, Ha. reflexivity.
      + exfalso. clear -H.
        assert (Hn : forall l',
                   fold_left
                     (fun acc site =>
                        match acc, site_domain site with
                        | Some a, Some (dom, d) =>
                            Some (OD.upd [] dom (fun e => OD.update e d) a)
                        | _, _ => None
                        end) l' None = Some ae -> False).
        { induction l' as [|s' r' IH']; simpl; [discriminate|auto]. }
        eapply Hn; eauto. }
  intros Hc. eapply H; [exact Hc|]. reflexivity.
Qed.

(** X14. The extra data override the site field by field: a free-form
    field of a record has the value of the last extra record of its
    domain, over all the extra sequences in order, that has the field, and
    the value of the input site when no extra record has it. *)
Theorem extras_last_wins
    (sites single_links : list pyval) (extras : list (list pyval))
    (full : list dict) :
  make_full TAGS json_loads dec_ln sites single_links extras = Some full ->
  exists stubs,
    Forall2 (overridden (List.concat extras)) (sites ++ stubs)%list full.
Proof.
  intros Hfull. apply make_full_inv in Hfull.
  destruct Hfull as (events & links & ae & sds & He & Hs & Hc & _ & Hm).
  exists (more_sites (from_domains_of (aggregate events)) (map fst sds)).
  eapply Forall2_weaken; [|apply mapM_Forall2, Hm].
  intros site rec Hsr.
  destruct (emit_site_frame _ _ _ _ _ _ _ Hsr) as (domain & d & Hsd & Hframe).
  exists domain, d. split; auto. intros k Hk.
  rewrite (Hframe k Hk). unfold merge_extra.
  rewrite get_update, (collect_extra_last _ _ _ _ Hc). reflexivity.
Qed.

End AssemblyMore.

(** * Tags and servers *)

Section TagsMore.
Import ODFacts.
Variable TAGS : list (string * list string).
Variable json_loads : pyval -> option pyval.
Variable dec_ln : Q -> Q.

Lemma string_app_assoc (a b c : string) :
  ((a ++ b) ++ c = a ++ (b ++ c))%string.
Proof. induction a as [|x a IH]; simpl; auto. now rewrite IH. Qed.

Lemma string_rev_app_spec s : forall acc,
  string_rev_app s acc = (string_rev s ++ acc)%string.
Proof.
  unfold string_rev. induction s as [|c r IH]; intros acc; simpl; auto.
  rewrite (IH (String c acc)), (IH (String c "")), string_app_assoc.
  reflexivity.
Qed.

Lemma string_rev_append a b :
  string_rev (a ++ b) = (string_rev b ++ string_rev a)%string.
Proof.
  assert (H : forall acc,
             string_rev_app (a ++ b) acc = string_rev_app b (string_rev_app a acc)).
  { induction a as [|c r IH]; intros acc; simpl; auto. }
  unfold string_rev at 1. rewrite H. apply string_rev_app_spec.
Qed.

Lemma prefix_append a b : String.prefix a (a ++ b) = true.
Proof.
  induction a as [|c r IH]; simpl; auto.
  - now destruct b.
  - destruct (ascii_dec c c); [auto|contradiction].
Qed.

Lemma endswith_append p suffix : endswith (p ++ suffix) suffix = true.
Proof. unfold endswith. rewrite string_rev_append. apply prefix_append. Qed.

Lemma domain_tags_In domain tag domains tag_domain :
  In (tag, domains) TAGS -> In tag_domain domains ->
  tag_matches domain tag_domain ->
  In (PStr tag) (domain_tags TAGS domain).
Proof.
  intros Ht Hd Hm. unfold domain_tags. apply in_flat_map.
  exists (tag, domains). split; auto. cbn [fst snd].
  replace (existsb _ domains) with true; [now left|].
  symmetry. apply existsb_exists. exists tag_domain. split; auto.
  destruct Hm as [->|[[p ->] Hno]].
  - now rewrite String.eqb_refl.
  - rewrite endswith_append.
    destruct (mem_str tag_domain TAGS_NO_SUBDOMAINS) eqn:E.
    + apply existsb_eqb_In in E. contradiction.
    + apply orb_true_r.
Qed.

Lemma tags_of_get rec l : OD.get "tags" rec = Some (PList l) -> tags_of rec = l.
Proof. unfold tags_of. now intros ->. Qed.

Lemma tags_of_In rec t :
  In t (tags_of rec) -> exists l, OD.get "tags" rec = Some (PList l) /\ In t l.
Proof.
  unfold tags_of. destruct (OD.get "tags" rec) as [[]|]; simpl; try tauto. eauto.
Qed.

Lemma get_setdefault_eq (v : pyval) k d :
  OD.get k (OD.setdefault k v d) = Some (OD.getd v k d).
Proof.
  unfold OD.setdefault, OD.mem, OD.getd.
  destruct (OD.get k d) eqn:E; [exact E|apply get_set_eq].
Qed.

Lemma append_tags_tags new site site' :
  append_tags new site = Some site' ->
  (new = [] /\ site' = site)
  \/ (exists l, OD.getd (PList []) "tags" site = PList l
                /\ OD.get "tags" site' = Some (PList (l ++ new))).
Proof.
  unfold append_tags. intros H. destruct new as [|t r].
  - left. split; congruence.
  - right. destruct (OD.getd _ _ site) as [| | | | | |l|]; try discriminate.
    exists l. split; auto. inversion H; subst. apply get_set_eq.
Qed.

Lemma append_tags_grow new site site' :
  append_tags new site = Some site' ->
  (forall t, In t new -> In t (tags_of site'))
  /\ (forall l, OD.get "tags" site = Some (PList l) ->
                OD.get "tags" site' = Some (PList (l ++ new))).
Proof.
  intros H. destruct (append_tags_tags _ _ _ H) as [[-> ->]|[l [Hl Hg]]].
  - split; [intros t []|]. intros l ->. now rewrite app_nil_r.
  - split.
    + intros t Ht. rewrite (tags_of_get _ _ Hg). apply in_or_app. now right.
    + intros l0 Hl0. unfold OD.getd in Hl. rewrite Hl0 in Hl.
      inversion Hl; subst. exact Hg.
Qed.

Lemma infer_tags_grow domain d1 d2 :
  infer_tags TAGS domain d1 = Some d2 ->
  (forall t,
      In t (domain_tags TAGS domain
            ++ (if truthy (OD.getd PNone "webmention_endpoints" d1)
                then [PStr "webmention"] else [])
            ++ (if truthy (OD.getd PNone "micropub_endpoints" d1)
                then [PStr "micropub"] else [])) ->
      In t (tags_of d2))
  /\ (forall l, OD.get "tags" d1 = Some (PList l) ->
                exists l', OD.get "tags" d2 = Some (PList (l ++ l'))).
Proof.
  unfold infer_tags. intros H. cbv zeta in H.
  rewrite (getd_eq PNone "webmention_endpoints" d1) in H
    by (apply get_setdefault_neq; discriminate).
  rewrite (getd_eq PNone "micropub_endpoints" d1) in H
    by (apply get_setdefault_neq; discriminate).
  destruct (append_tags_grow _ _ _ H) as [Hnew Hold]. split; auto.
  intros l Hl. eexists. apply Hold.
  rewrite get_setdefault_eq. unfold OD.getd. now rewrite Hl.
Qed.

Lemma tags_of_grow (a b : dict) t :
  (forall l, OD.get "tags" a = Some (PList l) ->
             exists l', OD.get "tags" b = Some (PList (l ++ l'))) ->
  In t (tags_of a) -> In t (tags_of b).
Proof.
  intros H Ht. apply tags_of_In in Ht. destruct Ht as [l [Hl Hin]].
  destruct (H l Hl) as [l' Hb]. rewrite (tags_of_get _ _ Hb).
  apply in_or_app. now left.
Qed.

Lemma add_server_none gens : fold_left add_server gens None = None.
Proof. induction gens; simpl; auto. Qed.

Lemma add_server_step site gen site' :
  add_server (Some site) gen = Some site' ->
  exists g l l',
    gen = PStr g
    /\ OD.getd (PList []) "servers" site = PList l
    /\ OD.getd (PList []) "servers" site' = PList (l ++ l')
    /\ In (PStr (OD.getd g g SERVERS)) (l ++ l').
Proof.
  unfold add_server. intros H.
  destruct gen as [| | | | |g| |]; try discriminate.
  destruct (OD.getd (PList []) "servers" site) as [| | | | | |l|] eqn:El;
    try discriminate.
  destruct (existsb _ l) eqn:E.
  - inversion H; subst. exists g, l, []. rewrite app_nil_r.
    repeat split; auto.
    apply existsb_exists in E. destruct E as [v [Hv Hs]].
    destruct v; try discriminate. apply String.eqb_eq in Hs. now subst.
  - inversion H; subst. exists g, l, [PStr (OD.getd g g SERVERS)].
    repeat split; auto.
    + unfold OD.getd. now rewrite get_set_eq.
    + apply in_or_app. right. now left.
Qed.

Lemma add_server_fold gens : forall site site',
  fold_left add_server gens (Some site) = Some site' ->
  (forall l, OD.getd (PList []) "servers" site = PList l ->
             exists l', OD.getd (PList []) "servers" site' = PList (l ++ l'))
  /\ (forall g, In (PStr g) gens ->
                exists l, OD.getd (PList []) "servers" site' = PList l
                          /\ In (PStr (OD.getd g g SERVERS)) l).
Proof.
  induction gens as [|gen r IH]; intros site site' H; cbn [fold_left] in H.
  - inversion H; subst. split; [|intros g []].
    intros l Hl. exists []. now rewrite app_nil_r.
  - destruct (add_server (Some site) gen) as [s1|] eqn:E1;
      [|rewrite add_server_none in H; discriminate].
    destruct (add_server_step _ _ _ E1) as (g0 & l0 & l1 & -> & Hl0 & Hl1 & Hin).
    destruct (IH _ _ H) as [Hmono Hall].
    destruct (Hmono _ Hl1) as [l2 Hl2]. split.
    + intros l Hl. rewrite Hl in Hl0. inversion Hl0; subst.
      exists (l1 ++ l2)%list. now rewrite app_assoc.
    + intros g [Hg|Hg]; [|now apply Hall].
      inversion Hg; subst. exists ((l0 ++ l1) ++ l2)%list. split; auto.
      apply in_or_app. now left.
Qed.

Lemma server_tags_In servers new s :
  server_tags servers = Some new -> In (PStr s) servers ->
  mem_str s SERVER_TAGS = true -> In (PStr s) new.
Proof.
  revert new. induction servers as [|v r IH]; intros new H Hin Hs; [destruct Hin|].
  destruct Hin as [->|Hin].
  - cbn [server_tags] in H. destruct (server_tags r); [|discriminate].
    cbn [option_map] in H. rewrite Hs in H. injection H as <-. now left.
  - destruct v; cbn [server_tags] in H; try discriminate; try (now apply IH).
    destruct (server_tags r) as [t|]; [|discriminate].
    cbn [option_map] in H. specialize (IH t eq_refl Hin Hs).
    destruct (mem_str _ SERVER_TAGS) in H; injection H as H; subst new;
      [now right|auto].
Qed.

Lemma infer_servers_grow d2 d3 :
  infer_servers d2 = Some d3 ->
  (forall l, OD.get "tags" d2 = Some (PList l) ->
             exists l', OD.get "tags" d3 = Some (PList (l ++ l')))
  /\ (forall k gens g,
         k = "rel_generators" \/ k = "meta_generators" ->
         OD.get k d2 = Some (PList gens) -> In (PStr g) gens ->
         exists l,
           OD.getd (PList []) "servers" d3 = PList l
           /\ In (PStr (OD.getd g g SERVERS)) l
           /\ (mem_str (OD.getd g g SERVERS) SERVER_TAGS = true ->
               In (PStr (OD.getd g g SERVERS)) (tags_of d3))).
Proof.
  unfold infer_servers, pop_list. intros H.
  destruct (OD.getd (PList []) "rel_generators" d2) as [| | | | | |rel|] eqn:Er;
    try discriminate.
  destruct (OD.getd (PList []) "meta_generators" _) as [| | | | | |meta|] eqn:Em;
    try discriminate.
  destruct (fold_left add_server _ _) as [s1|] eqn:Ef; [|discriminate].
  destruct (add_server_fold _ _ _ Ef) as [_ Hall].
  destruct (add_server_get _ _ _ "tags" Ef ltac:(discriminate)) as [s0 [Hs0 Ht]].
  inversion Hs0; subst s0; clear Hs0.
  rewrite !get_remove_neq in Ht by discriminate.
  assert (Hgens : forall k gens g,
             k = "rel_generators" \/ k = "meta_generators" ->
             OD.get k d2 = Some (PList gens) -> In (PStr g) gens ->
             In (PStr g) (rel ++ meta)).
  { intros k gens g [->| ->] Hk Hg; apply in_or_app.
    - left. unfold OD.getd in Er. rewrite Hk in Er. now inversion Er; subst.
    - right. unfold OD.getd in Em.
      rewrite get_remove_neq, Hk in Em by discriminate.
      now inversion Em; subst. }
  assert (Happ : forall servers new,
             OD.getd (PList []) "servers" s1 = PList servers ->
             (forall s, In (PStr s) servers -> mem_str s SERVER_TAGS = true ->
                        In (PStr s) new) ->
             append_tags new s1 = Some d3 ->
             (forall l, OD.get "tags" d2 = Some (PList l) ->
                        exists l', OD.get "tags" d3 = Some (PList (l ++ l')))
             /\ (forall k gens g,
                    k = "rel_generators" \/ k = "meta_generators" ->
                    OD.get k d2 = Some (PList gens) -> In (PStr g) gens ->
                    exists l,
                      OD.getd (PList []) "servers" d3 = PList l
                      /\ In (PStr (OD.getd g g SERVERS)) l
                      /\ (mem_str (OD.getd g g SERVERS) SERVER_TAGS = true ->
                          In (PStr (OD.getd g g SERVERS)) (tags_of d3)))).
  { intros servers new Hs Hnew Ha.
    destruct (append_tags_grow _ _ _ Ha) as [Hin Hold]. split.
    - intros l Hl. eexists. apply Hold. now rewrite Ht.
    - intros k gens g Hk Hget Hg.
      destruct (Hall g (Hgens _ _ _ Hk Hget Hg)) as [l [Hl Hgl]].
      rewrite Hs in Hl. inversion Hl; subst l. exists servers.
      split; [|split; auto].
      rewrite (getd_eq _ _ s1); auto.
      eapply append_tags_get; eauto. discriminate. }
  destruct (OD.getd (PList []) "servers" s1) as [| | | | |s|servers|sd] eqn:Es;
    try discriminate.
  - inversion H; subst d3. split.
    + intros l Hl. exists []. now rewrite app_nil_r, Ht.
    + intros k gens g Hk Hget Hg.
      destruct (Hall g (Hgens _ _ _ Hk Hget Hg)) as [l [Hl _]]. discriminate.
  - destruct (server_tags servers) as [new|] eqn:En; [|discriminate].
    apply (Happ servers new eq_refl); [|exact H].
    intros s Hs1 Hs2. eapply server_tags_In; eauto.
  - split.
    + destruct (server_tags _) as [new|]; [|discriminate].
      destruct (append_tags_grow _ _ _ H) as [_ Hold].
      intros l Hl. eexists. apply Hold. now rewrite Ht.
    + intros k gens g Hk Hget Hg.
      destruct (Hall g (Hgens _ _ _ Hk Hget Hg)) as [l [Hl _]]. discriminate.
Qed.

Lemma merged_get_spec extras all_extra site domain d k :
  collect_extra extras = Some all_extra ->
  site_domain site = Some (domain, d) ->
  OD.get k (merge_extra all_extra domain d)
  = merged_get k (List.concat extras) site.
Proof.
  intros Hc Hs. unfold merged_get, merge_extra.
  rewrite Hs, get_update, (collect_extra_last _ _ _ _ Hc). reflexivity.
Qed.

Lemma emit_site_tagged extras st links all_extra site rec :
  collect_extra extras = Some all_extra ->
  emit_site TAGS json_loads st links all_extra site = Some rec ->
  tagged TAGS (List.concat extras) site rec.
Proof.
  intros Hc H. apply emit_site_inv in H.
  destruct H as (domain & d & d1 & d2 & d3 & d4 & h & Hsd & H1 & H2 & H3 & H4 & H5 & ->).
  exists domain, d. split; auto.
  destruct (infer_tags_grow _ _ _ H2) as [Hnew Hold].
  destruct (infer_servers_grow _ _ H3) as [Hgrow _].
  assert (Hrec : forall l,
             OD.get "tags" d3 = Some (PList l) ->
             OD.get "tags"
               (OD.update d4
                  [ ("hcard", h);
                    ("links_out", PInt (OD.getd 0 domain (out_counts_of st)));
                    ("links_in", PInt (OD.getd 0 domain (in_counts_of st)));
                    ("links", sorted_links (OD.getd [] domain links)) ])
             = Some (PList l)).
  { intros l Hl. rewrite get_final_update. simpl.
    now rewrite (crawl_times_get _ _ _ H4) by discriminate. }
  assert (Hin : forall t, In t (tags_of d2) ->
             In t (tags_of
                     (OD.update d4
                        [ ("hcard", h);
                          ("links_out", PInt (OD.getd 0 domain (out_counts_of st)));
                          ("links_in", PInt (OD.getd 0 domain (in_counts_of st)));
                          ("links", sorted_links (OD.getd [] domain links)) ]))).
  { intros t Ht. apply tags_of_In in Ht. destruct Ht as [l [Hl Htl]].
    destruct (Hgrow l Hl) as [l' Hl'].
    rewrite (tags_of_get _ _ (Hrec _ Hl')). apply in_or_app. now left. }
  assert (Hm : forall k, k <> "num_pages" -> k <> "mf2" -> k <> "html" ->
             OD.get k d1 = merged_get k (List.concat extras) site).
  { intros k K1 K2 K3. rewrite (coerce_num_pages_get _ _ _ H1) by auto.
    rewrite !get_remove_neq by auto. eapply merged_get_spec; eauto. }
  repeat split.
  - intros tag domains tag_domain Ht Hd Hmatch. apply Hin, Hnew.
    apply in_or_app. left. eapply domain_tags_In; eauto.
  - intros v Hv Htr. apply Hin, Hnew.
    apply in_or_app. right. apply in_or_app. left.
    unfold OD.getd. rewrite Hm, Hv, Htr by discriminate. now left.
  - intros v Hv Htr. apply Hin, Hnew.
    apply in_or_app. right. apply in_or_app. right.
    unfold OD.getd. rewrite Hm, Hv, Htr by discriminate. now left.
  - intros l Hl. rewrite <- Hm in Hl by discriminate.
    destruct (Hold l Hl) as [l1 Hl1]. destruct (Hgrow _ Hl1) as [l2 Hl2].
    exists (l1 ++ l2)%list. rewrite app_assoc. apply tags_of_get, Hrec, Hl2.
Qed.

Lemma emit_site_served extras st links all_extra site rec :
  collect_extra extras = Some all_extra ->
  emit_site TAGS json_loads st links all_extra site = Some rec ->
  served (List.concat extras) site rec.
Proof.
  intros Hc H. apply emit_site_inv in H.
  destruct H as (domain & d & d1 & d2 & d3 & d4 & h & Hsd & H1 & H2 & H3 & H4 & H5 & ->).
  destruct (infer_servers_grow _ _ H3) as [_ Hserv].
  intros k gens g _ Hk Hget Hg.
  assert (Hk2 : OD.get k d2 = Some (PList gens)).
  { rewrite (infer_tags_get TAGS _ _ _ _ H2) by (destruct Hk; subst; discriminate).
    rewrite (coerce_num_pages_get _ _ _ H1) by (destruct Hk; subst; discriminate).
    rewrite !get_remove_neq by (destruct Hk; subst; discriminate).
    erewrite merged_get_spec; eauto. }
  destruct (Hserv k gens g Hk Hk2 Hg) as (l & Hl & Hgl & Htag).
  unfold servers_of, tags_of. rewrite !get_final_update. simpl.
  rewrite !(crawl_times_get _ _ _ H4) by discriminate.
  split.
  - unfold OD.getd in Hl. destruct (OD.get "servers" d3) as [v|].
    + now subst v.
    + inversion Hl; subst. destruct Hgl.
  - exact Htag.
Qed.

(** X15. Every record of the full view has the tags of [TAGS] whose
    domains match its domain (the domain itself, or a subdomain of a domain
    that is not in [TAGS_NO_SUBDOMAINS]), the tags [webmention] and
    [micropub] when the site has such endpoints, and keeps the tags it
    came with in front of them. *)
Theorem tags_inferred
    (sites single_links : list pyval) (extras : list (list pyval))
    (full : list dict) :
  make_full TAGS json_loads dec_ln sites single_links extras = Some full ->
  exists stubs,
    Forall2 (tagged TAGS (List.concat extras)) (sites ++ stubs)%list full.
Proof.
  intros Hfull. apply make_full_inv in Hfull.
  destruct Hfull as (events & links & ae & sds & He & Hs & Hc & _ & Hm).
  exists (more_sites (from_domains_of (aggregate events)) (map fst sds)).
  eapply Forall2_weaken; [|apply mapM_Forall2, Hm].
  intros site rec Hsr. exact (emit_site_tagged _ _ _ _ _ _ Hc Hsr).
Qed.

(** X16. Every generator of a site whose [servers] are a list is among
    the servers of its record, under the name [SERVERS] gives it, and that
    name is a tag of the record when it is in [SERVER_TAGS]. *)
Theorem generators_served
    (sites single_links : list pyval) (extras : list (list pyval))
    (full : list dict) :
  make_full TAGS json_loads dec_ln sites single_links extras = Some full ->
  exists stubs,
    Forall2 (served (List.concat extras)) (sites ++ stubs)%list full.
Proof.
  intros Hfull. apply make_full_inv in Hfull.
  destruct Hfull as (events & links & ae & sds & He & Hs & Hc & _ & Hm).
  exists (more_sites (from_domains_of (aggregate events)) (map fst sds)).
  eapply Forall2_weaken; [|apply mapM_Forall2, Hm].
  intros site rec Hsr. exact (emit_site_served _ _ _ _ _ _ Hc Hsr).
Qed.

End TagsMore.

(** * The script as a whole *)

Section Pipeline.
Import ODFacts.
Variable TAGS : list (string * list string).
Variable json_loads : pyval -> option pyval.
Variable dec_ln : Q -> Q.

(** X17. The totals of a record of the full view are the sums of [num]
    over the input links: [links_out] over the links from its domain,
    [links_in] over the links to its domain; a domain without links has
    0 for both. *)
Theorem record_totals_are_sums
    (sites single_links : list pyval) (extras : list (list pyval))
    (events : list link_event) (full : list dict) (rec : dict) :
  mapM read_link single_links = Some events ->
  make_full TAGS json_loads dec_ln sites single_links extras = Some full ->
  In rec full ->
  exists d,
    OD.get "domain" rec = Some (PStr d)
    /\ OD.get "links_out" rec
       = Some (PInt (sum_num (fun e => String.eqb (from_domain e) d) events))
    /\ OD.get "links_in" rec
       = Some (PInt (sum_num (fun e => String.eqb (to_domain e) d) events)).
Proof.
  intros Hev Hfull Hin. apply (make_full_inv TAGS json_loads dec_ln) in Hfull.
  destruct Hfull as (events' & links & ae & sds & He & Hs & Hc & _ & Hm).
  rewrite Hev in He. inversion He; subst events'; clear He.
  destruct (mapM_In _ _ _ _ Hm Hin) as [site [_ Hsite]].
  apply emit_site_fields in Hsite; [|eapply collect_extra_keyed; eauto].
  destruct Hsite as (d & Hd & _ & Ho & Hi & _).
  destruct (totals_fold events agg_init d) as [Eo Ei].
  exists d. rewrite Ho, Hi. unfold aggregate. rewrite Eo, Ei.
  repeat split; auto.
Qed.

Lemma map_Forall2 {A B C : Type} (f : A -> C) (g : B -> C) l l' :
  Forall2 (fun x y => g y = f x) l l' -> map g l' = map f l.
Proof. induction 1; simpl; congruence. Qed.

Lemma make_base_domains full base :
  make_base full = Some base ->
  map (OD.get "domain") base = map (OD.get "domain") full.
Proof.
  intros H. apply map_Forall2.
  eapply Forall2_weaken; [|apply mapM_Forall2, H].
  intros site b Hb. cbv beta in Hb.
  apply (base_site_get _ _ "domain" Hb); discriminate.
Qed.

Lemma filterM_domains (domains : list string) : forall full names,
  map (OD.get "domain") full = map (fun d => Some (PStr d)) names ->
  exists kept,
    filterM (in_domains domains) full = Some kept
    /\ map (OD.get "domain") kept
       = map (fun d => Some (PStr d)) (filter (fun d => mem_str d domains) names).
Proof.
  induction full as [|site r IH]; intros [|n names] H; try discriminate.
  - exists []. split; reflexivity.
  - simpl in H. injection H as Hn Hr.
    destruct (IH _ Hr) as [kept [Hk Hd]].
    cbn [filterM filter]. unfold in_domains at 1. rewrite Hn, Hk.
    destruct (mem_str n domains).
    + exists (site :: kept). split; auto. simpl. now rewrite Hn, Hd.
    + exists kept. split; auto.
Qed.

Lemma filter_all {A : Type} (p : A -> bool) l :
  (forall x, In x l -> p x = true) -> filter p l = l.
Proof.
  induction l as [|x r IH]; intros H; simpl; auto.
  rewrite (H x (or_introl eq_refl)), IH; auto. intros y Hy. apply H. now right.
Qed.

Lemma filter_none {A : Type} (p : A -> bool) l :
  (forall x, In x l -> p x = false) -> filter p l = [].
Proof.
  induction l as [|x r IH]; intros H; simpl; auto.
  rewrite (H x (or_introl eq_refl)), IH; auto. intros y Hy. apply H. now right.
Qed.

Lemma make_internal_domains full domains internal :
  make_internal full domains = Some internal ->
  exists kept,
    filterM (in_domains domains) full = Some kept
    /\ map (OD.get "domain") internal = map (OD.get "domain") kept.
Proof.
  unfold make_internal. intros H.
  destruct (filterM _ full) as [kept|]; [|discriminate].
  exists kept. split; auto. apply map_Forall2.
  eapply Forall2_weaken; [|apply mapM_Forall2, H].
  intros site i Hi. cbv beta in Hi.
  apply (internal_site_get _ _ _ "domain" Hi). discriminate.
Qed.

(** X18. Once the full view is built the two other views are built too:
    [make_base] and [make_internal] do not abort on the output of
    [make_full], whatever the set of domains. *)
Theorem views_of_full_never_abort
    (sites single_links : list pyval) (extras : list (list pyval))
    (full : list dict) :
  make_full TAGS json_loads dec_ln sites single_links extras = Some full ->
  (forall domains,
      exists base internal,
        make_base full = Some base
        /\ make_internal full domains = Some internal)
  /\ exists base internal,
       main_views TAGS json_loads dec_ln (sites :: single_links :: extras)
       = Some (full, base, internal).
Proof.
  intros Hfull.
  assert (Hshape : forall rec, In rec full ->
             (exists d, OD.get "domain" rec = Some (PStr d))
             /\ (exists l, OD.get "links" rec = Some (PDict l)))
    by (intros rec Hin; eapply full_records_shape; eauto).
  assert (Hbase : exists base, make_base full = Some base).
  { apply mapM_total. intros rec Hin.
    destruct (Hshape rec Hin) as [_ [l Hl]].
    rewrite (base_site_dict _ _ Hl). destruct (Nat.ltb _ _); eauto. }
  assert (Hint : forall domains, exists internal,
             make_internal full domains = Some internal).
  { intros domains. unfold make_internal.
    rewrite (filterM_spec _
               (fun site => match OD.get "domain" site with
                            | Some (PStr s) => mem_str s domains
                            | _ => false
                            end)).
    - apply mapM_total. intros rec Hin. apply filter_In in Hin.
      destruct (Hshape rec (proj1 Hin)) as [_ [l Hl]].
      unfold internal_site, OD.getd. rewrite Hl. eauto.
    - intros rec Hin. destruct (Hshape rec Hin) as [[d Hd] _].
      unfold in_domains. now rewrite Hd. }
  destruct Hbase as [base Hb]. split.
  - intros domains. destruct (Hint domains) as [internal Hi]. eauto.
  - apply (make_full_inv TAGS json_loads dec_ln) in Hfull as Hinv.
    destruct Hinv as (events & links & ae & sds & _ & _ & _ & Hsd & _).
    destruct (Hint (map fst sds)) as [internal Hi].
    exists base, internal. unfold main_views. now rewrite Hfull, Hb, Hsd, Hi.
Qed.

(** X19. The views of a run: the base view has a record for every record
    of the full view, in the same order, and the internal view has a
    record for every input site and no other, in the order of the sites;
    the stub records of the domains that only the links name are left
    out of it. *)
Theorem internal_view_is_sites
    (inputs : list (list pyval)) (full base internal : list dict) :
  main_views TAGS json_loads dec_ln inputs = Some (full, base, internal) ->
  exists sites rest sds,
    inputs = sites :: rest
    /\ mapM site_domain sites = Some sds
    /\ map (OD.get "domain") base = map (OD.get "domain") full
    /\ map (OD.get "domain") internal
       = map (fun d => Some (PStr d)) (map fst sds).
Proof.
  unfold main_views. intros H.
  destruct inputs as [|sites [|single_links extras]]; try discriminate.
  destruct (make_full _ _ _ _ _ _) as [full'|] eqn:Hfull; [|discriminate].
  destruct (make_base full') as [base'|] eqn:Hb; [|discriminate].
  destruct (mapM site_domain sites) as [sds|] eqn:Hsd; [|discriminate].
  destruct (make_internal _ _) as [internal'|] eqn:Hi; [|discriminate].
  injection H as -> -> ->.
  exists sites, (single_links :: extras), sds.
  split; [reflexivity|]. split; [exact Hsd|].
  split; [now apply make_base_domains|].
  apply (make_full_inv TAGS json_loads dec_ln) in Hfull as Hinv.
  destruct Hinv as (events & _ & _ & _ & Hev & _).
  pose proof (full_domain_list TAGS json_loads dec_ln _ _ _ _ _ _ Hev Hsd Hfull)
    as Hdom.
  destruct (make_internal_domains _ _ _ Hi) as [kept [Hk ->]].
  destruct (filterM_domains (map fst sds) _ _ Hdom) as [kept' [Hk' Hd']].
  rewrite Hk in Hk'. injection Hk' as <-. rewrite Hd'. f_equal.
  rewrite filter_app, filter_all, filter_none.
  - apply app_nil_r.
  - intros d Hd. apply stubs_spec in Hd. destruct Hd as [_ Hno].
    unfold mem_str. destruct (existsb _ _) eqn:E; auto.
    apply existsb_eqb_In in E. contradiction.
  - intros d Hd. now apply existsb_eqb_In.
Qed.

End Pipeline.

(** * The links of a record and the input links *)

Section RecordLinks.
Import ODFacts.
Variable TAGS : list (string * list string).
Variable json_loads : pyval -> option pyval.
Variable dec_ln : Q -> Q.

Lemma get_map {V W : Type} (f : V -> W) k (l : list (string * V)) :
  OD.get k (map (fun kv => (fst kv, f (snd kv))) l) = option_map f (OD.get k l).
Proof.
  induction l as [|[k' v] r IH]; simpl; auto.
  destruct (String.eqb k k'); auto.
Qed.

Lemma get_keys {V : Type} k (l : list (string * V)) :
  OD.get k l <> None <-> In k (map fst l).
Proof.
  induction l as [|[k' v] r IH]; simpl; [tauto|].
  destruct (String.eqb_spec k k') as [->|Hne].
  - split; [auto|discriminate].
  - rewrite IH. split; [auto|]. intros [H|H]; [congruence|auto].
Qed.

Lemma get_insert_desc {V : Type} (key : string * V -> Q) x l k :
  ~ In (fst x) (map fst l) ->
  OD.get k (insert_desc key x l) = OD.get k (x :: l).
Proof.
  induction l as [|y r IH]; intros Hx; cbn [insert_desc]; auto.
  destruct (Qltb (key x) (key y)); auto.
  destruct x as [kx vx], y as [ky vy]. cbn [OD.get fst snd map] in *.
  rewrite IH by (intros H; apply Hx; now right). cbn [OD.get].
  destruct (String.eqb_spec k kx) as [E1|]; auto.
  destruct (String.eqb_spec k ky) as [E2|]; auto.
  exfalso. apply Hx. left. congruence.
Qed.

Lemma get_sorted_desc {V : Type} (key : string * V -> Q) l k :
  NoDup (map fst l) -> OD.get k (sorted_desc key l) = OD.get k l.
Proof.
  induction l as [|x r IH]; intros Hnd; auto.
  inversion Hnd as [|? ? Hx Hr]; subst.
  change (sorted_desc key (x :: r)) with (insert_desc key x (sorted_desc key r)).
  assert (Hno : ~ In (fst x) (map fst (sorted_desc key r))).
  { intros H. apply Hx. apply in_map_iff in H. destruct H as [z [Hz Hin]].
    apply (proj1 (sorted_desc_In key (fun _ => O) r z)) in Hin.
    rewrite <- Hz. now apply in_map. }
  rewrite (get_insert_desc key x _ k Hno).
  destruct x as [kx vx]. cbn [OD.get]. now rewrite (IH Hr).
Qed.

Lemma scored_stats edges sc :
  score_domain dec_ln edges = Some sc ->
  forall b, option_map stats_of (OD.get b sc) = OD.get b edges.
Proof.
  intros H b. destruct (score_domain_inv _ _ _ H) as (raws & m & Hr & _ & ->).
  assert (Hlen : List.length raws = List.length edges)
    by (eapply mapM_length; eauto).
  clear H Hr. revert raws Hlen.
  induction edges as [|[k st] r IH]; intros [|q raws] Hlen; try discriminate; auto.
  cbn [combine map OD.get fst snd].
  destruct (String.eqb b k); auto.
Qed.

Lemma see_In a s e b :
  In b (see a s e)
  <-> In b s
      \/ (from_domain e = a /\ to_domain e = b)
      \/ (from_domain e = b /\ to_domain e = a).
Proof.
  unfold see.
  destruct (String.eqb_spec (from_domain e) a) as [Ef|Ef];
    destruct (String.eqb_spec (to_domain e) a) as [Et|Et];
    rewrite ?In_set_add; intuition congruence.
Qed.

Lemma first_seen_In a events b :
  In b (first_seen a events)
  <-> exists e, In e events
                /\ ((from_domain e = a /\ to_domain e = b)
                    \/ (from_domain e = b /\ to_domain e = a)).
Proof.
  unfold first_seen.
  assert (H : forall l s,
             In b (fold_left (see a) l s)
             <-> In b s
                 \/ exists e, In e l
                      /\ ((from_domain e = a /\ to_domain e = b)
                          \/ (from_domain e = b /\ to_domain e = a))).
  { induction l as [|e r IH]; intros s; cbn [fold_left].
    - split; auto. intros [H|[e [[] _]]]; auto.
    - rewrite IH, see_In. split.
      + intros [[H|H]|[e' [He' H]]].
        * now left.
        * right. exists e. split; [now left|exact H].
        * right. exists e'. split; [now right|exact H].
      + intros [H|[e' [[->|He'] H]]].
        * left. now left.
        * left. now right.
        * right. exists e'. split; auto. }
  rewrite H. simpl. intuition.
Qed.

(** X20. The links of a record of the full view are those of the input:
    the record of domain [a] has an entry for [b] exactly when some input
    link goes from [a] to [b] or from [b] to [a], and in that entry the
    out count of a class is the sum of [num] over the links from [a] to
    [b] with that class, the in count the sum over the links from [b] to
    [a]. *)
Theorem record_links_are_sums
    (sites single_links : list pyval) (extras : list (list pyval))
    (events : list link_event) (full : list dict) (rec : dict) :
  mapM read_link single_links = Some events ->
  make_full TAGS json_loads dec_ln sites single_links extras = Some full ->
  In rec full ->
  exists a,
    OD.get "domain" rec = Some (PStr a)
    /\ (forall b,
          py_linked rec b
          <-> exists e, In e events
                        /\ ((from_domain e = a /\ to_domain e = b)
                            \/ (from_domain e = b /\ to_domain e = a)))
    /\ forall b c,
         py_count rec b "out" c = sum_num (is_link a b c) events
         /\ py_count rec b "in" c = sum_num (is_link b a c) events.
Proof.
  intros Hev Hfull Hin. apply (make_full_inv TAGS json_loads dec_ln) in Hfull.
  destruct Hfull as (events' & links & ae & sds & He & Hs & Hc & _ & Hm).
  rewrite Hev in He. inversion He; subst events'; clear He.
  destruct (mapM_In _ _ _ _ Hm Hin) as [site [_ Hsite]].
  apply emit_site_fields in Hsite; [|eapply collect_extra_keyed; eauto].
  destruct Hsite as (a & Hd & Hl & _).
  exists a. split; [exact Hd|].
  set (graph := links_of (aggregate events)) in *.
  set (dl := OD.getd [] a links) in *.
  assert (Hkeys : map fst dl = first_seen a events).
  { unfold dl. rewrite (score_graph_keys dec_ln _ _ a Hs). apply keys_aggregate. }
  assert (Hnd : NoDup (map fst dl))
    by (rewrite Hkeys; apply NoDup_first_seen).
  assert (Hget : forall b,
             OD.get b (map (fun ks => (fst ks, stats_to_py (snd ks)))
                           (sorted_desc (fun ks => score_of (snd ks)) dl))
             = option_map stats_to_py (OD.get b dl)).
  { intros b. rewrite (get_map stats_to_py). now rewrite get_sorted_desc. }
  assert (Hstats : forall b,
             option_map stats_of (OD.get b dl) = OD.get b (OD.getd [] a graph)).
  { intros b. unfold dl, OD.getd.
    pose proof (score_graph_get dec_ln _ _ a Hs) as Hg.
    destruct (OD.get a graph) as [edges|].
    - destruct Hg as [sc [Hsc ->]]. now apply scored_stats.
    - rewrite Hg. reflexivity. }
  split.
  - intros b. rewrite <- first_seen_In, <- Hkeys, <- get_keys.
    unfold py_linked. rewrite Hl. unfold sorted_links. split.
    + intros (l & v & Hl' & Hv). inversion Hl'; subst l.
      rewrite Hget in Hv. destruct (OD.get b dl); [discriminate|discriminate Hv].
    + intros Hb. destruct (OD.get b dl) as [s|] eqn:Eb; [|contradiction].
      eexists. exists (stats_to_py s). split; [reflexivity|].
      rewrite Hget, Eb. reflexivity.
  - assert (Hcount : forall b dir c, dir <> "score" ->
               py_count rec b dir c = count graph a b dir c).
    { intros b dir c Hdir. unfold py_count, count. rewrite Hl.
      unfold sorted_links. rewrite Hget.
      specialize (Hstats b). unfold OD.getd at 3.
      destruct (OD.get b dl) as [s|]; cbn [option_map] in *.
      - rewrite <- Hstats. unfold stats_to_py.
        rewrite get_set_neq by auto.
        rewrite (get_map counts_to_py). unfold OD.getd at 2.
        destruct (OD.get dir (stats_of s)) as [counts|]; cbn [option_map].
        + unfold counts_to_py. rewrite (get_map PInt). unfold OD.getd.
          destruct (OD.get c counts); reflexivity.
        + reflexivity.
      - rewrite <- Hstats. reflexivity. }
    intros b c. rewrite !Hcount by discriminate.
    unfold graph, aggregate. rewrite !count_fold.
    rewrite (sum_num_ext (fun e => (is_link a b c e && String.eqb "out" "out")%bool)
               (is_link a b c)) by (intros; apply andb_true_r).
    rewrite (sum_num_ext (fun e => (is_link b a c e && String.eqb "in" "out")%bool)
               (fun _ => false)) by (intros; apply andb_false_r).
    rewrite (sum_num_ext (fun e => (is_link a b c e && String.eqb "out" "in")%bool)
               (fun _ => false)) by (intros; apply andb_false_r).
    rewrite (sum_num_ext (fun e => (is_link b a c e && String.eqb "in" "in")%bool)
               (is_link b a c)) by (intros; apply andb_true_r).
    rewrite sum_num_false.
    change (count (links_of agg_init) a b "out" c) with 0.
    change (count (links_of agg_init) a b "in" c) with 0.
    split; lia.
Qed.

End RecordLinks.

(** * The further properties at the examples *)

Lemma link_missing_field_aborts_witness :
  load_links [ ex_link "a.com" "b.com" 3 "like-of"; PDict ex_no_target ] = None
  /\ ex_make_full ex_sites
       [ ex_link "a.com" "b.com" 3 "like-of"; PDict ex_no_target ] [] = None.
Proof.
  apply (link_missing_field_aborts ex_TAGS json_loads_ref dec_ln_ref ex_sites
           [ ex_link "a.com" "b.com" 3 "like-of"; PDict ex_no_target ] []
           ex_no_target).
  - right. left. reflexivity.
  - right. left. reflexivity.
Defined.

Lemma record_without_domain_aborts_witness :
  ex_make_full ex_sites ex_links [ ex_extra; [ PDict ex_no_domain ] ] = None.
Proof.
  apply (record_without_domain_aborts ex_TAGS json_loads_ref dec_ln_ref ex_sites
           ex_links [ ex_extra; [ PDict ex_no_domain ] ] ex_no_domain).
  - right. simpl. right. left. reflexivity.
  - reflexivity.
Defined.

Lemma unknown_class_aborts_witness :
  score_graph dec_ln_ref (links_of (aggregate [ex_rsvp])) = None
  /\ ex_make_full ex_sites [ ex_link "a.com" "b.com" 2 "u-rsvp" ] [] = None.
Proof.
  apply (unknown_class_aborts ex_TAGS json_loads_ref dec_ln_ref ex_sites
           [ ex_link "a.com" "b.com" 2 "u-rsvp" ] [] [ex_rsvp] ex_rsvp).
  - vm_compute. reflexivity.
  - left. reflexivity.
  - reflexivity.
Defined.

Lemma scores_in_unit_interval_witness :
  ln_sound_on dec_ln_ref ex_raws
  /\ forall ks, In ks ex_scored ->
       (0 <= score_of (snd ks))%Q /\ (score_of (snd ks) <= 1)%Q.
Proof.
  assert (Hln : ln_sound_on dec_ln_ref ex_raws).
  { intros s t Hs Ht.
    destruct Hs as [<-|[<-|[<-|[<-|[]]]]];
      destruct Ht as [<-|[<-|[<-|[<-|[]]]]];
      intros H1 H2;
      first [ split; vm_compute; discriminate
            | exfalso; vm_compute in H2; apply H2; reflexivity ]. }
  split; [exact Hln|].
  apply (scores_in_unit_interval dec_ln_ref ex_edges ex_raws ex_scored).
  - vm_compute. reflexivity.
  - vm_compute. reflexivity.
  - exact Hln.
Defined.

Lemma scoring_succeeds_witness :
  exists links,
    score_graph dec_ln_ref (links_of (aggregate ex_tied_events)) = Some links.
Proof.
  apply (scoring_succeeds dec_ln_ref ex_tied_events).
  intros e [<-|[<-|[<-|[<-|[]]]]]; split; try reflexivity; discriminate.
Defined.

Lemma raw_score_exact_witness :
  exact_score ex_stats = 176
  /\ exists s, raw_score ex_stats = Some s
               /\ (s == inject_Z (exact_score ex_stats))%Q.
Proof.
  split; [reflexivity|].
  apply (raw_score_exact ex_stats).
  - intros dir counts [H|[H|[]]]; inversion H; subst;
      (split; [discriminate|]); (split; [discriminate|]);
      intros c n Hc; simpl in Hc;
      repeat (destruct Hc as [Hc|Hc];
              [inversion Hc; subst; split; [lia|discriminate]|]);
      destruct Hc.
  - reflexivity.
Defined.

Lemma make_base_idempotent_witness :
  exists base,
    make_base [ex_wide; (ex_bare ++ [("links", PDict [])])%list] = Some base
    /\ make_base base = Some base.
Proof.
  eexists. split; [vm_compute; reflexivity|].
  apply (make_base_idempotent [ex_wide; (ex_bare ++ [("links", PDict [])])%list]).
  vm_compute. reflexivity.
Defined.

Lemma make_internal_idempotent_witness :
  exists internal,
    make_internal ex_full3 ex_domains = Some internal
    /\ make_internal internal ex_domains = Some internal.
Proof.
  eexists. split; [vm_compute; reflexivity|].
  apply (make_internal_idempotent ex_full3 _ ex_domains).
  vm_compute. reflexivity.
Defined.

Lemma views_on_missing_links_witness :
  make_base (ex_full3 ++ [ex_bare]) = None
  /\ internal_site ex_domains ex_bare = Some (OD.set "links" (PDict []) ex_bare)
  /\ forall internal,
       make_internal (ex_full3 ++ [ex_bare]) ex_domains = Some internal ->
       mem_str "a.com" ex_domains = true ->
       In (OD.set "links" (PDict []) ex_bare) internal.
Proof.
  apply (views_on_missing_links (ex_full3 ++ [ex_bare]) ex_domains ex_bare "a.com").
  - simpl. right. right. right. left. reflexivity.
  - reflexivity.
  - reflexivity.
Defined.

Lemma full_domains_witness :
  exists stubs,
    map (OD.get "domain") ex_mixed_full
    = map (fun d => Some (PStr d))
          (map fst [("b.com", [("domain", PStr "b.com")])] ++ stubs)%list
    /\ Sorted (fun a b => String.leb a b = true) stubs
    /\ NoDup stubs
    /\ forall d,
         In d stubs
         <-> (exists e, In e ex_mixed_events /\ from_domain e = d)
             /\ ~ In d (map fst [("b.com", [("domain", PStr "b.com")])]).
Proof.
  apply (full_domains ex_TAGS json_loads_ref dec_ln_ref
           [ex_site "b.com"] ex_mixed [] ex_mixed_events
           [("b.com", [("domain", PStr "b.com")])] ex_mixed_full).
  - vm_compute. reflexivity.
  - vm_compute. reflexivity.
  - vm_compute. reflexivity.
Defined.

Lemma transient_fields_dropped_witness :
  OD.get "mf2" (hd [] ex_titled_full) = None
  /\ OD.get "html" (hd [] ex_titled_full) = None
  /\ OD.get "rel_generators" (hd [] ex_titled_full) = None
  /\ OD.get "meta_generators" (hd [] ex_titled_full) = None.
Proof.
  apply (transient_fields_dropped ex_TAGS json_loads_ref dec_ln_ref
           [ex_titled] ex_tied ex_extras2 ex_titled_full (hd [] ex_titled_full)).
  - vm_compute. reflexivity.
  - left. reflexivity.
Defined.

Lemma extras_last_wins_witness :
  exists stubs,
    Forall2 (overridden (List.concat ex_extras2)) ([ex_titled] ++ stubs)%list
            ex_titled_full.
Proof.
  apply (extras_last_wins ex_TAGS json_loads_ref dec_ln_ref
           [ex_titled] ex_tied ex_extras2 ex_titled_full).
  vm_compute. reflexivity.
Defined.

Lemma tags_inferred_witness :
  exists stubs,
    Forall2 (tagged ex_TAGS (List.concat [ex_extra])) ([ex_rich] ++ stubs)%list
            ex_rich_full.
Proof.
  apply (tags_inferred ex_TAGS json_loads_ref dec_ln_ref
           [ex_rich] [] [ex_extra] ex_rich_full).
  vm_compute. reflexivity.
Defined.

Lemma generators_served_witness :
  exists stubs,
    Forall2 (served (List.concat [ex_extra])) ([ex_rich] ++ stubs)%list
            ex_rich_full.
Proof.
  apply (generators_served ex_TAGS json_loads_ref dec_ln_ref
           [ex_rich] [] [ex_extra] ex_rich_full).
  vm_compute. reflexivity.
Defined.

Lemma record_totals_are_sums_witness :
  exists d,
    OD.get "domain" (nth 1 ex_mixed_full []) = Some (PStr d)
    /\ OD.get "links_out" (nth 1 ex_mixed_full [])
       = Some (PInt (sum_num (fun e => String.eqb (from_domain e) d)
                             ex_mixed_events))
    /\ OD.get "links_in" (nth 1 ex_mixed_full [])
       = Some (PInt (sum_num (fun e => String.eqb (to_domain e) d)
                             ex_mixed_events)).
Proof.
  apply (record_totals_are_sums ex_TAGS json_loads_ref dec_ln_ref
           [ex_site "b.com"] ex_mixed [] ex_mixed_events ex_mixed_full
           (nth 1 ex_mixed_full [])).
  - vm_compute. reflexivity.
  - vm_compute. reflexivity.
  - right. left. reflexivity.
Defined.

Lemma views_of_full_never_abort_witness :
  (forall domains,
      exists base internal,
        make_base ex_mixed_full = Some base
        /\ make_internal ex_mixed_full domains = Some internal)
  /\ exists base internal,
       main_views ex_TAGS json_loads_ref dec_ln_ref
         ([ex_site "b.com"] :: ex_mixed :: [])
       = Some (ex_mixed_full, base, internal).
Proof.
  apply (views_of_full_never_abort ex_TAGS json_loads_ref dec_ln_ref
           [ex_site "b.com"] ex_mixed [] ex_mixed_full).
  vm_compute. reflexivity.
Defined.

Lemma internal_view_is_sites_witness :
  exists full base internal,
    main_views ex_TAGS json_loads_ref dec_ln_ref ex_inputs
    = Some (full, base, internal)
    /\ exists sites rest sds,
         ex_inputs = sites :: rest
         /\ mapM site_domain sites = Some sds
         /\ map (OD.get "domain") base = map (OD.get "domain") full
         /\ map (OD.get "domain") internal
            = map (fun d => Some (PStr d)) (map fst sds).
Proof.
  eexists. eexists. eexists. split; [vm_compute; reflexivity|].
  apply (internal_view_is_sites ex_TAGS json_loads_ref dec_ln_ref ex_inputs).
  vm_compute. reflexivity.
Defined.

Lemma record_links_are_sums_witness :
  exists a,
    OD.get "domain" (nth 1 ex_mixed_full []) = Some (PStr a)
    /\ (forall b,
          py_linked (nth 1 ex_mixed_full []) b
          <-> exists e, In e ex_mixed_events
                        /\ ((from_domain e = a /\ to_domain e = b)
                            \/ (from_domain e = b /\ to_domain e = a)))
    /\ forall b c,
         py_count (nth 1 ex_mixed_full []) b "out" c
         = sum_num (is_link a b c) ex_mixed_events
         /\ py_count (nth 1 ex_mixed_full []) b "in" c
            = sum_num (is_link b a c) ex_mixed_events.
Proof.
  apply (record_links_are_sums ex_TAGS json_loads_ref dec_ln_ref
           [ex_site "b.com"] ex_mixed [] ex_mixed_events ex_mixed_full
           (nth 1 ex_mixed_full [])).
  - vm_compute. reflexivity.
  - vm_compute. reflexivity.
  - right. left. reflexivity.
Defined.
